(** * html5-node-diagram: Particle, Node and Segment (models.js)

    A shallow embedding of [src/models.js] and of the demo page script that
    builds four Nodes and six Segments.  Objects live in a store and are
    named by their index; methods are store transformers that either
    return or throw, and a throw keeps every mutation made before it. *)

From Stdlib Require Import ZArith QArith Qround Lia Lqa.
From stdpp Require Import base list strings.

Set Default Proof Using "Type".

(** ** JavaScript numbers

    A number is kept as its exact rational value together with the IEEE-754
    sign of zero, which [Math.atan2] observes.  The rounding of sums,
    differences, products and quotients, NaN and the infinities are outside
    the model; square roots and arc tangents are left to the host. *)

Module JSNum.

Inductive num : Type :=
  | NegZero
  | Num (q : Q).

Definition value (a : num) : Q :=
  match a with NegZero => 0 | Num q => q end.

Definition of_Z (z : Z) : num := Num (inject_Z z).

(** Sign bit of the double. *)
Definition signbit (a : num) : bool :=
  match a with
  | NegZero => true
  | Num q => if Qlt_le_dec q 0 then true else false
  end.

Definition is_zero (a : num) : bool := Qeq_bool (value a) 0.

(** [a === b] on numbers: [-0 === 0] holds. *)
Definition strict_eq (a b : num) : bool := Qeq_bool (value a) (value b).

(** [a < b]. *)
Definition ltb (a b : num) : bool :=
  if Qlt_le_dec (value a) (value b) then true else false.

(** A result with value [q]; [neg] is the sign a zero result takes. *)
Definition signed (neg : bool) (q : Q) : num :=
  if Qeq_bool q 0 then (if neg then NegZero else Num 0) else Num (Qred q).

(** [a + b]: a zero sum is [+0] unless both operands are [-0]. *)
Definition add (a b : num) : num :=
  match a, b with
  | NegZero, NegZero => NegZero
  | _, _ => signed false (value a + value b)
  end.

(** [a - b]: a zero difference is [+0] unless it is [(-0) - (+0)]. *)
Definition sub (a b : num) : num :=
  match a, b with
  | NegZero, Num q => signed true (- q)
  | _, _ => signed false (value a - value b)
  end.

(** [a * b]: the sign of a zero product is the xor of the operands' signs. *)
Definition mul (a b : num) : num :=
  signed (xorb (signbit a) (signbit b)) (value a * value b).

(** [a / b] for a divisor other than zero. *)
Definition div (a b : num) : num :=
  signed (xorb (signbit a) (signbit b)) (value a / value b).

(** [Math.pow(a, 2)]. *)
Definition pow2 (a : num) : num := signed false (value a * value a).

(** [Math.ceil(a)]: a result in [(-1, 0]] keeps the sign of [a]. *)
Definition ceil (a : num) : num :=
  signed (signbit a) (inject_Z (Qceiling (value a))).

(** Conversion to a WebIDL [unsigned long]: truncate, then wrap. *)
Definition to_uint32 (a : num) : Z :=
  let q := value a in
  (if Qlt_le_dec q 0 then Qceiling q else Qfloor q) mod 2 ^ 32.

(** [a || 0] where [a] may be undefined: zero of either sign is falsy. *)
Definition or_zero (a : option num) : num :=
  match a with
  | None => Num 0
  | Some v => if is_zero v then Num 0 else v
  end.

End JSNum.

Import JSNum.

(** ** Host functions

    What the browser supplies and the source only calls:
    [Math.sin(40 * DEG2RAD)]; for operands that are both nonzero,
    [(Math.atan2(y, x) * RAD2DEG).toFixed(2)]; and for an operand that is
    not zero, [Math.ceil(Math.sqrt(a))], which the browser evaluates in
    double precision and which is not always the ceiling of the exact
    root. *)

Class Host : Type := {
  sin40 : Q;
  atan2_deg_fixed : Q -> Q -> string;
  sqrt_ceil : Q -> Z
}.

(** ** Objects and the store *)

(** An [{x, y}] pair. *)
Record Point : Type := { pt_x : num; pt_y : num }.

(** [this.dimensions]. *)
Record Dimensions : Type := { dim_w : num; dim_h : num; center : Point }.

(** What is appended inside an element: the title of a Node, the arrowhead
    canvas of a Segment. *)
Inductive Child : Type :=
  | H4 (text : string)
  | CanvasEndpoint.

(** The part of the DOM element [this.el] that the methods touch. *)
Record Element : Type := {
  className : string;
  dragging : bool;
  css_width : option num;
  css_height : option num;
  css_top : option num;
  css_left : option num;
  css_transform : option string;
  children : list Child;
  attached : bool
}.

(** The fields every Particle has. *)
Record ParticleObj : Type := {
  title : option string;
  dimensions : Dimensions;
  translate : Point;
  el : Element
}.

(** [this.canvas]: the raw element's size, the [right] offset of its
    wrapper, and how many times the arrowhead has been drawn on it. *)
Record Canvas : Type := {
  raw_height : Z;
  raw_width : Z;
  css_right : num;
  drawn : nat
}.

Record NodeObj : Type := {
  node_particle : ParticleObj;
  segments : list nat;
  clickCoords : option Point
}.

Record SegmentObj : Type := {
  seg_particle : ParticleObj;
  canvas : Canvas;
  origin : option nat;
  destination : option nat;
  distance : option Point;
  rotate : option string
}.

(** The heap of Nodes and of Segments, each object named by its index, and
    the [mousemove] handlers bound on [window], oldest first: entry [n]
    stands for [onDrag.bind(n)]. *)
Record Store : Type := {
  nodes : list NodeObj;
  segs : list SegmentObj;
  mousemove : list nat
}.

Definition empty_store : Store := {| nodes := []; segs := []; mousemove := [] |}.

(** A reference to a Particle of either kind. *)
Inductive obj : Type :=
  | ONode (n : nat)
  | OSegment (sg : nat).

(** Constructor options. *)
Record Opts : Type := {
  opt_w : option num;
  opt_h : option num;
  opt_x : option num;
  opt_y : option num;
  opt_title : option string;
  opt_origin : option nat;
  opt_destination : option nat
}.

(** The fields of a mouse event that the handlers read, and what
    [this.el.offset()] answers while the event is handled. *)
Record MouseEvent : Type := {
  offsetX : option num;
  offsetY : option num;
  pageX : num;
  pageY : num;
  el_offset_left : num;
  el_offset_top : num
}.

(** *** Field updates *)

Definition with_translate (t : Point) (p : ParticleObj) : ParticleObj :=
  {| title := title p; dimensions := dimensions p; translate := t; el := el p |}.

Definition with_el (e : Element) (p : ParticleObj) : ParticleObj :=
  {| title := title p; dimensions := dimensions p; translate := translate p; el := e |}.

Definition el_css_size (cw ch : num) (e : Element) : Element :=
  {| className := className e; dragging := dragging e;
     css_width := Some cw; css_height := Some ch;
     css_top := css_top e; css_left := css_left e;
     css_transform := css_transform e;
     children := children e; attached := attached e |}.

Definition el_css_position (top left : num) (e : Element) : Element :=
  {| className := className e; dragging := dragging e;
     css_width := css_width e; css_height := css_height e;
     css_top := Some top; css_left := Some left;
     css_transform := css_transform e;
     children := children e; attached := attached e |}.

Definition el_css_geometry (cw : num) (tr : string) (e : Element) : Element :=
  {| className := className e; dragging := dragging e;
     css_width := Some cw; css_height := css_height e;
     css_top := css_top e; css_left := css_left e;
     css_transform := Some tr;
     children := children e; attached := attached e |}.

Definition el_set_dragging (b : bool) (e : Element) : Element :=
  {| className := className e; dragging := b;
     css_width := css_width e; css_height := css_height e;
     css_top := css_top e; css_left := css_left e;
     css_transform := css_transform e;
     children := children e; attached := attached e |}.

Definition el_append (html : Child) (e : Element) : Element :=
  {| className := className e; dragging := dragging e;
     css_width := css_width e; css_height := css_height e;
     css_top := css_top e; css_left := css_left e;
     css_transform := css_transform e;
     children := children e ++ [html]; attached := attached e |}.

Definition el_set_attached (b : bool) (e : Element) : Element :=
  {| className := className e; dragging := dragging e;
     css_width := css_width e; css_height := css_height e;
     css_top := css_top e; css_left := css_left e;
     css_transform := css_transform e;
     children := children e; attached := b |}.

Definition node_with_particle (p : ParticleObj) (N : NodeObj) : NodeObj :=
  {| node_particle := p; segments := segments N; clickCoords := clickCoords N |}.

Definition node_with_segments (l : list nat) (N : NodeObj) : NodeObj :=
  {| node_particle := node_particle N; segments := l; clickCoords := clickCoords N |}.

Definition node_with_clickCoords (c : Point) (N : NodeObj) : NodeObj :=
  {| node_particle := node_particle N; segments := segments N; clickCoords := Some c |}.

Definition seg_with_particle (p : ParticleObj) (G : SegmentObj) : SegmentObj :=
  {| seg_particle := p; canvas := canvas G; origin := origin G;
     destination := destination G; distance := distance G; rotate := rotate G |}.

Definition seg_with_canvas (c : Canvas) (G : SegmentObj) : SegmentObj :=
  {| seg_particle := seg_particle G; canvas := c; origin := origin G;
     destination := destination G; distance := distance G; rotate := rotate G |}.

Definition seg_with_distance (d : Point) (G : SegmentObj) : SegmentObj :=
  {| seg_particle := seg_particle G; canvas := canvas G; origin := origin G;
     destination := destination G; distance := Some d; rotate := rotate G |}.

Definition seg_with_rotate (r : string) (G : SegmentObj) : SegmentObj :=
  {| seg_particle := seg_particle G; canvas := canvas G; origin := origin G;
     destination := destination G; distance := distance G; rotate := Some r |}.

Definition seg_with_endpoints (o d : option nat) (G : SegmentObj) : SegmentObj :=
  {| seg_particle := seg_particle G; canvas := canvas G; origin := o;
     destination := d; distance := distance G; rotate := rotate G |}.

Definition store_with_nodes (l : list NodeObj) (s : Store) : Store :=
  {| nodes := l; segs := segs s; mousemove := mousemove s |}.

Definition store_with_segs (l : list SegmentObj) (s : Store) : Store :=
  {| nodes := nodes s; segs := l; mousemove := mousemove s |}.

Definition store_with_mousemove (l : list nat) (s : Store) : Store :=
  {| nodes := nodes s; segs := segs s; mousemove := l |}.

(** ** Methods as store transformers

    A call returns a value and a store, or throws a TypeError and leaves
    the store as it was when the throw happened. *)

Inductive Outcome (A : Type) : Type :=
  | Ok (a : A) (s : Store)
  | Throw (s : Store).
Arguments Ok {A} a s.
Arguments Throw {A} s.

Definition M (A : Type) : Type := Store -> Outcome A.

Definition ret {A} (a : A) : M A := fun s => Ok a s.

Definition bind {A B} (m : M A) (k : A -> M B) : M B :=
  fun s => match m s with
           | Ok a s' => k a s'
           | Throw s' => Throw s'
           end.

Definition throw {A} : M A := fun s => Throw s.

Notation "x <- m ;; k" := (bind m (fun x => k))
  (at level 100, m at next level, right associativity).
Notation "m ;;; k" := (bind m (fun _ => k))
  (at level 100, right associativity).

(** Reading a property of a value that may be [null] or [undefined]. *)
Definition deref {A} (v : option A) : M A :=
  match v with Some a => ret a | None => throw end.

Definition get_node (n : nat) : M NodeObj := fun s => deref (nodes s !! n) s.

Definition get_segment (sg : nat) : M SegmentObj := fun s => deref (segs s !! sg) s.

Definition put_node (n : nat) (N : NodeObj) : M unit :=
  fun s => Ok tt (store_with_nodes (<[n := N]> (nodes s)) s).

Definition put_segment (sg : nat) (G : SegmentObj) : M unit :=
  fun s => Ok tt (store_with_segs (<[sg := G]> (segs s)) s).

(** The Particle part of an object, read and written through its kind. *)
Definition get_particle (this : obj) : M ParticleObj :=
  match this with
  | ONode n => N <- get_node n ;; ret (node_particle N)
  | OSegment sg => G <- get_segment sg ;; ret (seg_particle G)
  end.

Definition put_particle (this : obj) (p : ParticleObj) : M unit :=
  match this with
  | ONode n => N <- get_node n ;; put_node n (node_with_particle p N)
  | OSegment sg => G <- get_segment sg ;; put_segment sg (seg_with_particle p G)
  end.

Definition modify_el (this : obj) (f : Element -> Element) : M unit :=
  p <- get_particle this ;; put_particle this (with_el (f (el p)) p).

Section Model.
Context `{Host}.

(** [(Math.atan2(y, x) * RAD2DEG).toFixed(2)].  When an operand is zero the
    angle is fixed by ECMAScript: the sign of a zero [y] and the sign bit of
    [x] choose between 0, 180 and -180 degrees, and a zero [x] gives 90 or
    -90 degrees. *)
Definition atan2_fixed (ay ax : num) : string :=
  if is_zero ay then
    if signbit ax then (if signbit ay then "-180.00" else "180.00")
    else "0.00"
  else if is_zero ax then
    (if signbit ay then "-90.00" else "90.00")
  else atan2_deg_fixed (value ay) (value ax).

(** [Math.ceil(Math.sqrt(a))]: the root of a zero is that zero, whose
    ceiling is 0; otherwise the value is the host's. *)
Definition ceil_sqrt (a : num) : Z :=
  if is_zero a then 0%Z else sqrt_ceil (value a).

(** What a canvas reports after [raw.width = v] or [raw.height = v]: the
    attribute reflects an unsigned long limited to [0 .. 2^31 - 1], and
    falls back to its default outside that range. *)
Definition canvas_reflect (default : Z) (v : num) : Z :=
  let u := to_uint32 v in
  if (u <=? 2147483647)%Z then u else default.

(** *** Particle *)

(** [$('<div class="' + opts.type + '"></div>')]. *)
Definition new_element (type : string) : Element :=
  {| className := type; dragging := false;
     css_width := None; css_height := None; css_top := None; css_left := None;
     css_transform := None; children := []; attached := false |}.

(** [function Particle(opts)], with [opts.type] already set. *)
Definition Particle (type : string) (opts : Opts) : ParticleObj :=
  let dims :=
    {| dim_w := or_zero (opt_w opts);
       dim_h := or_zero (opt_h opts);
       center := {| pt_x := div (or_zero (opt_w opts)) (Num 2);
                    pt_y := div (or_zero (opt_h opts)) (Num 2) |} |} in
  {| title := opt_title opts;
     dimensions := dims;
     translate := {| pt_x := or_zero (opt_x opts); pt_y := or_zero (opt_y opts) |};
     el := el_css_size (dim_w dims) (dim_h dims) (new_element type) |}.

(** [Particle.prototype.setPosition]. *)
Definition Particle_setPosition (this : obj) : M unit :=
  p <- get_particle this ;;
  modify_el this (el_css_position (pt_y (translate p)) (pt_x (translate p))).

(** [Particle.prototype.attach], given the [onAttach] of the object's kind. *)
Definition Particle_attach (onAttach : M unit) (this : obj) : M unit :=
  onAttach ;;;
  modify_el this (el_set_attached true) ;;;
  Particle_setPosition this.

(** [Particle.prototype.remove], given the [onRemove] of the object's kind. *)
Definition Particle_remove (onRemove : M unit) (this : obj) : M unit :=
  onRemove ;;;
  modify_el this (el_set_attached false).

(** *** Node: construction and the segment list *)

(** The fields [function Node(opts)] sets. *)
Definition Node_init (opts : Opts) : NodeObj :=
  {| node_particle := Particle "node" opts;
     segments := [];
     clickCoords := None |}.

(** [new Node(opts)]: the new object's index is returned. *)
Definition Node (opts : Opts) : M nat :=
  fun s => Ok (length (nodes s)) (store_with_nodes (nodes s ++ [Node_init opts]) s).

(** ['<h4>' + this.title + '</h4>']. *)
Definition title_html (t : option string) : Child :=
  H4 (default "undefined" t).

(** [Node.prototype.onAttach]. *)
Definition Node_onAttach (this : nat) : M unit :=
  N <- get_node this ;;
  modify_el (ONode this) (el_append (title_html (title (node_particle N)))).

(** [Node.prototype.addSegment]. *)
Definition Node_addSegment (this : nat) (segment : nat) : M unit :=
  N <- get_node this ;;
  put_node this (node_with_segments (segments N ++ [segment]) N).

(** [array.splice(i, 1)]. *)
Definition splice1 {A} (i : nat) (l : list A) : list A :=
  take i l ++ drop (S i) l.

(** The loop of [removeSegment] from index [i] on, [rest] being the
    entries of [all] from [i]: at the first [all[i] === segment] the entry
    is spliced out and the loop is left. *)
Fixpoint removeSegment_scan (segment : nat) (all : list nat) (i : nat)
    (rest : list nat) : list nat :=
  match rest with
  | [] => all
  | si :: rest' =>
      if Nat.eqb si segment then splice1 i all
      else removeSegment_scan segment all (S i) rest'
  end.

(** [Node.prototype.removeSegment]. *)
Definition Node_removeSegment (this : nat) (segment : nat) : M unit :=
  N <- get_node this ;;
  put_node this
    (node_with_segments
       (removeSegment_scan segment (segments N) 0 (segments N)) N).

(** *** Segment *)

(** The fields [function Segment(opts)] sets before it registers the new
    object with its endpoints. *)
Definition Segment_init (opts : Opts) : SegmentObj :=
  let p := Particle "segment" opts in
  let e := el_append CanvasEndpoint
             (el_css_size (dim_w (dimensions p)) (dim_h (dimensions p)) (el p)) in
  let rh := canvas_reflect 150 (add (dim_h (dimensions p)) (Num 10)) in
  let rw := canvas_reflect 300
              (ceil (div (add (dim_h (dimensions p)) (Num 10)) (Num sin40))) in
  let cv := {| raw_height := rh; raw_width := rw;
               css_right := add (Num 1) (mul (of_Z rw) (Num (-1)));
               drawn := 0 |} in
  {| seg_particle := with_el e p; canvas := cv;
     origin := opt_origin opts; destination := opt_destination opts;
     distance := None; rotate := None |}.

(** [new Segment(opts)]: the new object's index is returned.  The object
    exists from the start, so a throw at the registration of an endpoint
    leaves it in the store. *)
Definition Segment (opts : Opts) : M nat :=
  fun s =>
    let this := length (segs s) in
    (o <- deref (opt_origin opts) ;;
     Node_addSegment o this ;;;
     d <- deref (opt_destination opts) ;;
     Node_addSegment d this ;;;
     ret this) (store_with_segs (segs s ++ [Segment_init opts]) s).

(** [Segment.prototype.calculateWidth]. *)
Definition Segment_calculateWidth (this : nat) : M num :=
  G <- get_segment this ;;
  dist <- deref (distance G) ;;
  o <- deref (origin G) ;;
  O <- get_node o ;;
  let w := sub (sub (of_Z (ceil_sqrt (add (pow2 (pt_x dist)) (pow2 (pt_y dist)))))
                    (pt_x (center (dimensions (node_particle O)))))
               (of_Z (raw_width (canvas G))) in
  ret (if ltb w (Num 0) then Num 0 else w).

(** [Segment.prototype.calculateRotation]. *)
Definition Segment_calculateRotation (this : nat) : M unit :=
  G <- get_segment this ;;
  o <- deref (origin G) ;;
  O <- get_node o ;;
  let tr :=
    {| pt_x := add (pt_x (translate (node_particle O)))
                   (pt_x (center (dimensions (node_particle O))));
       pt_y := sub (add (pt_y (translate (node_particle O)))
                        (pt_y (center (dimensions (node_particle O)))))
                   (pt_y (center (dimensions (seg_particle G)))) |} in
  put_segment this (seg_with_particle (with_translate tr (seg_particle G)) G) ;;;
  G <- get_segment this ;;
  o <- deref (origin G) ;;
  O <- get_node o ;;
  d <- deref (destination G) ;;
  D <- get_node d ;;
  let dist :=
    {| pt_x := mul (sub (pt_x (translate (node_particle O)))
                        (pt_x (translate (node_particle D)))) (Num (-1));
       pt_y := mul (sub (pt_y (translate (node_particle O)))
                        (pt_y (translate (node_particle D)))) (Num (-1)) |} in
  put_segment this (seg_with_distance dist G) ;;;
  G <- get_segment this ;;
  let r := "rotate(" +:+ atan2_fixed (pt_y dist) (pt_x dist) +:+ "deg)" in
  put_segment this (seg_with_rotate r G) ;;;
  cw <- Segment_calculateWidth this ;;
  modify_el (OSegment this) (el_css_geometry cw r) ;;;
  Particle_setPosition (OSegment this).

(** [Segment.prototype.onAttach]: the arrowhead is drawn, then the geometry
    is computed. *)
Definition Segment_onAttach (this : nat) : M unit :=
  G <- get_segment this ;;
  let cv := canvas G in
  put_segment this
    (seg_with_canvas {| raw_height := raw_height cv; raw_width := raw_width cv;
                        css_right := css_right cv; drawn := 1 + drawn cv |} G) ;;;
  Segment_calculateRotation this.

(** [Segment.prototype.onRemove]. *)
Definition Segment_onRemove (this : nat) : M unit :=
  G <- get_segment this ;;
  o <- deref (origin G) ;;
  Node_removeSegment o this ;;;
  d <- deref (destination G) ;;
  Node_removeSegment d this ;;;
  G <- get_segment this ;;
  put_segment this (seg_with_endpoints None None G).

(** [attach] and [remove] called on a Segment. *)
Definition Segment_attach (this : nat) : M unit :=
  Particle_attach (Segment_onAttach this) (OSegment this).

Definition Segment_remove (this : nat) : M unit :=
  Particle_remove (Segment_onRemove this) (OSegment this).

End Model.

Section NodeMethods.
Context `{Host}.

(** [for (var i = 0; i < l.length; i++) body(l[i])], for a body that
    leaves [l] alone. *)
Fixpoint for_each (l : list nat) (body : nat -> M unit) : M unit :=
  match l with
  | [] => ret tt
  | a :: l' => body a ;;; for_each l' body
  end.

(** [e.offsetX || (e.pageX - this.el.offset().left)] and its [y] twin. *)
Definition click_offset (off : option num) (page el_off : num) : num :=
  match off with
  | Some v => if is_zero v then sub page el_off else v
  | None => sub page el_off
  end.

(** [Node.prototype.onDragStart]: [$(window).on('mousemove', ...)] adds a
    handler after those already bound. *)
Definition Node_onDragStart (this : nat) (e : MouseEvent) : M unit :=
  _ <- get_node this ;;
  (fun s => Ok tt (store_with_mousemove (mousemove s ++ [this]) s)) ;;;
  modify_el (ONode this) (el_set_dragging true) ;;;
  N <- get_node this ;;
  put_node this
    (node_with_clickCoords
       {| pt_x := click_offset (offsetX e) (pageX e) (el_offset_left e);
          pt_y := click_offset (offsetY e) (pageY e) (el_offset_top e) |} N).

(** [Node.prototype.onDrag]. *)
Definition Node_onDrag (this : nat) (e : MouseEvent) : M unit :=
  N <- get_node this ;;
  c <- deref (clickCoords N) ;;
  put_particle (ONode this)
    (with_translate {| pt_x := sub (pageX e) (pt_x c);
                       pt_y := pt_y (translate (node_particle N)) |}
                    (node_particle N)) ;;;
  N <- get_node this ;;
  c <- deref (clickCoords N) ;;
  put_particle (ONode this)
    (with_translate {| pt_x := pt_x (translate (node_particle N));
                       pt_y := sub (pageY e) (pt_y c) |}
                    (node_particle N)) ;;;
  N <- get_node this ;;
  for_each (segments N) Segment_calculateRotation ;;;
  Particle_setPosition (ONode this).

(** [Node.prototype.onDragEnd]: [$(window).off('mousemove')] unbinds every
    [mousemove] handler of [window]. *)
Definition Node_onDragEnd (this : nat) (e : MouseEvent) : M unit :=
  modify_el (ONode this) (el_set_dragging false) ;;;
  (fun s => Ok tt (store_with_mousemove [] s)).

(** The [while] loop of [Node.prototype.onRemove], with the number of
    iterations completed so far; [None] when the fuel runs out. *)
Fixpoint Node_onRemove_loop (fuel : nat) (this : nat) (iterations : nat)
    (s : Store) : option (Outcome nat) :=
  match fuel with
  | O => None
  | S fuel' =>
      match get_node this s with
      | Throw s' => Some (Throw s')
      | Ok N s1 =>
          match segments N with
          | [] => Some (Ok iterations s1)
          | sg :: rest =>
              match (put_node this (node_with_segments rest N) ;;;
                     Segment_remove sg) s1 with
              | Throw s2 => Some (Throw s2)
              | Ok _ s2 =>
                  Node_onRemove_loop fuel' this (S iterations) s2
              end
          end
      end
  end.

(** [Node.prototype.onRemove]: the outcome carries the number of
    iterations of the loop. *)
Definition Node_onRemove (fuel : nat) (this : nat) (s : Store)
    : option (Outcome nat) :=
  Node_onRemove_loop fuel this 0 s.

(** [attach] and [remove] called on a Node. *)
Definition Node_attach (this : nat) : M unit :=
  Particle_attach (Node_onAttach this) (ONode this).

Definition Node_remove (fuel : nat) (this : nat) (s : Store)
    : option (Outcome unit) :=
  match Node_onRemove fuel this s with
  | None => None
  | Some (Throw s') => Some (Throw s')
  | Some (Ok _ s') => Some (Particle_remove (ret tt) (ONode this) s')
  end.

(** *** Events *)

Inductive Event : Type :=
  | MouseDown (n : nat) (e : MouseEvent)
  | MouseMove (e : MouseEvent)
  | MouseUp (n : nat) (e : MouseEvent).

(** The store an outcome leaves behind. *)
Definition outcome_store {A} (r : Outcome A) : Store :=
  match r with Ok _ s => s | Throw s => s end.

(** One event: [mousedown] and [mouseup] reach the handlers bound on the
    Node's element, [mousemove] runs the handlers bound on [window] in the
    order they were bound. *)
Definition dispatch (ev : Event) : M unit :=
  match ev with
  | MouseDown n e => Node_onDragStart n e
  | MouseMove e => fun s => for_each (mousemove s) (fun n => Node_onDrag n e) s
  | MouseUp n e => Node_onDragEnd n e
  end.

(** A sequence of events; an uncaught throw ends the handling of its own
    event only. *)
Fixpoint run_events (evs : list Event) (s : Store) : Store :=
  match evs with
  | [] => s
  | ev :: evs' => run_events evs' (outcome_store (dispatch ev s))
  end.

End NodeMethods.

(** ** The demo page

    [initialize] of the page script: four 50 x 50 Nodes and six Segments of
    height 5, each attached as soon as it is built. *)

Section Demo.
Context `{Host}.

Definition NODE_DIMENSIONS : num * num := (of_Z 50, of_Z 50).

Definition node_opts (t : string) (px py : Z) : Opts :=
  {| opt_w := Some (fst NODE_DIMENSIONS); opt_h := Some (snd NODE_DIMENSIONS);
     opt_x := Some (of_Z px); opt_y := Some (of_Z py);
     opt_title := Some t; opt_origin := None; opt_destination := None |}.

Definition segment_opts (o d : nat) : Opts :=
  {| opt_w := None; opt_h := Some (of_Z 5); opt_x := None; opt_y := None;
     opt_title := None; opt_origin := Some o; opt_destination := Some d |}.

Definition new_node (t : string) (px py : Z) : M nat :=
  n <- Node (node_opts t px py) ;; Node_attach n ;;; ret n.

Definition new_segment (o d : nat) : M nat :=
  sg <- Segment (segment_opts o d) ;; Segment_attach sg ;;; ret sg.

Definition initialize : M unit :=
  nodeA <- new_node "Node A" 100 200 ;;
  nodeB <- new_node "Node B" 200 50 ;;
  nodeC <- new_node "Node C" 300 300 ;;
  nodeD <- new_node "Node D" 350 150 ;;
  _ <- new_segment nodeA nodeB ;;
  _ <- new_segment nodeC nodeA ;;
  _ <- new_segment nodeA nodeD ;;
  _ <- new_segment nodeB nodeD ;;
  _ <- new_segment nodeC nodeD ;;
  _ <- new_segment nodeD nodeC ;;
  ret tt.

End Demo.

(** A host to run the demo on: [Math.sin(40 * DEG2RAD)] to sixteen digits,
    the angles a browser prints for the six displacement vectors of the
    demo page, and the ceiling of the exact square root, which is what a
    browser computes for whole-pixel displacements of the size of a
    screen. *)
Definition demo_atan2 (qy qx : Q) : string :=
  match Qred qy, Qred qx with
  | (-150) # 1, 100 # 1 => "-56.31"
  | (-100) # 1, (-200) # 1 => "-153.43"
  | (-50) # 1, 250 # 1 => "-11.31"
  | 100 # 1, 150 # 1 => "33.69"
  | (-150) # 1, 50 # 1 => "-71.57"
  | 150 # 1, (-50) # 1 => "108.43"
  | _, _ => "0.00"
  end%Q.

#[local] Instance demo_host : Host :=
  {| sin40 := 6427876096865393 # 10000000000000000;
     atan2_deg_fixed := demo_atan2;
     sqrt_ceil := fun q => Z.sqrt_up (Qceiling q) |}.

Definition demo_store : Store :=
  Eval vm_compute in outcome_store (initialize empty_store).

(** Objects of the demo page: Nodes A, B and D, the Segments from A to B
    and from A to D. *)
Definition demo_nodeA : NodeObj :=
  Eval vm_compute in default (Node_init (node_opts "" 0 0)) (nodes demo_store !! 0).

Definition demo_nodeB : NodeObj :=
  Eval vm_compute in default (Node_init (node_opts "" 0 0)) (nodes demo_store !! 1).

Definition demo_nodeD : NodeObj :=
  Eval vm_compute in default (Node_init (node_opts "" 0 0)) (nodes demo_store !! 3).

Definition demo_segAB : SegmentObj :=
  Eval vm_compute in default (Segment_init (segment_opts 0 0)) (segs demo_store !! 0).

Definition demo_segAD : SegmentObj :=
  Eval vm_compute in default (Segment_init (segment_opts 0 0)) (segs demo_store !! 2).

(** A pointer event at page position [(px, py)], over an element whose
    corner is at [(ex, ey)]; [offsetX] and [offsetY] as a browser fills
    them in. *)
Definition mouse_at (px py ex ey : Z) : MouseEvent :=
  {| offsetX := Some (of_Z (px - ex)); offsetY := Some (of_Z (py - ey));
     pageX := of_Z px; pageY := of_Z py;
     el_offset_left := of_Z ex; el_offset_top := of_Z ey |}.

(** The demo page after a pointer-down on Node B, five pixels into its box
    both ways. *)
Definition demo_after_down_on_B : Store :=
  Eval vm_compute in
    outcome_store (Node_onDragStart 1 (mouse_at 205 55 200 50) demo_store).

(** Node B dragged and released, then a pointer-down on Node A. *)
Definition two_drags : list Event :=
  [MouseDown 1 (mouse_at 205 55 200 50);
   MouseMove (mouse_at 210 80 205 75);
   MouseUp 1 (mouse_at 210 80 205 75);
   MouseDown 0 (mouse_at 105 205 100 200)].

(** The demo page after [remove] on its first Segment. *)
Definition demo_after_remove_AB : Store :=
  Eval vm_compute in outcome_store (Segment_remove 0 demo_store).

(** Two Nodes and no Segment. *)
Definition two_nodes_store : Store :=
  Eval vm_compute in
    outcome_store
      ((_ <- new_node "Node A" 100 200 ;; new_node "Node B" 200 50) empty_store).

(** Two Nodes, and a Segment whose constructor was given the first Node as
    origin and no destination. *)
Definition half_built_store : Store :=
  Eval vm_compute in
    outcome_store
      (Segment {| opt_w := None; opt_h := Some (of_Z 5); opt_x := None;
                  opt_y := None; opt_title := None;
                  opt_origin := Some 0; opt_destination := None |}
               two_nodes_store).

(** A Node built with a width of -200 and a Node of the usual size at the
    same place, joined by a Segment, all attached. *)
Definition negative_width_store : Store :=
  Eval vm_compute in
    outcome_store
      ((a <- Node {| opt_w := Some (of_Z (-200)); opt_h := Some (of_Z 50);
                     opt_x := Some (of_Z 100); opt_y := Some (of_Z 100);
                     opt_title := Some "Node A";
                     opt_origin := None; opt_destination := None |} ;;
        Node_attach a ;;;
        b <- new_node "Node B" 100 100 ;;
        new_segment a b) empty_store).

(** One Node and a Segment from it to itself. *)
Definition selfloop_store : Store :=
  Eval vm_compute in
    outcome_store
      ((a <- new_node "Node A" 100 200 ;; new_segment a a) empty_store).

(** Two Nodes at the same place joined by a Segment, built and attached
    as the demo page does. *)
Definition coincident_store : Store :=
  Eval vm_compute in
    outcome_store
      ((a <- new_node "Node A" 100 100 ;;
        b <- new_node "Node B" 100 100 ;;
        new_segment a b) empty_store).

(** ** Vocabulary of the statements *)

(** The list without its first entry equal to [sg]. *)
Fixpoint remove_first (sg : nat) (l : list nat) : list nat :=
  match l with
  | [] => []
  | a :: l' => if Nat.eqb a sg then l' else a :: remove_first sg l'
  end.

(** The store with one Node, or one Segment, changed in place. *)
Definition alter_node (f : NodeObj -> NodeObj) (n : nat) (s : Store) : Store :=
  store_with_nodes (alter f n (nodes s)) s.

Definition alter_seg (f : SegmentObj -> SegmentObj) (sg : nat) (s : Store) : Store :=
  store_with_segs (alter f sg (segs s)) s.

Definition node_map_el (f : Element -> Element) (N : NodeObj) : NodeObj :=
  node_with_particle (with_el (f (el (node_particle N))) (node_particle N)) N.

Definition seg_map_el (f : Element -> Element) (G : SegmentObj) : SegmentObj :=
  seg_with_particle (with_el (f (el (seg_particle G))) (seg_particle G)) G.

(** A Node with one more entry at the end of its list, and with the first
    entry equal to [sg] taken out of it. *)
Definition push_segment (sg : nat) (N : NodeObj) : NodeObj :=
  node_with_segments (segments N ++ [sg]) N.

Definition drop_segment (sg : nat) (N : NodeObj) : NodeObj :=
  node_with_segments (remove_first sg (segments N)) N.

(** A Segment after [remove]: endpoints cleared, element detached. *)
Definition removed_segment (G : SegmentObj) : SegmentObj :=
  seg_map_el (el_set_attached false) (seg_with_endpoints None None G).

(** The store after [remove] on the Segment [sg] whose endpoints are [o]
    and [d]. *)
Definition after_Segment_remove (sg o d : nat) (s : Store) : Store :=
  alter_seg removed_segment sg
    (alter_node (drop_segment sg) d (alter_node (drop_segment sg) o s)).

(** The incident list of Node [n]. *)
Definition segments_of (s : Store) (n : nat) : list nat :=
  match nodes s !! n with Some N => segments N | None => [] end.

(** A Segment whose two endpoints are set and are Nodes of the store. *)
Definition live (s : Store) (sg : nat) : Prop :=
  exists G o d,
    segs s !! sg = Some G /\ origin G = Some o /\ destination G = Some d
    /\ o < length (nodes s) /\ d < length (nodes s).

(** A Segment after [remove]: both endpoints are [null]. *)
Definition removed (s : Store) (sg : nat) : Prop :=
  exists G, segs s !! sg = Some G /\ origin G = None /\ destination G = None.

(** How often Segment [sg] occurs in the list of Node [n]. *)
Definition occurrences (s : Store) (n sg : nat) : nat :=
  count_occ Nat.eq_dec (segments_of s n) sg.

(** The registration of Segments with Nodes is consistent: every listed
    Segment has both endpoints, and a Segment with both endpoints is listed
    by a Node once for each endpoint role the Node has. *)
Definition consistent (s : Store) : Prop :=
  (forall n sg, sg ∈ segments_of s n -> live s sg)
  /\ (forall sg G o d n,
        segs s !! sg = Some G -> origin G = Some o -> destination G = Some d ->
        o < length (nodes s) -> d < length (nodes s) ->
        occurrences s n sg
        = (if decide (o = n) then 1 else 0) + (if decide (d = n) then 1 else 0)).

(** [live] and [consistent] as checks that can be run. *)
Definition liveb (s : Store) (sg : nat) : bool :=
  match segs s !! sg with
  | Some G =>
      match origin G, destination G with
      | Some o, Some d => (o <? length (nodes s)) && (d <? length (nodes s))
      | _, _ => false
      end
  | None => false
  end.

Definition counts_match (s : Store) (sg : nat) : bool :=
  match segs s !! sg with
  | Some G =>
      match origin G, destination G with
      | Some o, Some d =>
          forallb (fun n => occurrences s n sg
                            =? (if decide (o = n) then 1 else 0)
                               + (if decide (d = n) then 1 else 0))
                  (seq 0 (length (nodes s)))
      | _, _ => true
      end
  | None => true
  end.

Definition consistentb (s : Store) : bool :=
  forallb (fun N => forallb (liveb s) (segments N)) (nodes s)
  && forallb (fun sg => negb (liveb s sg) || counts_match s sg)
             (seq 0 (length (segs s))).

(** No Node is lost and no list grows from [s] to [s']. *)
Definition shrinks (s s' : Store) : Prop :=
  length (nodes s') = length (nodes s)
  /\ forall m, length (segments_of s' m) <= length (segments_of s m).

Definition shrinking {A} (m : M A) : Prop :=
  forall s, shrinks s (outcome_store (m s)).

(** Every [mousedown] of the sequence comes when no drag is in progress:
    [down] tells whether one is. *)
Fixpoint well_bracketed (down : bool) (evs : list Event) : bool :=
  match evs with
  | [] => true
  | MouseDown _ _ :: evs' => if down then false else well_bracketed true evs'
  | MouseMove _ :: evs' => well_bracketed down evs'
  | MouseUp _ _ :: evs' => well_bracketed false evs'
  end.

(** The Nodes that [mousedown] and [mouseup] events reach are among the
    first [k] Nodes. *)
Definition targets_below (k : nat) (evs : list Event) : Prop :=
  Forall (fun ev => match ev with
                    | MouseDown n _ | MouseUp n _ => n < k
                    | MouseMove _ => True
                    end) evs.

(** A transformer that leaves the [mousemove] handlers and the number of
    Nodes alone, whether it returns or throws. *)
Definition keeps_listeners {A} (m : M A) : Prop :=
  forall s, mousemove (outcome_store (m s)) = mousemove s
            /\ length (nodes (outcome_store (m s))) = length (nodes s).

(** Node [n] put at position [P], as a drag does. *)
Definition move_node (n : nat) (P : Point) (s : Store) : Store :=
  alter_node (fun N => node_with_particle (with_translate P (node_particle N)) N) n s.

Section Formulas.
Context `{Host}.

(** The geometry of a Segment as the design describes it, from the
    position and centre of the origin, the position of the destination,
    the half-height of the Segment and the width of the arrowhead: the
    anchor is the origin's position plus its centre, moved up by the
    half-height; the displacement is origin minus destination, negated;
    the angle is its [atan2] in degrees with two decimals; the length is
    the ceiling of its norm less the origin's half-width and the
    arrowhead, and not below zero. *)
Definition anchor_of (opos ocenter : Point) (half_height : num) : Point :=
  {| pt_x := add (pt_x opos) (pt_x ocenter);
     pt_y := sub (add (pt_y opos) (pt_y ocenter)) half_height |}.

Definition displacement_of (opos dpos : Point) : Point :=
  {| pt_x := mul (sub (pt_x opos) (pt_x dpos)) (Num (-1));
     pt_y := mul (sub (pt_y opos) (pt_y dpos)) (Num (-1)) |}.

(** The displacement written the direct way, destination minus origin. *)
Definition displacement_direct (opos dpos : Point) : Point :=
  {| pt_x := sub (pt_x dpos) (pt_x opos);
     pt_y := sub (pt_y dpos) (pt_y opos) |}.

Definition rotation_of (disp : Point) : string :=
  "rotate(" +:+ atan2_fixed (pt_y disp) (pt_x disp) +:+ "deg)".

Definition length_of (disp : Point) (half_width : num) (arrow : Z) : num :=
  let l := sub (sub (of_Z (ceil_sqrt (add (pow2 (pt_x disp)) (pow2 (pt_y disp)))))
                    half_width) (of_Z arrow) in
  if ltb l (Num 0) then Num 0 else l.

(** A Segment after its geometry has been recomputed for the origin [O]
    and the destination [D]. *)
Definition recomputed (O D : NodeObj) (G : SegmentObj) : SegmentObj :=
  let tr := anchor_of (translate (node_particle O))
                      (center (dimensions (node_particle O)))
                      (pt_y (center (dimensions (seg_particle G)))) in
  let disp := displacement_of (translate (node_particle O))
                              (translate (node_particle D)) in
  let len := length_of disp (pt_x (center (dimensions (node_particle O))))
                       (raw_width (canvas G)) in
  {| seg_particle :=
       {| title := title (seg_particle G);
          dimensions := dimensions (seg_particle G);
          translate := tr;
          el := el_css_position (pt_y tr) (pt_x tr)
                  (el_css_geometry len (rotation_of disp) (el (seg_particle G))) |};
     canvas := canvas G;
     origin := origin G;
     destination := destination G;
     distance := Some disp;
     rotate := Some (rotation_of disp) |}.

(** The geometry that Segment [sg] holds and shows is the one the formulas
    give for the positions its endpoints have in [s]. *)
Definition up_to_date (s : Store) (sg : nat) : Prop :=
  exists G o d O D,
    segs s !! sg = Some G /\ origin G = Some o /\ destination G = Some d
    /\ nodes s !! o = Some O /\ nodes s !! d = Some D
    /\ let anchor := anchor_of (translate (node_particle O))
                               (center (dimensions (node_particle O)))
                               (pt_y (center (dimensions (seg_particle G)))) in
       let disp := displacement_of (translate (node_particle O))
                                   (translate (node_particle D)) in
       translate (seg_particle G) = anchor
       /\ css_left (el (seg_particle G)) = Some (pt_x anchor)
       /\ css_top (el (seg_particle G)) = Some (pt_y anchor)
       /\ distance G = Some disp
       /\ rotate G = Some (rotation_of disp)
       /\ css_transform (el (seg_particle G)) = Some (rotation_of disp)
       /\ css_width (el (seg_particle G))
          = Some (length_of disp (pt_x (center (dimensions (node_particle O))))
                            (raw_width (canvas G))).

(** A Segment after [attach]: arrowhead drawn once more, geometry
    recomputed, element mounted and positioned. *)
Definition draw_arrowhead (G : SegmentObj) : SegmentObj :=
  seg_with_canvas
    {| raw_height := raw_height (canvas G); raw_width := raw_width (canvas G);
       css_right := css_right (canvas G); drawn := 1 + drawn (canvas G) |} G.

Definition attached_segment (O D : NodeObj) (G : SegmentObj) : SegmentObj :=
  let G2 := recomputed O D (draw_arrowhead G) in
  seg_map_el
    (fun e => el_css_position (pt_y (translate (seg_particle G2)))
                              (pt_x (translate (seg_particle G2)))
                              (el_set_attached true e)) G2.

End Formulas.

(** ** Vocabulary of the further properties *)

(** The two endpoint references of Segment [sg], if it exists. *)
Definition endpoints (s : Store) (sg : nat) : option (option nat * option nat) :=
  (fun G => (origin G, destination G)) <$> segs s !! sg.

(** From [s] to [s'] no object appeared or went away, no Node's list
    changed and no Segment's endpoints changed. *)
Definition same_registration (s s' : Store) : Prop :=
  length (nodes s') = length (nodes s)
  /\ length (segs s') = length (segs s)
  /\ (forall n, segments_of s' n = segments_of s n)
  /\ (forall sg, endpoints s' sg = endpoints s sg).

(** A transformer that keeps the registration, whether it returns or
    throws. *)
Definition stable {A} (m : M A) : Prop :=
  forall s, same_registration s (outcome_store (m s)).

(** Every endpoint reference a Segment holds is a Node of the store. *)
Definition no_dangling (s : Store) : Prop :=
  forall sg G o,
    segs s !! sg = Some G ->
    origin G = Some o \/ destination G = Some o ->
    o < length (nodes s).

(** The registration is consistent and no Segment refers to a Node that
    the store does not have. *)
Definition well_formed (s : Store) : Prop :=
  consistent s /\ no_dangling s.

(** A Segment after the first assignment of [calculateRotation] only: the
    anchor is stored, nothing else has changed yet. *)
Definition anchored (O : NodeObj) (G : SegmentObj) : SegmentObj :=
  seg_with_particle
    (with_translate
       (anchor_of (translate (node_particle O))
                  (center (dimensions (node_particle O)))
                  (pt_y (center (dimensions (seg_particle G)))))
       (seg_particle G)) G.

(** The parts of a Segment that recomputing its geometry leaves alone. *)
Definition same_fixed_parts (G G' : SegmentObj) : Prop :=
  origin G' = origin G /\ destination G' = destination G
  /\ canvas G' = canvas G
  /\ title (seg_particle G') = title (seg_particle G)
  /\ dimensions (seg_particle G') = dimensions (seg_particle G).

(** Node [n] lists a Segment that has no destination, as a constructor
    call that threw at the second registration leaves behind. *)
Definition half_listed (s : Store) (n : nat) : Prop :=
  exists h G, h ∈ segments_of s n /\ segs s !! h = Some G /\ destination G = None.

(** From [s] to [s'] every Node is still there and keeps everything but
    its list. *)
Definition same_node_parts (s s' : Store) : Prop :=
  length (nodes s') = length (nodes s)
  /\ forall m M, nodes s !! m = Some M ->
       exists M', nodes s' !! m = Some M'
                  /\ node_particle M' = node_particle M
                  /\ clickCoords M' = clickCoords M.

Definition keeps_node_parts {A} (m : M A) : Prop :=
  forall s, same_node_parts s (outcome_store (m s)).

(** A Node after [attach]: title appended, element mounted and placed. *)
Definition attached_node (N : NodeObj) : NodeObj :=
  node_map_el
    (fun e => el_css_position (pt_y (translate (node_particle N)))
                              (pt_x (translate (node_particle N)))
                (el_set_attached true
                   (el_append (title_html (title (node_particle N))) e))) N.

(** ** Arithmetic of the number model *)

Lemma Qeq_bool_false (p q : Q) : Qeq_bool p q = false -> ~ (p == q)%Q.
Proof. intros Hb Heq. apply Qeq_bool_iff in Heq. congruence. Qed.

Lemma value_signed (neg : bool) (q : Q) : (value (signed neg q) == q)%Q.
Proof.
  unfold signed. destruct (Qeq_bool q 0) eqn:E.
  - apply Qeq_bool_iff in E. destruct neg; simpl; symmetry; exact E.
  - simpl. apply Qred_correct.
Qed.

Lemma value_add (a b : num) : (value (add a b) == value a + value b)%Q.
Proof.
  destruct a, b; unfold add; try apply value_signed. simpl. reflexivity.
Qed.

Lemma value_sub (a b : num) : (value (sub a b) == value a - value b)%Q.
Proof.
  destruct a, b; unfold sub; try apply value_signed.
  rewrite value_signed. simpl. ring.
Qed.

Lemma value_mul (a b : num) : (value (mul a b) == value a * value b)%Q.
Proof. apply value_signed. Qed.

Lemma value_pow2 (a : num) : (value (pow2 a) == value a * value a)%Q.
Proof. apply value_signed. Qed.

Lemma ltb_true (a b : num) : ltb a b = true <-> (value a < value b)%Q.
Proof.
  unfold ltb. destruct (Qlt_le_dec (value a) (value b)) as [Hl|Hl].
  - tauto.
  - split; [discriminate | intros Hlt; exfalso; revert Hlt; apply Qle_not_lt, Hl].
Qed.

Lemma ltb_false (a b : num) : ltb a b = false <-> (value b <= value a)%Q.
Proof.
  unfold ltb. destruct (Qlt_le_dec (value a) (value b)) as [Hl|Hl].
  - split; [discriminate | intros Hle; exfalso; revert Hl; apply Qle_not_lt, Hle].
  - tauto.
Qed.

(** ** Reasoning about store transformers *)

Arguments add : simpl never.
Arguments sub : simpl never.
Arguments mul : simpl never.
Arguments div : simpl never.
Arguments pow2 : simpl never.
Arguments ceil : simpl never.
Arguments ceil_sqrt : simpl never.
Arguments ltb : simpl never.
Arguments of_Z : simpl never.
Arguments or_zero : simpl never.
Arguments atan2_fixed : simpl never.
Arguments canvas_reflect : simpl never.
Arguments String.append : simpl never.

Lemma bind_Ok {A B} (m : M A) (k : A -> M B) (s s1 : Store) (a : A) :
  m s = Ok a s1 -> bind m k s = k a s1.
Proof. unfold bind. intros ->. reflexivity. Qed.

Lemma bind_Throw {A B} (m : M A) (k : A -> M B) (s s1 : Store) :
  m s = Throw s1 -> bind m k s = Throw s1.
Proof. unfold bind. intros ->. reflexivity. Qed.

Lemma bind_ret {A B} (a : A) (k : A -> M B) (s : Store) :
  bind (ret a) k s = k a s.
Proof. reflexivity. Qed.

Lemma bind_Ok_inv {A B} (m : M A) (k : A -> M B) (s s2 : Store) (b : B) :
  bind m k s = Ok b s2 -> exists a s1, m s = Ok a s1 /\ k a s1 = Ok b s2.
Proof.
  unfold bind. destruct (m s) as [a s1|s1]; [eauto | discriminate].
Qed.

Lemma deref_Ok_inv {A} (v : option A) (s s1 : Store) (a : A) :
  deref v s = Ok a s1 -> v = Some a /\ s1 = s.
Proof.
  destruct v; unfold deref, ret, throw; intros Heq; inversion Heq; auto.
Qed.

Lemma get_node_Ok (n : nat) (N : NodeObj) (s : Store) :
  nodes s !! n = Some N -> get_node n s = Ok N s.
Proof. unfold get_node. intros ->. reflexivity. Qed.

Lemma get_node_Ok_inv (n : nat) (N : NodeObj) (s s1 : Store) :
  get_node n s = Ok N s1 -> nodes s !! n = Some N /\ s1 = s.
Proof. unfold get_node. apply deref_Ok_inv. Qed.

Lemma get_segment_Ok (sg : nat) (G : SegmentObj) (s : Store) :
  segs s !! sg = Some G -> get_segment sg s = Ok G s.
Proof. unfold get_segment. intros ->. reflexivity. Qed.

Lemma get_segment_Ok_inv (sg : nat) (G : SegmentObj) (s s1 : Store) :
  get_segment sg s = Ok G s1 -> segs s !! sg = Some G /\ s1 = s.
Proof. unfold get_segment. apply deref_Ok_inv. Qed.

Lemma get_segment_Throw (sg : nat) (s : Store) :
  segs s !! sg = None -> get_segment sg s = Throw s.
Proof. unfold get_segment. intros ->. reflexivity. Qed.

(** Running a transformer whose parts are known to return. *)
Ltac run :=
  repeat first
    [ erewrite bind_Ok by (first [ apply get_node_Ok | apply get_segment_Ok ]; eassumption)
    | progress cbn [deref ret put_node put_segment nodes segs mousemove
                    store_with_nodes store_with_segs store_with_mousemove] ].

(** Evaluating the lookups of a transformer unfolded into matches, from
    the lookups among the hypotheses. *)
Lemma store_with_segs_twice (l l' : list SegmentObj) (s : Store) :
  store_with_segs l (store_with_segs l' s) = store_with_segs l s.
Proof. reflexivity. Qed.

Lemma store_with_nodes_twice (l l' : list NodeObj) (s : Store) :
  store_with_nodes l (store_with_nodes l' s) = store_with_nodes l s.
Proof. reflexivity. Qed.

Ltac symbolic_step :=
  match goal with
  | |- context [store_with_segs _ (store_with_segs _ _)] =>
      rewrite store_with_segs_twice
  | |- context [store_with_nodes _ (store_with_nodes _ _)] =>
      rewrite store_with_nodes_twice
  | Hk : ?a = Some ?b |- context [?a] => rewrite Hk
  | Hk : ?a = None |- context [?a] => rewrite Hk
  | |- context [<[?i := _]> (<[?i := _]> _)] => rewrite list_insert_insert_eq
  | |- context [<[?i := _]> ?l !! ?i] =>
      rewrite (list_lookup_insert_eq l i) by (rewrite ?length_insert; assumption)
  end.

Ltac symbolic := cbn; repeat (symbolic_step; cbn).

(** Taking apart a transformer that is known to have returned. *)
Ltac unbind H :=
  let a := fresh "a" in
  let s := fresh "s" in
  let H1 := fresh H in
  apply bind_Ok_inv in H as (a & s & H1 & H).

Section ListOfSegments.

Lemma splice1_middle {A} (pre : list A) (a : A) (post : list A) :
  splice1 (length pre) (pre ++ a :: post) = pre ++ post.
Proof.
  unfold splice1. rewrite take_app_length.
  replace (S (length pre)) with (length (pre ++ [a])) by (rewrite length_app; simpl; lia).
  rewrite (cons_middle a pre post), app_assoc, drop_app_length. reflexivity.
Qed.

Lemma removeSegment_scan_remove_first (sg : nat) (rest pre : list nat) :
  removeSegment_scan sg (pre ++ rest) (length pre) rest = pre ++ remove_first sg rest.
Proof.
  revert pre. induction rest as [|a rest IH]; intros pre; simpl.
  - reflexivity.
  - destruct (Nat.eqb a sg).
    + apply splice1_middle.
    + specialize (IH (pre ++ [a])).
      rewrite <- app_assoc, length_app in IH. simpl in IH.
      rewrite Nat.add_1_r in IH. rewrite IH, <- app_assoc. reflexivity.
Qed.

Lemma removeSegment_scan_all (sg : nat) (l : list nat) :
  removeSegment_scan sg l 0 l = remove_first sg l.
Proof. apply (removeSegment_scan_remove_first sg l []). Qed.

Lemma remove_first_absent (sg : nat) (l : list nat) :
  sg ∉ l -> remove_first sg l = l.
Proof.
  induction l as [|a l IH]; simpl; intros Hn; [reflexivity|].
  apply not_elem_of_cons in Hn as [Hne Hn].
  destruct (Nat.eqb_spec a sg); [congruence|]. rewrite IH by assumption. reflexivity.
Qed.

Lemma remove_first_split (sg : nat) (l1 l2 : list nat) :
  sg ∉ l1 -> remove_first sg (l1 ++ sg :: l2) = l1 ++ l2.
Proof.
  induction l1 as [|a l1 IH]; simpl; intros Hn.
  - rewrite Nat.eqb_refl. reflexivity.
  - apply not_elem_of_cons in Hn as [Hne Hn].
    destruct (Nat.eqb_spec a sg); [congruence|]. rewrite IH by assumption. reflexivity.
Qed.

End ListOfSegments.

Section Claims.
Context `{Host}.

Lemma insert_alter_lookup {A} (f : A -> A) (l : list A) (i : nat) (a : A) :
  l !! i = Some a -> <[i := f a]> l = alter f i l.
Proof.
  intros Hl. apply list_eq. intros j. destruct (decide (i = j)) as [<-|Hne].
  - rewrite list_lookup_alter_eq, Hl, list_lookup_insert_eq; [reflexivity|].
    eapply lookup_lt_Some, Hl.
  - rewrite list_lookup_alter_ne, list_lookup_insert_ne by assumption. reflexivity.
Qed.

Lemma modify_node_run (f : NodeObj -> NodeObj) (n : nat) (N : NodeObj) (s : Store) :
  nodes s !! n = Some N ->
  (N <- get_node n ;; put_node n (f N)) s = Ok tt (alter_node f n s).
Proof.
  intros HN. unfold bind, get_node, put_node, alter_node. rewrite HN. cbn.
  rewrite (insert_alter_lookup f) by exact HN. reflexivity.
Qed.

Lemma modify_segment_run (f : SegmentObj -> SegmentObj) (sg : nat)
    (G : SegmentObj) (s : Store) :
  segs s !! sg = Some G ->
  (G <- get_segment sg ;; put_segment sg (f G)) s = Ok tt (alter_seg f sg s).
Proof.
  intros HG. unfold bind, get_segment, put_segment, alter_seg. rewrite HG. cbn.
  rewrite (insert_alter_lookup f) by exact HG. reflexivity.
Qed.

Lemma Node_addSegment_run (s : Store) (n sg : nat) :
  n < length (nodes s) ->
  Node_addSegment n sg s = Ok tt (alter_node (push_segment sg) n s).
Proof.
  intros Hn. apply lookup_lt_is_Some in Hn as [N HN].
  apply (modify_node_run (push_segment sg) n N s HN).
Qed.

Lemma Node_addSegment_Ok_inv (s s' : Store) (n sg : nat) (u : unit) :
  Node_addSegment n sg s = Ok u s' ->
  n < length (nodes s) /\ s' = alter_node (push_segment sg) n s.
Proof.
  intros Hrun. assert (Hn : n < length (nodes s)).
  { unfold Node_addSegment in Hrun. unbind Hrun.
    apply get_node_Ok_inv in Hrun0 as [HN _]. eapply lookup_lt_Some, HN. }
  rewrite Node_addSegment_run in Hrun by exact Hn. inversion Hrun. auto.
Qed.

Lemma Segment_Ok_inv (opts : Opts) (s s' : Store) (sg : nat) :
  Segment opts s = Ok sg s' ->
  exists o d,
    opt_origin opts = Some o /\ opt_destination opts = Some d
    /\ o < length (nodes s) /\ d < length (nodes s)
    /\ sg = length (segs s)
    /\ s' = alter_node (push_segment sg) d
              (alter_node (push_segment sg) o
                 (store_with_segs (segs s ++ [Segment_init opts]) s)).
Proof.
  unfold Segment. intros Hrun.
  unbind Hrun. apply deref_Ok_inv in Hrun0 as [Ho ->].
  unbind Hrun. apply Node_addSegment_Ok_inv in Hrun0 as [Hlo ->].
  unbind Hrun. apply deref_Ok_inv in Hrun0 as [Hd ->].
  unbind Hrun. apply Node_addSegment_Ok_inv in Hrun0 as [Hld ->].
  inversion Hrun; subst. exists a, a1.
  cbn in Hlo, Hld. unfold alter_node in Hld. cbn in Hld. rewrite length_alter in Hld.
  repeat split; assumption.
Qed.

Lemma Segment_run (opts : Opts) (s : Store) (o d : nat) :
  opt_origin opts = Some o -> opt_destination opts = Some d ->
  o < length (nodes s) -> d < length (nodes s) ->
  Segment opts s =
    Ok (length (segs s))
       (alter_node (push_segment (length (segs s))) d
          (alter_node (push_segment (length (segs s))) o
             (store_with_segs (segs s ++ [Segment_init opts]) s))).
Proof.
  intros Ho Hd Hlo Hld. unfold Segment. rewrite Ho, Hd.
  unfold bind at 1. cbn [deref ret].
  erewrite bind_Ok by (apply Node_addSegment_run; exact Hlo).
  unfold bind at 1. cbn [deref ret].
  erewrite bind_Ok; [reflexivity|].
  apply Node_addSegment_run. unfold alter_node. cbn. rewrite length_alter. exact Hld.
Qed.

Lemma Node_removeSegment_run (s : Store) (n sg : nat) (N : NodeObj) :
  nodes s !! n = Some N ->
  Node_removeSegment n sg s =
    Ok tt (store_with_nodes
             (<[n := node_with_segments (remove_first sg (segments N)) N]> (nodes s)) s).
Proof.
  intros HN. unfold Node_removeSegment. run.
  rewrite removeSegment_scan_all. reflexivity.
Qed.

(** C7. [removeSegment] never throws on a Node; it keeps everything but the
    Node's list, drops the first entry that is the given Segment and keeps
    later ones, and changes nothing at all when the Segment is not listed. *)
Theorem removeSegment_first_match_only (s : Store) (n sg : nat) (N : NodeObj) :
  nodes s !! n = Some N ->
  exists N',
    Node_removeSegment n sg s = Ok tt (store_with_nodes (<[n := N']> (nodes s)) s)
    /\ node_particle N' = node_particle N
    /\ clickCoords N' = clickCoords N
    /\ (forall l1 l2, segments N = l1 ++ sg :: l2 -> sg ∉ l1 ->
          segments N' = l1 ++ l2)
    /\ (sg ∉ segments N -> Node_removeSegment n sg s = Ok tt s).
Proof.
  intros HN. exists (node_with_segments (remove_first sg (segments N)) N).
  rewrite (Node_removeSegment_run s n sg N HN).
  repeat split.
  - intros l1 l2 Hl Hn. simpl. rewrite Hl. apply remove_first_split, Hn.
  - intros Hn. rewrite remove_first_absent by exact Hn.
    destruct s as [ns sgs mm], N as [p l c]. simpl in *.
    unfold store_with_nodes, node_with_segments. simpl.
    rewrite list_insert_id by exact HN. reflexivity.
Qed.

Opaque add sub mul div pow2 ceil ceil_sqrt ltb of_Z atan2_fixed String.append.

Lemma Segment_calculateRotation_run (s : Store) (sg o d : nat)
    (G : SegmentObj) (O D : NodeObj) :
  segs s !! sg = Some G -> origin G = Some o -> destination G = Some d ->
  nodes s !! o = Some O -> nodes s !! d = Some D ->
  Segment_calculateRotation sg s =
    Ok tt (store_with_segs (<[sg := recomputed O D G]> (segs s)) s).
Proof.
  intros HG Ho Hd HO HD.
  assert (Hlt : sg < length (segs s)) by (eapply lookup_lt_Some; eassumption).
  unfold Segment_calculateRotation, Segment_calculateWidth, Particle_setPosition,
    modify_el, get_particle, put_particle.
  unfold bind, get_segment, get_node, put_segment, deref, ret.
  symbolic. reflexivity.
Qed.

Transparent add sub mul div pow2 ceil ceil_sqrt ltb of_Z atan2_fixed String.append.

(** C1. After the origin has been moved to [P2], recomputing the geometry
    returns, leaves the Nodes alone, and sets the Segment's anchor (also
    the [left] and [top] of its element), displacement, rotation (also the
    transform of its element) and rendered width to the values the formulas
    give for [P2], the destination's position and the fixed sizes: nothing
    of the Segment's earlier geometry or of the origin's earlier position
    is read. *)
Theorem calculateRotation_pure_geometry (s : Store) (sg o d : nat)
    (G : SegmentObj) (O D : NodeObj) (P2 : Point) :
  segs s !! sg = Some G -> origin G = Some o -> destination G = Some d ->
  nodes s !! o = Some O -> nodes s !! d = Some D ->
  let dpos := if decide (d = o) then P2 else translate (node_particle D) in
  let anchor := anchor_of P2 (center (dimensions (node_particle O)))
                          (pt_y (center (dimensions (seg_particle G)))) in
  let disp := displacement_of P2 dpos in
  let len := length_of disp (pt_x (center (dimensions (node_particle O))))
                       (raw_width (canvas G)) in
  exists s2 G2,
    Segment_calculateRotation sg (move_node o P2 s) = Ok tt s2
    /\ nodes s2 = nodes (move_node o P2 s)
    /\ segs s2 !! sg = Some G2
    /\ translate (seg_particle G2) = anchor
    /\ css_left (el (seg_particle G2)) = Some (pt_x anchor)
    /\ css_top (el (seg_particle G2)) = Some (pt_y anchor)
    /\ distance G2 = Some disp
    /\ rotate G2 = Some (rotation_of disp)
    /\ css_transform (el (seg_particle G2)) = Some (rotation_of disp)
    /\ css_width (el (seg_particle G2)) = Some len.
Proof.
  intros HG Ho Hd HO HD dpos anchor disp len.
  set (O1 := node_with_particle (with_translate P2 (node_particle O)) O).
  assert (HO1 : nodes (move_node o P2 s) !! o = Some O1).
  { unfold move_node, alter_node. cbn. rewrite list_lookup_alter_eq, HO. reflexivity. }
  assert (HD1 : exists D1, nodes (move_node o P2 s) !! d = Some D1
                           /\ translate (node_particle D1) = dpos).
  { subst dpos. destruct (decide (d = o)) as [->|Hne].
    - exists O1. split; [exact HO1 | reflexivity].
    - exists D. split; [|reflexivity].
      unfold move_node, alter_node. cbn.
      rewrite list_lookup_alter_ne by congruence. exact HD. }
  destruct HD1 as (D1 & HD1 & Hdpos).
  assert (Hlt : sg < length (segs s)) by (eapply lookup_lt_Some; eassumption).
  eexists _, (recomputed O1 D1 G).
  split; [apply (Segment_calculateRotation_run _ sg o d G O1 D1); assumption|].
  split; [reflexivity|].
  split; [cbn; apply list_lookup_insert_eq, Hlt|].
  cbn. rewrite Hdpos. repeat split; reflexivity.
Qed.

Lemma value_length_of (disp : Point) (hw : num) (aw : Z) :
  let raw := (inject_Z (ceil_sqrt (add (pow2 (pt_x disp)) (pow2 (pt_y disp))))
              - value hw - inject_Z aw)%Q in
  ((raw < 0 -> value (length_of disp hw aw) == 0)
   /\ (0 <= raw -> value (length_of disp hw aw) == raw)
   /\ 0 <= value (length_of disp hw aw))%Q.
Proof.
  intros raw. unfold length_of.
  set (l := sub (sub (of_Z _) hw) (of_Z aw)).
  assert (Hl : (value l == raw)%Q).
  { subst l raw. rewrite !value_sub. reflexivity. }
  destruct (ltb l (Num 0)) eqn:E.
  - apply ltb_true in E. simpl in E. rewrite Hl in E.
    repeat split; simpl; try reflexivity; try apply Qle_refl.
    intros Hge. exfalso. revert E. apply Qle_not_lt, Hge.
  - apply ltb_false in E. simpl in E. rewrite Hl in E.
    repeat split; try (rewrite Hl; assumption).
    + intros Hlt. exfalso. revert Hlt. apply Qle_not_lt, E.
    + intros _. exact Hl.
Qed.

Opaque add sub mul div pow2 ceil ceil_sqrt ltb of_Z atan2_fixed String.append.

Lemma Segment_calculateWidth_run (s : Store) (sg o : nat) (G : SegmentObj)
    (O : NodeObj) (disp : Point) :
  segs s !! sg = Some G -> distance G = Some disp -> origin G = Some o ->
  nodes s !! o = Some O ->
  Segment_calculateWidth sg s =
    Ok (length_of disp (pt_x (center (dimensions (node_particle O))))
                  (raw_width (canvas G))) s.
Proof.
  intros HG Hdist Ho HO.
  unfold Segment_calculateWidth, bind, get_segment, get_node, deref, ret.
  symbolic. reflexivity.
Qed.

Transparent add sub mul div pow2 ceil ceil_sqrt ltb of_Z atan2_fixed String.append.

Lemma canvas_reflect_nonneg (default : Z) (v : num) :
  (0 <= default)%Z -> (0 <= canvas_reflect default v)%Z.
Proof.
  intros Hd. unfold canvas_reflect, to_uint32.
  set (u := (_ mod 2 ^ 32)%Z).
  assert (0 <= u)%Z by (apply Z.mod_pos_bound; lia).
  destruct (u <=? 2147483647)%Z; assumption.
Qed.

Lemma value_displacement_zero (p q : num) :
  (value p == value q)%Q -> (value (mul (sub p q) (Num (-1))) == 0)%Q.
Proof.
  intros Heq. rewrite value_mul, value_sub, Heq. simpl. ring.
Qed.

Lemma ceil_sqrt_zero (a : num) : (value a == 0)%Q -> ceil_sqrt a = 0%Z.
Proof.
  intros Ha. unfold ceil_sqrt, is_zero.
  apply Qeq_bool_iff in Ha. rewrite Ha. reflexivity.
Qed.

Lemma floored_at_no_distance (v hw aw : Q) :
  ((inject_Z 0 - hw - aw < 0 -> v == 0) ->
   (0 <= inject_Z 0 - hw - aw -> v == inject_Z 0 - hw - aw) ->
   (0 <= hw + aw -> v == 0) /\ (hw + aw < 0 -> v == - (hw + aw)))%Q.
Proof.
  change (inject_Z 0) with 0%Q. intros Hneg Hpos. split; intros Hsum.
  - destruct (Qlt_le_dec (0 - hw - aw) 0) as [Hlt|Hge].
    + apply Hneg, Hlt.
    + rewrite (Hpos Hge). lra.
  - rewrite Hpos by lra. lra.
Qed.

(** C3, as the code has it.  [calculateWidth] returns, without touching
    the store, the number [n - halfWidth - arrowWidth] or 0 when that is
    negative, where [n] is [Math.ceil(Math.sqrt(dx * dx + dy * dy))] as the
    host evaluates it; the result is never negative.  A Segment built by the
    constructor has an arrowhead of non-negative width.  For endpoints at
    the same coordinates the width that [calculateRotation] renders is 0
    when [halfWidth + arrowWidth] is not negative, and is
    [- (halfWidth + arrowWidth)] when it is. *)
Theorem calculateWidth_floored_length (s : Store) (sg o : nat)
    (G : SegmentObj) (O : NodeObj) (disp : Point) :
  segs s !! sg = Some G -> distance G = Some disp -> origin G = Some o ->
  nodes s !! o = Some O ->
  let n := ceil_sqrt (add (pow2 (pt_x disp)) (pow2 (pt_y disp))) in
  let hw := value (pt_x (center (dimensions (node_particle O)))) in
  let aw := raw_width (canvas G) in
  let raw := (inject_Z n - hw - inject_Z aw)%Q in
  exists r,
    Segment_calculateWidth sg s = Ok r s
    /\ ((raw < 0)%Q -> (value r == 0)%Q)
    /\ ((0 <= raw)%Q -> (value r == raw)%Q)
    /\ (0 <= value r)%Q
    /\ (forall opts s0 sg' s', Segment opts s0 = Ok sg' s' ->
          exists G', segs s' !! sg' = Some G' /\ (0 <= raw_width (canvas G'))%Z)
    /\ (forall d D,
          destination G = Some d -> nodes s !! d = Some D ->
          (value (pt_x (translate (node_particle O)))
             == value (pt_x (translate (node_particle D))))%Q ->
          (value (pt_y (translate (node_particle O)))
             == value (pt_y (translate (node_particle D))))%Q ->
          exists s' G' r',
            Segment_calculateRotation sg s = Ok tt s'
            /\ segs s' !! sg = Some G'
            /\ css_width (el (seg_particle G')) = Some r'
            /\ ((0 <= hw + inject_Z aw)%Q -> (value r' == 0)%Q)
            /\ ((hw + inject_Z aw < 0)%Q -> (value r' == - (hw + inject_Z aw))%Q)).
Proof.
  intros HG Hdist Ho HO n hw aw raw.
  eexists. split; [eapply Segment_calculateWidth_run; eassumption|].
  destruct (value_length_of disp (pt_x (center (dimensions (node_particle O))))
              (raw_width (canvas G))) as (Hneg & Hpos & Hnn).
  split; [exact Hneg|]. split; [exact Hpos|]. split; [exact Hnn|]. split.
  - intros opts s0 sg' s' Hnew.
    apply Segment_Ok_inv in Hnew as (o' & d' & _ & _ & _ & _ & -> & ->).
    exists (Segment_init opts). split.
    + cbn. apply list_lookup_middle. reflexivity.
    + cbn. apply canvas_reflect_nonneg. lia.
  - intros d D Hd HD Hx Hy.
    assert (Hlt : sg < length (segs s)) by (eapply lookup_lt_Some; eassumption).
    eexists _, (recomputed O D G), _.
    split; [eapply Segment_calculateRotation_run; eassumption|].
    split; [cbn; apply list_lookup_insert_eq, Hlt|].
    split; [reflexivity|].
    set (dp := displacement_of _ _).
    destruct (value_length_of dp (pt_x (center (dimensions (node_particle O))))
                (raw_width (canvas G))) as (Hneg' & Hpos' & Hnn').
    assert (Hz : ceil_sqrt (add (pow2 (pt_x dp)) (pow2 (pt_y dp))) = 0%Z).
    { apply ceil_sqrt_zero. rewrite value_add, !value_pow2. subst dp. cbn.
      rewrite !value_displacement_zero by assumption. ring. }
    rewrite Hz in Hneg', Hpos'.
    apply floored_at_no_distance; assumption.
Qed.

Lemma modify_el_segment_run (f : Element -> Element) (sg : nat) (s : Store) :
  sg < length (segs s) ->
  modify_el (OSegment sg) f s = Ok tt (alter_seg (seg_map_el f) sg s).
Proof.
  intros Hlt. destruct (lookup_lt_is_Some_2 _ _ Hlt) as [G HG].
  unfold modify_el, get_particle, put_particle, bind, get_segment, put_segment,
    deref, ret, alter_seg.
  symbolic. rewrite <- (insert_alter_lookup (seg_map_el f) _ _ _ HG). reflexivity.
Qed.

Lemma modify_el_node_run (f : Element -> Element) (n : nat) (s : Store) :
  n < length (nodes s) ->
  modify_el (ONode n) f s = Ok tt (alter_node (node_map_el f) n s).
Proof.
  intros Hlt. destruct (lookup_lt_is_Some_2 _ _ Hlt) as [N HN].
  unfold modify_el, get_particle, put_particle, bind, get_node, put_node,
    deref, ret, alter_node.
  symbolic. rewrite <- (insert_alter_lookup (node_map_el f) _ _ _ HN). reflexivity.
Qed.

Lemma Node_removeSegment_alter (s : Store) (n sg : nat) :
  n < length (nodes s) ->
  Node_removeSegment n sg s = Ok tt (alter_node (drop_segment sg) n s).
Proof.
  intros Hn. apply lookup_lt_is_Some in Hn as [N HN].
  unfold Node_removeSegment.
  rewrite <- (modify_node_run (drop_segment sg) n N s HN).
  unfold bind. rewrite (get_node_Ok n N s HN).
  unfold drop_segment. rewrite removeSegment_scan_all. reflexivity.
Qed.

Lemma Node_removeSegment_Ok_inv (s s' : Store) (n sg : nat) (u : unit) :
  Node_removeSegment n sg s = Ok u s' ->
  n < length (nodes s) /\ s' = alter_node (drop_segment sg) n s.
Proof.
  intros Hrun. assert (Hn : n < length (nodes s)).
  { unfold Node_removeSegment in Hrun. unbind Hrun.
    apply get_node_Ok_inv in Hrun0 as [HN _]. eapply lookup_lt_Some, HN. }
  rewrite Node_removeSegment_alter in Hrun by exact Hn. inversion Hrun. auto.
Qed.

Lemma Segment_onRemove_run (s : Store) (sg o d : nat) (G : SegmentObj) :
  segs s !! sg = Some G -> origin G = Some o -> destination G = Some d ->
  o < length (nodes s) -> d < length (nodes s) ->
  Segment_onRemove sg s =
    Ok tt (alter_seg (seg_with_endpoints None None) sg
             (alter_node (drop_segment sg) d (alter_node (drop_segment sg) o s))).
Proof.
  intros HG Ho Hd Hlo Hld. unfold Segment_onRemove.
  rewrite (bind_Ok _ _ _ _ _ (get_segment_Ok sg G s HG)), Ho.
  cbn [deref]. rewrite bind_ret.
  rewrite (bind_Ok _ _ _ _ _ (Node_removeSegment_alter s o sg Hlo)), Hd.
  cbn [deref]. rewrite bind_ret.
  erewrite bind_Ok
    by (apply Node_removeSegment_alter; unfold alter_node; cbn;
        rewrite length_alter; exact Hld).
  rewrite (modify_segment_run (seg_with_endpoints None None) sg G) by exact HG.
  reflexivity.
Qed.

Lemma Segment_remove_run (s : Store) (sg o d : nat) (G : SegmentObj) :
  segs s !! sg = Some G -> origin G = Some o -> destination G = Some d ->
  o < length (nodes s) -> d < length (nodes s) ->
  Segment_remove sg s = Ok tt (after_Segment_remove sg o d s).
Proof.
  intros HG Ho Hd Hlo Hld.
  assert (Hlt : sg < length (segs s)) by (eapply lookup_lt_Some; eassumption).
  unfold Segment_remove, Particle_remove.
  rewrite (bind_Ok _ _ _ _ _ (Segment_onRemove_run s sg o d G HG Ho Hd Hlo Hld)).
  rewrite modify_el_segment_run
    by (unfold alter_seg, alter_node; cbn; rewrite !length_alter; exact Hlt).
  unfold after_Segment_remove, alter_seg, alter_node, removed_segment. cbn.
  rewrite list_alter_alter_eq. reflexivity.
Qed.

Lemma Segment_remove_Ok_inv (s s' : Store) (sg : nat) (u : unit) :
  Segment_remove sg s = Ok u s' ->
  exists G o d,
    segs s !! sg = Some G /\ origin G = Some o /\ destination G = Some d
    /\ o < length (nodes s) /\ d < length (nodes s)
    /\ s' = after_Segment_remove sg o d s.
Proof.
  intros Hrun. pose proof Hrun as Hrun'.
  unfold Segment_remove, Particle_remove, Segment_onRemove in Hrun.
  unbind Hrun. clear Hrun.
  unbind Hrun0. apply get_segment_Ok_inv in Hrun1 as [HG ->].
  unbind Hrun0. apply deref_Ok_inv in Hrun1 as [Ho ->].
  unbind Hrun0. apply Node_removeSegment_Ok_inv in Hrun1 as [Hlo ->].
  unbind Hrun0. apply deref_Ok_inv in Hrun1 as [Hd ->].
  unbind Hrun0. apply Node_removeSegment_Ok_inv in Hrun1 as [Hld ->].
  unfold alter_node in Hld. cbn in Hld. rewrite length_alter in Hld.
  exists a0, a1, a3. repeat split; try assumption.
  rewrite (Segment_remove_run s sg a1 a3 a0) in Hrun' by assumption.
  inversion Hrun'. reflexivity.
Qed.

(** C8. Once [remove] has returned on a Segment, [calculateRotation] on it
    throws, and throws before it has changed anything. *)
Theorem calculateRotation_after_remove_throws (s s' : Store) (sg : nat) :
  Segment_remove sg s = Ok tt s' ->
  Segment_calculateRotation sg s' = Throw s'.
Proof.
  intros Hrun. apply Segment_remove_Ok_inv in Hrun
    as (G & o & d & HG & Ho & Hd & Hlo & Hld & ->).
  assert (HG' : segs (after_Segment_remove sg o d s) !! sg = Some (removed_segment G)).
  { unfold after_Segment_remove, alter_seg, alter_node. cbn.
    rewrite list_lookup_alter_eq, HG. reflexivity. }
  unfold Segment_calculateRotation.
  unfold bind at 1. rewrite (get_segment_Ok _ _ _ HG').
  reflexivity.
Qed.

Opaque add sub mul div pow2 ceil ceil_sqrt ltb of_Z atan2_fixed String.append.

Lemma Segment_attach_run (s : Store) (sg o d : nat)
    (G : SegmentObj) (O D : NodeObj) :
  segs s !! sg = Some G -> origin G = Some o -> destination G = Some d ->
  nodes s !! o = Some O -> nodes s !! d = Some D ->
  Segment_attach sg s =
    Ok tt (store_with_segs (<[sg := attached_segment O D G]> (segs s)) s).
Proof.
  intros HG Ho Hd HO HD.
  assert (Hlt : sg < length (segs s)) by (eapply lookup_lt_Some; eassumption).
  unfold Segment_attach, Particle_attach, Segment_onAttach,
    Segment_calculateRotation, Segment_calculateWidth, Particle_setPosition,
    modify_el, get_particle, put_particle.
  unfold bind, get_segment, get_node, put_segment, deref, ret.
  symbolic. reflexivity.
Qed.

Transparent add sub mul div pow2 ceil ceil_sqrt ltb of_Z atan2_fixed String.append.

Lemma segments_of_lookup (s : Store) (n : nat) (N : NodeObj) :
  nodes s !! n = Some N -> segments_of s n = segments N.
Proof. unfold segments_of. intros ->. reflexivity. Qed.

Lemma segments_of_alter_node (f : NodeObj -> NodeObj) (n m : nat) (s : Store) :
  segments_of (alter_node f n s) m =
    if decide (n = m)
    then match nodes s !! m with Some N => segments (f N) | None => [] end
    else segments_of s m.
Proof.
  unfold segments_of, alter_node. cbn. destruct (decide (n = m)) as [->|Hne].
  - rewrite list_lookup_alter_eq. destruct (nodes s !! m); reflexivity.
  - rewrite list_lookup_alter_ne by exact Hne. reflexivity.
Qed.

(** C5. For two different Nodes with empty lists, the constructor returns
    a new Segment and leaves it as the one entry of each list; [attach] then
    returns and leaves both lists as they are. *)
Theorem Segment_registers_once_each (s : Store) (opts : Opts) (a b : nat) :
  a <> b ->
  a < length (nodes s) -> b < length (nodes s) ->
  segments_of s a = [] -> segments_of s b = [] ->
  opt_origin opts = Some a -> opt_destination opts = Some b ->
  exists sg s1 s2,
    Segment opts s = Ok sg s1
    /\ segments_of s1 a = [sg] /\ segments_of s1 b = [sg]
    /\ Segment_attach sg s1 = Ok tt s2
    /\ segments_of s2 a = [sg] /\ segments_of s2 b = [sg]
    /\ count_occ Nat.eq_dec (segments_of s2 a) sg = 1
    /\ count_occ Nat.eq_dec (segments_of s2 b) sg = 1.
Proof.
  intros Hab Ha Hb Hea Heb Ho Hd.
  destruct (lookup_lt_is_Some_2 _ _ Ha) as [A HA].
  destruct (lookup_lt_is_Some_2 _ _ Hb) as [B HB].
  rewrite (segments_of_lookup s a A HA) in Hea.
  rewrite (segments_of_lookup s b B HB) in Heb.
  set (sg := length (segs s)).
  set (s1 := alter_node (push_segment sg) b
               (alter_node (push_segment sg) a
                  (store_with_segs (segs s ++ [Segment_init opts]) s))).
  assert (Hsa : segments_of s1 a = [sg]).
  { subst s1. rewrite segments_of_alter_node.
    destruct (decide (b = a)) as [|_]; [congruence|].
    rewrite segments_of_alter_node. rewrite decide_True by reflexivity.
    cbn. rewrite HA. cbn. rewrite Hea. reflexivity. }
  assert (Hsb : segments_of s1 b = [sg]).
  { subst s1. rewrite segments_of_alter_node. rewrite decide_True by reflexivity.
    unfold alter_node at 1. cbn. rewrite list_lookup_alter_ne by exact Hab.
    rewrite HB. cbn. rewrite Heb. reflexivity. }
  assert (HA1 : exists A1, nodes s1 !! a = Some A1).
  { apply lookup_lt_is_Some_2. subst s1. unfold alter_node. cbn.
    rewrite !length_alter. exact Ha. }
  assert (HB1 : exists B1, nodes s1 !! b = Some B1).
  { apply lookup_lt_is_Some_2. subst s1. unfold alter_node. cbn.
    rewrite !length_alter. exact Hb. }
  destruct HA1 as [A1 HA1], HB1 as [B1 HB1].
  assert (HG1 : segs s1 !! sg = Some (Segment_init opts)).
  { subst s1 sg. unfold alter_node. cbn. apply list_lookup_middle. reflexivity. }
  exists sg, s1, (store_with_segs (<[sg := attached_segment A1 B1 (Segment_init opts)]> (segs s1)) s1).
  split; [apply Segment_run; assumption|].
  split; [exact Hsa|]. split; [exact Hsb|].
  split; [apply (Segment_attach_run s1 sg a b (Segment_init opts) A1 B1);
          try assumption; reflexivity || (cbn; assumption)|].
  unfold segments_of in *. cbn [nodes store_with_segs].
  rewrite Hsa, Hsb. cbn. destruct (Nat.eq_dec sg sg); [|congruence].
  repeat split; reflexivity.
Qed.

Lemma calculateRotation_step (s : Store) (sg : nat) :
  live s sg ->
  exists s',
    Segment_calculateRotation sg s = Ok tt s'
    /\ nodes s' = nodes s /\ mousemove s' = mousemove s
    /\ length (segs s') = length (segs s)
    /\ up_to_date s' sg
    /\ (forall sg', live s sg' -> live s' sg')
    /\ (forall sg', up_to_date s sg' -> up_to_date s' sg').
Proof.
  intros (G & o & d & HG & Ho & Hd & Hlo & Hld).
  destruct (lookup_lt_is_Some_2 _ _ Hlo) as [O HO].
  destruct (lookup_lt_is_Some_2 _ _ Hld) as [D HD].
  assert (Hlt : sg < length (segs s)) by (eapply lookup_lt_Some; eassumption).
  eexists. split; [eapply Segment_calculateRotation_run; eassumption|].
  cbn [nodes segs mousemove store_with_segs].
  assert (Hup : up_to_date (store_with_segs (<[sg:=recomputed O D G]> (segs s)) s) sg).
  { exists (recomputed O D G), o, d, O, D. cbn [nodes segs store_with_segs].
    rewrite list_lookup_insert_eq by exact Hlt.
    repeat split; assumption || reflexivity. }
  split; [reflexivity|]. split; [reflexivity|].
  split; [apply length_insert|]. split; [exact Hup|]. split.
  - intros sg' (G' & o' & d' & HG' & Ho' & Hd' & Hlo' & Hld').
    destruct (decide (sg = sg')) as [<-|Hne].
    + exists (recomputed O D G), o, d. cbn [nodes segs store_with_segs].
      rewrite list_lookup_insert_eq by exact Hlt. repeat split; assumption.
    + exists G', o', d'. cbn [nodes segs store_with_segs].
      rewrite list_lookup_insert_ne by exact Hne. repeat split; assumption.
  - intros sg' Hup'. destruct (decide (sg = sg')) as [<-|Hne]; [exact Hup|].
    destruct Hup' as (G' & o' & d' & O' & D' & HG' & Hrest).
    exists G', o', d', O', D'. cbn [nodes segs store_with_segs].
    rewrite list_lookup_insert_ne by exact Hne. split; assumption.
Qed.

Lemma for_each_calculateRotation (l : list nat) (s : Store) :
  (forall sg, sg ∈ l -> live s sg) ->
  exists s',
    for_each l Segment_calculateRotation s = Ok tt s'
    /\ nodes s' = nodes s /\ mousemove s' = mousemove s
    /\ length (segs s') = length (segs s)
    /\ (forall sg, sg ∈ l -> up_to_date s' sg)
    /\ (forall sg, live s sg -> live s' sg)
    /\ (forall sg, up_to_date s sg -> up_to_date s' sg).
Proof.
  revert s. induction l as [|a l IH]; intros s Hlive.
  - exists s. cbn. repeat split; try reflexivity; try tauto.
    intros sg Hin. inversion Hin.
  - destruct (calculateRotation_step s a) as (s1 & Hrun & Hn1 & Hm1 & Hl1 & Hup1 & Hlv1 & Hpres1).
    { apply Hlive. left. }
    destruct (IH s1) as (s2 & Hrun2 & Hn2 & Hm2 & Hl2 & Hup2 & Hlv2 & Hpres2).
    { intros sg Hin. apply Hlv1, Hlive. right. exact Hin. }
    exists s2. cbn [for_each]. rewrite (bind_Ok _ _ _ _ _ Hrun).
    split; [exact Hrun2|]. split; [congruence|]. split; [congruence|].
    split; [congruence|]. split; [|split].
    + intros sg Hin. apply elem_of_cons in Hin as [->|Hin].
      * apply Hpres2, Hup1.
      * apply Hup2, Hin.
    + intros sg Hsg. apply Hlv2, Hlv1, Hsg.
    + intros sg Hsg. apply Hpres2, Hpres1, Hsg.
Qed.

Lemma up_to_date_node_el (f : Element -> Element) (n sg : nat) (s : Store) :
  up_to_date s sg -> up_to_date (alter_node (node_map_el f) n s) sg.
Proof.
  intros (G & o & d & O & D & HG & Ho & Hd & HO & HD & Hgeo).
  assert (Hlook : forall m N, nodes s !! m = Some N ->
            exists N', nodes (alter_node (node_map_el f) n s) !! m = Some N'
                       /\ translate (node_particle N') = translate (node_particle N)
                       /\ dimensions (node_particle N') = dimensions (node_particle N)).
  { intros m N HN. unfold alter_node. cbn. destruct (decide (n = m)) as [->|Hne].
    - rewrite list_lookup_alter_eq, HN. eexists. split; [reflexivity|]. split; reflexivity.
    - rewrite list_lookup_alter_ne by exact Hne. eauto. }
  destruct (Hlook o O HO) as (O' & HO' & HtO & HdO).
  destruct (Hlook d D HD) as (D' & HD' & HtD & HdD).
  exists G, o, d, O', D'. rewrite HtO, HtD, HdO.
  repeat split; try assumption; apply Hgeo.
Qed.

Lemma put_particle_node_run (n : nat) (N : NodeObj) (p : ParticleObj) (s : Store) :
  nodes s !! n = Some N ->
  put_particle (ONode n) p s =
    Ok tt (store_with_nodes (<[n := node_with_particle p N]> (nodes s)) s).
Proof.
  intros HN. unfold put_particle, bind, get_node, put_node. rewrite HN. reflexivity.
Qed.

(** C2. On a pointer move at page position [(pageX, pageY)], [onDrag] of a
    Node with recorded click offset [c] whose listed Segments have both
    endpoints returns, leaves the Node at [(pageX - c.x, pageY - c.y)] with
    its element placed there and its list unchanged, and when it returns
    every listed Segment holds and shows the geometry of the formulas for
    the positions of that final store. *)
Theorem onDrag_moves_then_recomputes (s : Store) (n : nat) (N : NodeObj)
    (c : Point) (e : MouseEvent) :
  nodes s !! n = Some N ->
  clickCoords N = Some c ->
  (forall sg, sg ∈ segments N -> live s sg) ->
  exists s' N',
    Node_onDrag n e s = Ok tt s'
    /\ nodes s' !! n = Some N'
    /\ translate (node_particle N')
       = {| pt_x := sub (pageX e) (pt_x c); pt_y := sub (pageY e) (pt_y c) |}
    /\ css_left (el (node_particle N')) = Some (sub (pageX e) (pt_x c))
    /\ css_top (el (node_particle N')) = Some (sub (pageY e) (pt_y c))
    /\ segments N' = segments N
    /\ forall sg, sg ∈ segments N -> up_to_date s' sg.
Proof.
  intros HN Hc Hlive.
  assert (Hlt : n < length (nodes s)) by (eapply lookup_lt_Some; eassumption).
  set (P := {| pt_x := sub (pageX e) (pt_x c); pt_y := sub (pageY e) (pt_y c) |}).
  set (N2 := node_with_particle (with_translate P (node_particle N)) N).
  set (s1 := store_with_nodes (<[n := N2]> (nodes s)) s).
  assert (HN2 : nodes s1 !! n = Some N2).
  { subst s1. cbn. apply list_lookup_insert_eq, Hlt. }
  destruct (for_each_calculateRotation (segments N) s1)
    as (s2 & Hrun & Hn2 & Hm2 & Hl2 & Hup2 & _ & _).
  { intros sg Hin. destruct (Hlive sg Hin) as (G & o & d & HG & Ho & Hd & Hlo & Hld).
    exists G, o, d. subst s1. cbn. rewrite length_insert. repeat split; assumption. }
  assert (Hlt2 : n < length (nodes s2)).
  { rewrite Hn2. subst s1. cbn. rewrite length_insert. exact Hlt. }
  exists (alter_node (node_map_el (el_css_position (pt_y P) (pt_x P))) n s2),
         (node_map_el (el_css_position (pt_y P) (pt_x P)) N2).
  split.
  { unfold Node_onDrag.
    rewrite (bind_Ok _ _ _ _ _ (get_node_Ok n N s HN)), Hc.
    cbn [deref]. rewrite bind_ret.
    rewrite (bind_Ok _ _ _ _ _ (put_particle_node_run n N _ s HN)).
    erewrite bind_Ok by (apply get_node_Ok; cbn; apply list_lookup_insert_eq, Hlt).
    cbn [clickCoords node_with_particle]. rewrite Hc.
    cbn [deref]. rewrite bind_ret.
    erewrite bind_Ok
      by (eapply put_particle_node_run; cbn; apply list_lookup_insert_eq, Hlt).
    cbn [nodes store_with_nodes]. rewrite list_insert_insert_eq.
    erewrite bind_Ok by (apply get_node_Ok; cbn; apply list_lookup_insert_eq, Hlt).
    cbn [segments node_with_particle].
    change (store_with_nodes _ (store_with_nodes _ (store_with_nodes _ s))) with s1.
    rewrite (bind_Ok _ _ _ _ _ Hrun).
    unfold Particle_setPosition.
    assert (HN2' : nodes s2 !! n = Some N2) by (rewrite Hn2; exact HN2).
    unfold get_particle.
    rewrite (bind_Ok _ _ s2 s2 (node_particle N2)).
    2:{ rewrite (bind_Ok _ _ _ _ _ (get_node_Ok n N2 s2 HN2')). reflexivity. }
    apply modify_el_node_run, Hlt2. }
  split.
  { unfold alter_node. cbn. rewrite list_lookup_alter_eq, Hn2, HN2. reflexivity. }
  split; [reflexivity|]. split; [reflexivity|]. split; [reflexivity|].
  split; [reflexivity|].
  intros sg Hin. apply up_to_date_node_el, Hup2, Hin.
Qed.

Lemma signed_proper (n : bool) (p q : Q) : (p == q)%Q -> signed n p = signed n q.
Proof.
  intros Hpq. unfold signed.
  destruct (Qeq_bool p 0) eqn:Ep, (Qeq_bool q 0) eqn:Eq; try reflexivity.
  - apply Qeq_bool_iff in Ep. apply Qeq_bool_false in Eq.
    exfalso. apply Eq. rewrite <- Hpq. exact Ep.
  - apply Qeq_bool_iff in Eq. apply Qeq_bool_false in Ep.
    exfalso. apply Ep. rewrite Hpq. exact Eq.
  - f_equal. apply Qred_complete, Hpq.
Qed.

Lemma signed_nonzero (n m : bool) (p q : Q) :
  ~ (p == 0)%Q -> (p == q)%Q -> signed n p = signed m q.
Proof.
  intros Hp Hpq. unfold signed.
  destruct (Qeq_bool p 0) eqn:Ep; [apply Qeq_bool_iff in Ep; contradiction|].
  destruct (Qeq_bool q 0) eqn:Eq.
  - apply Qeq_bool_iff in Eq. exfalso. apply Hp. rewrite Hpq. exact Eq.
  - f_equal. apply Qred_complete, Hpq.
Qed.

Lemma negated_difference_value (a b : num) :
  (value (mul (sub a b) (Num (-1))) == value (sub b a))%Q.
Proof. rewrite value_mul, !value_sub. simpl. ring. Qed.

Lemma negated_difference_nonzero (a b : num) :
  ~ (value a == value b)%Q -> mul (sub a b) (Num (-1)) = sub b a.
Proof.
  intros Hne. unfold mul.
  assert (Hv : ~ (value (sub a b) * value (Num (-1)) == 0)%Q).
  { rewrite value_sub. simpl. intros Hz. apply Hne.
    assert (Hd : (value a - value b == 0)%Q) by lra. lra. }
  assert (Hs : forall m q, (q == value b - value a)%Q -> sub b a = signed m q).
  { intros m q Hq. destruct b as [|qb], a as [|qa]; unfold sub.
    - exfalso. apply Hne. reflexivity.
    - symmetry. apply signed_nonzero.
      + rewrite Hq. simpl. simpl in Hne. intros Hz. apply Hne. lra.
      + rewrite Hq. simpl. ring.
    - symmetry. apply signed_nonzero.
      + rewrite Hq. simpl. simpl in Hne. intros Hz. apply Hne. lra.
      + rewrite Hq. simpl. ring.
    - symmetry. apply signed_nonzero.
      + rewrite Hq. simpl. simpl in Hne. intros Hz. apply Hne. lra.
      + rewrite Hq. reflexivity. }
  symmetry. apply Hs. rewrite value_sub. simpl. ring.
Qed.

Lemma pow2_proper (a b : num) : (value a == value b)%Q -> pow2 a = pow2 b.
Proof. intros Hab. unfold pow2. apply signed_proper. rewrite Hab. reflexivity. Qed.

Lemma signbit_positive (a : num) : (0 < value a)%Q -> signbit a = false.
Proof.
  destruct a as [|q]; simpl; intros Hpos.
  - exfalso. revert Hpos. apply Qlt_irrefl.
  - destruct (Qlt_le_dec q 0) as [Hneg|_]; [|reflexivity].
    exfalso. lra.
Qed.

Lemma is_zero_true (a : num) : is_zero a = true <-> (value a == 0)%Q.
Proof. unfold is_zero. apply Qeq_bool_iff. Qed.

Lemma is_zero_proper (a b : num) : (value a == value b)%Q -> is_zero a = is_zero b.
Proof.
  intros Hab. destruct (is_zero a) eqn:Ea, (is_zero b) eqn:Eb; try reflexivity.
  - apply is_zero_true in Ea. unfold is_zero in Eb. apply Qeq_bool_false in Eb.
    exfalso. apply Eb. rewrite <- Hab. exact Ea.
  - apply is_zero_true in Eb. unfold is_zero in Ea. apply Qeq_bool_false in Ea.
    exfalso. apply Ea. rewrite Hab. exact Eb.
Qed.

Lemma length_of_displacements (opos dpos : Point) (hw : num) (aw : Z) :
  length_of (displacement_of opos dpos) hw aw
  = length_of (displacement_direct opos dpos) hw aw.
Proof.
  unfold length_of, displacement_of, displacement_direct. cbn [pt_x pt_y].
  rewrite (pow2_proper _ _ (negated_difference_value (pt_x opos) (pt_x dpos))).
  rewrite (pow2_proper _ _ (negated_difference_value (pt_y opos) (pt_y dpos))).
  reflexivity.
Qed.

Lemma rotation_of_displacements (opos dpos : Point) :
  (~ (value (pt_y opos) == value (pt_y dpos))%Q
   \/ (value (pt_x opos) < value (pt_x dpos))%Q) ->
  rotation_of (displacement_of opos dpos)
  = rotation_of (displacement_direct opos dpos).
Proof.
  intros Hcase. unfold rotation_of, displacement_of, displacement_direct.
  cbn [pt_x pt_y]. f_equal. f_equal.
  destruct (Qeq_dec (value (pt_y opos)) (value (pt_y dpos))) as [Hy|Hy].
  - destruct Hcase as [Hny|Hx]; [contradiction|].
    rewrite (negated_difference_nonzero (pt_x opos) (pt_x dpos)) by lra.
    unfold atan2_fixed.
    assert (Hz1 : is_zero (mul (sub (pt_y opos) (pt_y dpos)) (Num (-1))) = true).
    { apply is_zero_true. rewrite value_mul, value_sub. simpl. lra. }
    assert (Hz2 : is_zero (sub (pt_y dpos) (pt_y opos)) = true).
    { apply is_zero_true. rewrite value_sub. lra. }
    rewrite Hz1, Hz2, signbit_positive; [reflexivity|].
    rewrite value_sub. lra.
  - rewrite (negated_difference_nonzero (pt_y opos) (pt_y dpos)) by exact Hy.
    unfold atan2_fixed.
    destruct (is_zero (sub (pt_y dpos) (pt_y opos))) eqn:Ez.
    { apply is_zero_true in Ez. rewrite value_sub in Ez. exfalso. apply Hy. lra. }
    assert (Hzx : is_zero (mul (sub (pt_x opos) (pt_x dpos)) (Num (-1)))
                  = is_zero (sub (pt_x dpos) (pt_x opos))).
    { apply is_zero_proper, negated_difference_value. }
    rewrite Hzx. destruct (is_zero (sub (pt_x dpos) (pt_x opos))) eqn:Ezx; [reflexivity|].
    rewrite (negated_difference_nonzero (pt_x opos) (pt_x dpos)); [reflexivity|].
    intros Hx. unfold is_zero in Ezx. apply Qeq_bool_false in Ezx. apply Ezx.
    rewrite value_sub. lra.
Qed.

(** C6, as the code has it.  Recomputing the geometry stores a
    displacement that is [===] to destination minus origin in both
    components, and the rendered width is the one the direct formula gives.
    The rotation is the one the direct formula gives when the endpoints
    differ in [y], or when the destination is strictly to the right of the
    origin. *)
Theorem displacement_negated_equals_direct (s : Store) (sg o d : nat)
    (G : SegmentObj) (O D : NodeObj) :
  segs s !! sg = Some G -> origin G = Some o -> destination G = Some d ->
  nodes s !! o = Some O -> nodes s !! d = Some D ->
  let opos := translate (node_particle O) in
  let dpos := translate (node_particle D) in
  let direct := displacement_direct opos dpos in
  exists s' G' disp,
    Segment_calculateRotation sg s = Ok tt s'
    /\ segs s' !! sg = Some G'
    /\ distance G' = Some disp
    /\ strict_eq (pt_x disp) (pt_x direct) = true
    /\ strict_eq (pt_y disp) (pt_y direct) = true
    /\ css_width (el (seg_particle G'))
       = Some (length_of direct (pt_x (center (dimensions (node_particle O))))
                         (raw_width (canvas G)))
    /\ (~ (value (pt_y opos) == value (pt_y dpos))%Q
        \/ (value (pt_x opos) < value (pt_x dpos))%Q ->
        rotate G' = Some (rotation_of direct)
        /\ css_transform (el (seg_particle G')) = Some (rotation_of direct)).
Proof.
  intros HG Ho Hd HO HD opos dpos direct.
  assert (Hlt : sg < length (segs s)) by (eapply lookup_lt_Some; eassumption).
  exists (store_with_segs (<[sg := recomputed O D G]> (segs s)) s),
         (recomputed O D G), (displacement_of opos dpos).
  split; [eapply Segment_calculateRotation_run; eassumption|].
  split; [cbn; apply list_lookup_insert_eq, Hlt|].
  split; [reflexivity|].
  split; [apply Qeq_bool_iff, negated_difference_value|].
  split; [apply Qeq_bool_iff, negated_difference_value|].
  split.
  { cbn. f_equal. apply length_of_displacements. }
  intros Hcase. cbn. fold opos dpos.
  rewrite (rotation_of_displacements opos dpos Hcase). split; reflexivity.
Qed.

(** *** Counting entries *)

Lemma count_remove_first (sg x : nat) (l : list nat) :
  count_occ Nat.eq_dec (remove_first sg l) x
  = if decide (x = sg) then pred (count_occ Nat.eq_dec l x)
    else count_occ Nat.eq_dec l x.
Proof.
  induction l as [|a l IH]; cbn [remove_first].
  - destruct (decide (x = sg)); reflexivity.
  - destruct (Nat.eqb_spec a sg) as [->|Hne].
    + cbn [count_occ]. destruct (Nat.eq_dec sg x) as [Heq|Hneq];
        destruct (decide (x = sg)); try congruence; reflexivity.
    + cbn [count_occ]. rewrite IH.
      destruct (Nat.eq_dec a x) as [Heq|Hneq];
        destruct (decide (x = sg)); try congruence; try reflexivity.
  Qed.

Lemma length_remove_first (sg : nat) (l : list nat) :
  length (remove_first sg l) <= length l.
Proof.
  induction l as [|a l IH]; cbn [remove_first]; [lia|].
  destruct (Nat.eqb a sg); cbn [length]; lia.
Qed.

Lemma elem_of_count (x : nat) (l : list nat) :
  x ∈ l <-> 0 < count_occ Nat.eq_dec l x.
Proof. rewrite list_elem_of_In. apply count_occ_In. Qed.

Lemma segments_of_drop (sg n m : nat) (s : Store) :
  segments_of (alter_node (drop_segment sg) n s) m
  = if decide (n = m) then remove_first sg (segments_of s m) else segments_of s m.
Proof.
  rewrite segments_of_alter_node. unfold segments_of.
  destruct (decide (n = m)); [|reflexivity].
  destruct (nodes s !! m); reflexivity.
Qed.

Lemma segments_of_alter_seg (f : SegmentObj -> SegmentObj) (sg m : nat) (s : Store) :
  segments_of (alter_seg f sg s) m = segments_of s m.
Proof. reflexivity. Qed.

Lemma segments_of_after_Segment_remove (sg o d m : nat) (s : Store) :
  segments_of (after_Segment_remove sg o d s) m
  = (if decide (d = m) then remove_first sg else id)
      ((if decide (o = m) then remove_first sg else id) (segments_of s m)).
Proof.
  unfold after_Segment_remove. rewrite segments_of_alter_seg, !segments_of_drop.
  destruct (decide (d = m)), (decide (o = m)); reflexivity.
Qed.

Lemma occurrences_after_Segment_remove (sg o d m x : nat) (s : Store) :
  occurrences (after_Segment_remove sg o d s) m x
  = if decide (x = sg)
    then occurrences s m x - (if decide (o = m) then 1 else 0)
                           - (if decide (d = m) then 1 else 0)
    else occurrences s m x.
Proof.
  unfold occurrences. rewrite segments_of_after_Segment_remove.
  destruct (decide (d = m)), (decide (o = m)); cbn [id];
    rewrite ?count_remove_first; destruct (decide (x = sg)); lia.
Qed.

Lemma length_nodes_after_Segment_remove (sg o d : nat) (s : Store) :
  length (nodes (after_Segment_remove sg o d s)) = length (nodes s).
Proof.
  unfold after_Segment_remove, alter_seg, alter_node. cbn.
  rewrite !length_alter. reflexivity.
Qed.

Lemma segs_after_Segment_remove (sg o d x : nat) (s : Store) :
  segs (after_Segment_remove sg o d s) !! x
  = if decide (sg = x) then removed_segment <$> segs s !! x else segs s !! x.
Proof.
  unfold after_Segment_remove, alter_seg, alter_node. cbn.
  destruct (decide (sg = x)) as [->|Hne].
  - apply list_lookup_alter_eq.
  - apply list_lookup_alter_ne, Hne.
Qed.

(** *** The registration invariant through [remove] *)

Lemma after_Segment_remove_consistent (s : Store) (sg o d : nat) (G : SegmentObj) :
  segs s !! sg = Some G -> origin G = Some o -> destination G = Some d ->
  (forall n x, x <> sg -> x ∈ segments_of s n -> live s x) ->
  (forall x G' o' d' n, x <> sg ->
     segs s !! x = Some G' -> origin G' = Some o' -> destination G' = Some d' ->
     o' < length (nodes s) -> d' < length (nodes s) ->
     occurrences s n x
     = (if decide (o' = n) then 1 else 0) + (if decide (d' = n) then 1 else 0)) ->
  (forall n, occurrences s n sg
             <= (if decide (o = n) then 1 else 0) + (if decide (d = n) then 1 else 0)) ->
  consistent (after_Segment_remove sg o d s).
Proof.
  intros HG Ho Hd Hlisted Hcount Hsg. split.
  - intros n x Hin. apply elem_of_count in Hin. fold (occurrences (after_Segment_remove sg o d s) n x) in Hin.
    rewrite occurrences_after_Segment_remove in Hin.
    destruct (decide (x = sg)) as [->|Hne].
    + specialize (Hsg n). lia.
    + destruct (Hlisted n x Hne) as (G' & o' & d' & HG' & Ho' & Hd' & Hlo' & Hld').
      { apply elem_of_count. exact Hin. }
      exists G', o', d'. rewrite segs_after_Segment_remove, length_nodes_after_Segment_remove.
      rewrite decide_False by congruence. repeat split; assumption.
  - intros x G' o' d' n HG' Ho' Hd' Hlo' Hld'.
    rewrite segs_after_Segment_remove in HG'.
    rewrite length_nodes_after_Segment_remove in Hlo', Hld'.
    rewrite occurrences_after_Segment_remove.
    destruct (decide (sg = x)) as [->|Hne].
    + rewrite HG in HG'. inversion HG'. subst G'. discriminate Ho'.
    + rewrite decide_False by congruence. eapply Hcount; eauto.
Qed.

Lemma removed_after_Segment_remove (s : Store) (sg o d : nat) (G : SegmentObj) :
  segs s !! sg = Some G ->
  removed (after_Segment_remove sg o d s) sg
  /\ forall x, removed s x -> removed (after_Segment_remove sg o d s) x.
Proof.
  intros HG. split.
  - exists (removed_segment G). rewrite segs_after_Segment_remove.
    rewrite decide_True by reflexivity. rewrite HG. repeat split; reflexivity.
  - intros x (G' & HG' & Ho' & Hd'). destruct (decide (sg = x)) as [->|Hne].
    + exists (removed_segment G'). rewrite segs_after_Segment_remove.
      rewrite decide_True by reflexivity. rewrite HG'. repeat split; reflexivity.
    + exists G'. rewrite segs_after_Segment_remove.
      rewrite decide_False by exact Hne. repeat split; assumption.
Qed.

(** One iteration of the loop of [Node.prototype.onRemove] on a consistent
    store: [shift], then [remove] on the Segment taken. *)
Lemma onRemove_iteration (s : Store) (n sg : nat) (N : NodeObj) (rest : list nat) :
  consistent s -> nodes s !! n = Some N -> segments N = sg :: rest ->
  exists s2,
    (put_node n (node_with_segments rest N) ;;; Segment_remove sg) s = Ok tt s2
    /\ consistent s2
    /\ length (nodes s2) = length (nodes s)
    /\ removed s2 sg
    /\ (forall x, removed s x -> removed s2 x)
    /\ (forall x, x <> sg -> x ∈ rest -> x ∈ segments_of s2 n)
    /\ length (segments_of s2 n) <= length rest
    /\ (sg ∉ rest -> segments_of s2 n = rest).
Proof.
  intros [Hlisted Hcount] HN Hseg.
  assert (Hn : n < length (nodes s)) by (eapply lookup_lt_Some; eassumption).
  assert (Hsn : segments_of s n = sg :: rest).
  { rewrite (segments_of_lookup s n N HN). exact Hseg. }
  destruct (Hlisted n sg) as (G & o & d & HG & Ho & Hd & Hlo & Hld).
  { rewrite Hsn. left. }
  set (s1 := store_with_nodes (<[n := node_with_segments rest N]> (nodes s)) s).
  assert (Hs1 : forall m, segments_of s1 m = if decide (n = m) then rest else segments_of s m).
  { intros m. unfold segments_of, s1. cbn. destruct (decide (n = m)) as [->|Hne].
    - rewrite list_lookup_insert_eq by exact Hn. reflexivity.
    - rewrite list_lookup_insert_ne by exact Hne. reflexivity. }
  assert (Hocc : forall m x, occurrences s1 m x
            = occurrences s m x - (if decide (n = m /\ x = sg) then 1 else 0)).
  { intros m x. unfold occurrences. rewrite Hs1.
    destruct (decide (n = m)) as [<-|Hne].
    - rewrite Hsn. cbn [count_occ].
      destruct (Nat.eq_dec sg x); destruct (decide (n = n /\ x = sg)) as [[_ ?]|Hno];
        first [lia | congruence | (exfalso; apply Hno; auto)].
    - rewrite decide_False by tauto. lia. }
  assert (Hlen1 : length (nodes s1) = length (nodes s)).
  { unfold s1. cbn. apply length_insert. }
  assert (Hlive1 : forall x, live s x -> live s1 x).
  { intros x (G' & o' & d' & HG' & Hrest). exists G', o', d'.
    rewrite Hlen1. split; assumption. }
  exists (after_Segment_remove sg o d s1).
  split.
  { unfold bind, put_node. fold s1.
    apply (Segment_remove_run s1 sg o d G); try assumption; rewrite Hlen1; assumption. }
  split.
  { apply (after_Segment_remove_consistent s1 sg o d G); try assumption.
    - intros m x Hne Hin. apply Hlive1, (Hlisted m).
      apply elem_of_count. apply elem_of_count in Hin.
      fold (occurrences s1 m x) in Hin. fold (occurrences s m x).
      rewrite Hocc in Hin. lia.
    - intros x G' o' d' m Hne HG' Ho' Hd' Hlo' Hld'.
      rewrite Hocc. rewrite decide_False by tauto. rewrite Nat.sub_0_r.
      rewrite Hlen1 in Hlo', Hld'. eapply Hcount; eauto.
    - intros m. rewrite Hocc.
      rewrite (Hcount sg G o d m HG Ho Hd Hlo Hld). lia. }
  split; [rewrite length_nodes_after_Segment_remove; exact Hlen1|].
  destruct (removed_after_Segment_remove s1 sg o d G HG) as [Hrm Hrmx].
  split; [exact Hrm|]. split; [intros x Hx; apply Hrmx; exact Hx|].
  assert (Hfinal : segments_of (after_Segment_remove sg o d s1) n
            = (if decide (d = n) then remove_first sg else id)
                ((if decide (o = n) then remove_first sg else id) rest)).
  { rewrite segments_of_after_Segment_remove, Hs1.
    destruct (decide (n = n)); [reflexivity | congruence]. }
  split; [|split].
  - intros x Hne Hin. apply elem_of_count.
    fold (occurrences (after_Segment_remove sg o d s1) n x).
    rewrite occurrences_after_Segment_remove, decide_False by exact Hne.
    rewrite Hocc, decide_False by tauto. rewrite Nat.sub_0_r.
    unfold occurrences. rewrite Hsn. cbn [count_occ].
    apply elem_of_count in Hin. destruct (Nat.eq_dec sg x); lia.
  - rewrite Hfinal.
    destruct (decide (d = n)), (decide (o = n)); cbn [id];
      repeat (etransitivity; [apply length_remove_first|]); lia.
  - intros Hnot. rewrite Hfinal.
    destruct (decide (d = n)), (decide (o = n)); cbn [id];
      rewrite ?(remove_first_absent sg rest Hnot); reflexivity.
Qed.

(** *** Lists never grow during [remove] *)

Lemma shrinks_refl (s : Store) : shrinks s s.
Proof. split; [reflexivity | intros m; lia]. Qed.

Lemma shrinks_trans (s1 s2 s3 : Store) :
  shrinks s1 s2 -> shrinks s2 s3 -> shrinks s1 s3.
Proof.
  intros [Hl1 Hs1] [Hl2 Hs2]. split; [congruence|].
  intros m. specialize (Hs1 m). specialize (Hs2 m). lia.
Qed.

Lemma shrinking_bind {A B} (m : M A) (k : A -> M B) :
  shrinking m -> (forall a, shrinking (k a)) -> shrinking (bind m k).
Proof.
  intros Hm Hk s. unfold bind. specialize (Hm s).
  destruct (m s) as [a s1|s1]; cbn in *; [|exact Hm].
  eapply shrinks_trans; [exact Hm | apply Hk].
Qed.

Lemma shrinking_deref {A} (v : option A) : shrinking (deref v).
Proof. intros s. destruct v; apply shrinks_refl. Qed.

Lemma shrinking_get_segment (sg : nat) : shrinking (get_segment sg).
Proof. intros s. unfold get_segment. apply shrinking_deref. Qed.

Lemma shrinking_put_segment (sg : nat) (G : SegmentObj) : shrinking (put_segment sg G).
Proof. intros s. split; [reflexivity | intros m; reflexivity]. Qed.

Lemma shrinking_Node_removeSegment (n sg : nat) : shrinking (Node_removeSegment n sg).
Proof.
  intros s. destruct (decide (n < length (nodes s))) as [Hn|Hn].
  - rewrite Node_removeSegment_alter by exact Hn. cbn. split.
    + unfold alter_node. cbn. apply length_alter.
    + intros m. rewrite segments_of_drop.
      destruct (decide (n = m)); [apply length_remove_first | lia].
  - unfold Node_removeSegment, bind, get_node.
    rewrite (lookup_ge_None_2 (nodes s) n) by lia. apply shrinks_refl.
Qed.

Lemma shrinking_Segment_remove (sg : nat) : shrinking (Segment_remove sg).
Proof.
  unfold Segment_remove, Particle_remove, Segment_onRemove, modify_el,
    get_particle, put_particle.
  repeat first
    [ apply shrinking_Node_removeSegment
    | apply shrinking_get_segment
    | apply shrinking_put_segment
    | apply shrinking_deref
    | apply shrinking_bind; [|intros ?]
    | intros ?; apply shrinks_refl ].
Qed.

Lemma onRemove_loop_done (fuel n i : nat) (s : Store) (N : NodeObj) :
  nodes s !! n = Some N -> segments N = [] ->
  Node_onRemove_loop (S fuel) n i s = Some (Ok i s).
Proof.
  intros HN Hseg. cbn [Node_onRemove_loop]. unfold get_node. rewrite HN.
  cbn [deref ret]. rewrite Hseg. reflexivity.
Qed.

Lemma onRemove_loop_step (fuel n i : nat) (s : Store) (N : NodeObj)
    (sg : nat) (rest : list nat) :
  nodes s !! n = Some N -> segments N = sg :: rest ->
  Node_onRemove_loop (S fuel) n i s
  = match (put_node n (node_with_segments rest N) ;;; Segment_remove sg) s with
    | Throw s2 => Some (Throw s2)
    | Ok _ s2 => Node_onRemove_loop fuel n (S i) s2
    end.
Proof.
  intros HN Hseg. cbn [Node_onRemove_loop]. unfold get_node. rewrite HN.
  cbn [deref ret]. rewrite Hseg. reflexivity.
Qed.

Lemma onRemove_loop_no_node (fuel n i : nat) (s : Store) :
  nodes s !! n = None -> Node_onRemove_loop (S fuel) n i s = Some (Throw s).
Proof.
  intros HN. cbn [Node_onRemove_loop]. unfold get_node. rewrite HN. reflexivity.
Qed.

(** The loop of [onRemove] ends once the fuel exceeds the length of the
    list, with an outcome that no longer depends on the fuel, after at most
    one iteration per entry. *)
Lemma onRemove_loop_terminates (n k : nat) :
  forall (s : Store) (i : nat),
    length (segments_of s n) <= k ->
    exists r,
      (forall fuel, k < fuel -> Node_onRemove_loop fuel n i s = Some r)
      /\ (forall j s', r = Ok j s' -> j <= i + length (segments_of s n)).
Proof.
  induction k as [|k IH]; intros s i Hlen;
    (destruct (nodes s !! n) as [N|] eqn:HN;
     [|exists (Throw s); split; [|discriminate];
       intros [|fuel] Hf; [lia|]; apply onRemove_loop_no_node, HN]);
    pose proof (segments_of_lookup s n N HN) as Hsn;
    (destruct (segments N) as [|sg rest] eqn:Hseg;
     [exists (Ok i s); split;
      [intros [|fuel] Hf; [lia|]; apply (onRemove_loop_done fuel n i s N HN Hseg)
      |intros j s' Heq; inversion Heq; lia]|]).
  - rewrite Hsn in Hlen. cbn in Hlen. lia.
  - set (s1 := store_with_nodes (<[n := node_with_segments rest N]> (nodes s)) s).
    assert (Hn : n < length (nodes s)) by (eapply lookup_lt_Some; eassumption).
    assert (Hs1 : segments_of s1 n = rest).
    { unfold segments_of, s1. cbn.
      rewrite list_lookup_insert_eq by exact Hn. reflexivity. }
    pose proof (shrinking_Segment_remove sg s1) as [_ Hshr].
    specialize (Hshr n). rewrite Hs1 in Hshr.
    rewrite Hsn in Hlen. cbn in Hlen.
    assert (Hstep : forall fuel,
              Node_onRemove_loop (S fuel) n i s
              = match Segment_remove sg s1 with
                | Throw s2 => Some (Throw s2)
                | Ok _ s2 => Node_onRemove_loop fuel n (S i) s2
                end).
    { intros fuel. rewrite (onRemove_loop_step fuel n i s N sg rest HN Hseg).
      reflexivity. }
    destruct (Segment_remove sg s1) as [u s2|s2] eqn:Hrm.
    + cbn in Hshr. destruct (IH s2 (S i)) as (r & Hr & Hj); [lia|].
      exists r. split.
      * intros [|fuel] Hf; [lia|]. rewrite Hstep. apply Hr. lia.
      * intros j s' Heq. specialize (Hj j s' Heq). rewrite Hsn. cbn. lia.
    + exists (Throw s2). split; [|discriminate].
      intros [|fuel] Hf; [lia|]. rewrite Hstep. reflexivity.
Qed.

(** On a consistent store the loop returns, keeps the store consistent,
    empties the list and leaves every Segment it took with null endpoints;
    when no Segment is listed twice it runs once per entry. *)
Lemma onRemove_loop_consistent (n k : nat) :
  forall (s : Store) (i : nat),
    length (segments_of s n) <= k ->
    consistent s -> n < length (nodes s) ->
    exists j s',
      (forall fuel, k < fuel -> Node_onRemove_loop fuel n i s = Some (Ok j s'))
      /\ consistent s'
      /\ length (nodes s') = length (nodes s)
      /\ segments_of s' n = []
      /\ (forall sg, sg ∈ segments_of s n -> removed s' sg)
      /\ (forall sg, removed s sg -> removed s' sg)
      /\ (NoDup (segments_of s n) -> j = i + length (segments_of s n)).
Proof.
  induction k as [|k IH]; intros s i Hlen Hcons Hn;
    destruct (lookup_lt_is_Some_2 _ _ Hn) as [N HN];
    pose proof (segments_of_lookup s n N HN) as Hsn;
    destruct (segments N) as [|sg rest] eqn:Hseg;
    try (rewrite Hsn in Hlen; cbn in Hlen; lia).
  - exists i, s. split.
    { intros [|fuel] Hf; [lia|]. apply (onRemove_loop_done fuel n i s N HN Hseg). }
    rewrite Hsn. split; [exact Hcons|]. split; [reflexivity|]. split; [reflexivity|].
    split; [intros sg Hin; inversion Hin|]. split; [tauto|]. intros _. cbn. lia.
  - exists i, s. split.
    { intros [|fuel] Hf; [lia|]. apply (onRemove_loop_done fuel n i s N HN Hseg). }
    rewrite Hsn. split; [exact Hcons|]. split; [reflexivity|]. split; [reflexivity|].
    split; [intros sg Hin; inversion Hin|]. split; [tauto|]. intros _. cbn. lia.
  - destruct (onRemove_iteration s n sg N rest Hcons HN Hseg)
      as (s2 & Hrun & Hcons2 & Hlen2 & Hrm & Hrmx & Hkeep & Hshort & Hnodup).
    rewrite Hsn in Hlen. cbn in Hlen.
    destruct (IH s2 (S i)) as (j & s' & Hloop & Hcons' & Hlen' & Hempty & Hall & Hpres & Hexact);
      [lia | exact Hcons2 | lia |].
    exists j, s'. split.
    { intros [|fuel] Hf; [lia|].
      rewrite (onRemove_loop_step fuel n i s N sg rest HN Hseg), Hrun.
      apply Hloop. lia. }
    split; [exact Hcons'|]. split; [congruence|]. split; [exact Hempty|].
    split; [|split].
    + intros x Hin. rewrite Hsn in Hin. destruct (decide (x = sg)) as [->|Hne].
      * apply Hpres, Hrm.
      * apply elem_of_cons in Hin as [Heq|Hin]; [contradiction|].
        apply Hall, Hkeep; assumption.
    + intros x Hx. apply Hpres, Hrmx, Hx.
    + rewrite Hsn. intros Hnd. apply NoDup_cons in Hnd as [Hnot Hnd].
      rewrite (Hnodup Hnot) in Hexact. rewrite (Hexact Hnd). cbn. lia.
Qed.

Lemma segments_of_node_map_el (f : Element -> Element) (n m : nat) (s : Store) :
  segments_of (alter_node (node_map_el f) n s) m = segments_of s m.
Proof.
  rewrite segments_of_alter_node. unfold segments_of.
  destruct (decide (n = m)); [|reflexivity].
  destruct (nodes s !! m); reflexivity.
Qed.

Lemma removed_alter_node (f : NodeObj -> NodeObj) (n sg : nat) (s : Store) :
  removed s sg -> removed (alter_node f n s) sg.
Proof. intros Hr. exact Hr. Qed.

(** C4. On a consistent store, [remove] on a Node returns once the fuel
    exceeds the length of its list, and leaves the list empty and every
    Segment that was listed with both endpoints null. *)
Theorem Node_remove_cascades (s : Store) (n fuel : nat) :
  consistent s -> n < length (nodes s) ->
  length (segments_of s n) < fuel ->
  exists s',
    Node_remove fuel n s = Some (Ok tt s')
    /\ segments_of s' n = []
    /\ forall sg, sg ∈ segments_of s n -> removed s' sg.
Proof.
  intros Hcons Hn Hfuel.
  destruct (onRemove_loop_consistent n (length (segments_of s n)) s 0)
    as (j & s1 & Hloop & _ & Hlen1 & Hempty & Hall & _ & _);
    [lia | exact Hcons | exact Hn |].
  exists (alter_node (node_map_el (el_set_attached false)) n s1).
  split; [|split].
  - unfold Node_remove, Node_onRemove. rewrite (Hloop fuel Hfuel).
    unfold Particle_remove. rewrite bind_ret.
    rewrite modify_el_node_run by (rewrite Hlen1; exact Hn). reflexivity.
  - rewrite segments_of_node_map_el. exact Hempty.
  - intros sg Hin. apply removed_alter_node, Hall, Hin.
Qed.

(** *** The [mousemove] handlers of [window] *)

Lemma keeps_listeners_bind {A B} (m : M A) (k : A -> M B) :
  keeps_listeners m -> (forall a, keeps_listeners (k a)) -> keeps_listeners (bind m k).
Proof.
  intros Hm Hk s. unfold bind. specialize (Hm s).
  destruct (m s) as [a s1|s1]; cbn in *; [|exact Hm].
  destruct (Hk a s1) as [Hk1 Hk2]. destruct Hm as [Hm1 Hm2].
  split; congruence.
Qed.

Lemma keeps_listeners_deref {A} (v : option A) : keeps_listeners (deref v).
Proof. intros s. destruct v; split; reflexivity. Qed.

Lemma keeps_listeners_ret {A} (a : A) : keeps_listeners (ret a).
Proof. intros s. split; reflexivity. Qed.

Lemma keeps_listeners_get_node (n : nat) : keeps_listeners (get_node n).
Proof. intros s. unfold get_node. apply keeps_listeners_deref. Qed.

Lemma keeps_listeners_get_segment (sg : nat) : keeps_listeners (get_segment sg).
Proof. intros s. unfold get_segment. apply keeps_listeners_deref. Qed.

Lemma keeps_listeners_put_node (n : nat) (N : NodeObj) : keeps_listeners (put_node n N).
Proof. intros s. split; [reflexivity | cbn; apply length_insert]. Qed.

Lemma keeps_listeners_put_segment (sg : nat) (G : SegmentObj) :
  keeps_listeners (put_segment sg G).
Proof. intros s. split; reflexivity. Qed.

Ltac keeps :=
  repeat first
    [ apply keeps_listeners_get_node
    | apply keeps_listeners_get_segment
    | apply keeps_listeners_put_node
    | apply keeps_listeners_put_segment
    | apply keeps_listeners_deref
    | apply keeps_listeners_ret
    | apply keeps_listeners_bind; [|intros ?] ].

Lemma keeps_listeners_modify_el (this : obj) (f : Element -> Element) :
  keeps_listeners (modify_el this f).
Proof.
  unfold modify_el, get_particle, put_particle. destruct this; keeps.
Qed.

Lemma keeps_listeners_calculateRotation (sg : nat) :
  keeps_listeners (Segment_calculateRotation sg).
Proof.
  unfold Segment_calculateRotation, Segment_calculateWidth, Particle_setPosition,
    get_particle.
  repeat first [ apply keeps_listeners_modify_el | progress keeps ].
Qed.

Lemma keeps_listeners_for_each (l : list nat) (body : nat -> M unit) :
  (forall a, keeps_listeners (body a)) -> keeps_listeners (for_each l body).
Proof.
  intros Hbody. induction l as [|a l IH]; cbn [for_each].
  - apply keeps_listeners_ret.
  - apply keeps_listeners_bind; [apply Hbody | intros _; exact IH].
Qed.

Lemma keeps_listeners_onDrag (n : nat) (e : MouseEvent) :
  keeps_listeners (Node_onDrag n e).
Proof.
  unfold Node_onDrag, Particle_setPosition, put_particle, get_particle.
  repeat first
    [ apply keeps_listeners_modify_el
    | apply keeps_listeners_for_each; intros ?; apply keeps_listeners_calculateRotation
    | progress keeps ].
Qed.

Lemma Node_onDragStart_run (s : Store) (n : nat) (e : MouseEvent) :
  n < length (nodes s) ->
  exists s',
    Node_onDragStart n e s = Ok tt s'
    /\ mousemove s' = mousemove s ++ [n]
    /\ length (nodes s') = length (nodes s).
Proof.
  intros Hn. destruct (lookup_lt_is_Some_2 _ _ Hn) as [N HN].
  unfold Node_onDragStart.
  rewrite (bind_Ok _ _ _ _ _ (get_node_Ok n N s HN)).
  rewrite (bind_Ok _ _ s (store_with_mousemove (mousemove s ++ [n]) s) tt)
    by reflexivity.
  rewrite (bind_Ok _ _ _ _ _
             (modify_el_node_run (el_set_dragging true) n
                (store_with_mousemove (mousemove s ++ [n]) s) Hn)).
  erewrite modify_node_run
    by (unfold alter_node; cbn; rewrite list_lookup_alter_eq, HN; reflexivity).
  eexists. split; [reflexivity|]. unfold alter_node. cbn.
  rewrite !length_alter. split; reflexivity.
Qed.

Lemma Node_onDragEnd_run (s : Store) (n : nat) (e : MouseEvent) :
  n < length (nodes s) ->
  exists s',
    Node_onDragEnd n e s = Ok tt s'
    /\ mousemove s' = []
    /\ length (nodes s') = length (nodes s).
Proof.
  intros Hn. unfold Node_onDragEnd.
  rewrite (bind_Ok _ _ _ _ _ (modify_el_node_run (el_set_dragging false) n _ Hn)).
  eexists. split; [reflexivity|]. unfold alter_node. cbn.
  rewrite length_alter. split; reflexivity.
Qed.

Lemma run_events_listeners (evs : list Event) :
  forall (s : Store) (down : bool),
    well_bracketed down evs = true ->
    targets_below (length (nodes s)) evs ->
    length (mousemove s) <= (if down then 1 else 0) ->
    length (mousemove (run_events evs s)) <= 1.
Proof.
  induction evs as [|ev evs IH]; intros s down Hwb Htg Hlen.
  - cbn. destruct down; lia.
  - apply Forall_cons in Htg as [Hev Htg]. cbn [run_events dispatch].
    destruct ev as [n e|e|n e]; cbn [well_bracketed] in Hwb.
    + destruct down; [discriminate|].
      destruct (Node_onDragStart_run s n e Hev) as (s' & Hrun & Hmm & Hln).
      cbn [dispatch]. rewrite Hrun. cbn [outcome_store].
      apply (IH s' true Hwb); [rewrite Hln; exact Htg|].
      rewrite Hmm, length_app. cbn. lia.
    + cbn [dispatch].
      destruct (keeps_listeners_for_each (mousemove s) (fun n => Node_onDrag n e)
                  (fun n => keeps_listeners_onDrag n e) s) as [Hmm Hln].
      apply (IH _ down Hwb); [rewrite Hln; exact Htg | rewrite Hmm; exact Hlen].
    + destruct (Node_onDragEnd_run s n e Hev) as (s' & Hrun & Hmm & Hln).
      cbn [dispatch]. rewrite Hrun. cbn [outcome_store].
      apply (IH s' false Hwb); [rewrite Hln; exact Htg|].
      rewrite Hmm. cbn. lia.
Qed.

(** C9, as the code has it.  A drag-start adds the Node's handler after the
    [mousemove] handlers already bound on [window] and removes none; a
    drag-end unbinds all of them.  So over a sequence of events in which
    every drag-start comes when no drag is in progress, at most one handler
    is bound at the end. *)
Theorem drag_start_adds_drag_end_clears (s : Store) (evs : list Event) :
  well_bracketed false evs = true ->
  targets_below (length (nodes s)) evs ->
  mousemove s = [] ->
  length (mousemove (run_events evs s)) <= 1
  /\ (forall s0 n e, n < length (nodes s0) ->
        exists s', Node_onDragStart n e s0 = Ok tt s'
                   /\ mousemove s' = mousemove s0 ++ [n])
  /\ (forall s0 n e, n < length (nodes s0) ->
        exists s', Node_onDragEnd n e s0 = Ok tt s' /\ mousemove s' = []).
Proof.
  intros Hwb Htg Hempty. split; [|split].
  - apply (run_events_listeners evs s false Hwb Htg). rewrite Hempty. cbn. lia.
  - intros s0 n e Hn. destruct (Node_onDragStart_run s0 n e Hn) as (s' & Hrun & Hmm & _).
    eauto.
  - intros s0 n e Hn. destruct (Node_onDragEnd_run s0 n e Hn) as (s' & Hrun & Hmm & _).
    eauto.
Qed.

(** *** Running the consistency check *)

Lemma liveb_live (s : Store) (sg : nat) : liveb s sg = true <-> live s sg.
Proof.
  unfold liveb, live. split.
  - destruct (segs s !! sg) as [G|] eqn:HG; [|discriminate].
    destruct (origin G) as [o|] eqn:Ho; [|discriminate].
    destruct (destination G) as [d|] eqn:Hd; [|discriminate].
    intros Hb. apply andb_true_iff in Hb as [Hlo Hld].
    apply Nat.ltb_lt in Hlo, Hld. exists G, o, d. auto.
  - intros (G & o & d & HG & Ho & Hd & Hlo & Hld). rewrite HG, Ho, Hd.
    apply andb_true_iff. split; apply Nat.ltb_lt; assumption.
Qed.

Lemma consistentb_sound (s : Store) : consistentb s = true -> consistent s.
Proof.
  unfold consistentb. intros Hb. apply andb_true_iff in Hb as [Hlist Hcnt].
  rewrite forallb_forall in Hlist, Hcnt. split.
  - intros n sg Hin. unfold segments_of in Hin.
    destruct (nodes s !! n) as [N|] eqn:HN; [|inversion Hin].
    apply liveb_live. specialize (Hlist N).
    rewrite forallb_forall in Hlist. apply Hlist.
    + apply list_elem_of_In. eapply list_elem_of_lookup_2, HN.
    + apply list_elem_of_In, Hin.
  - intros sg G o d n HG Ho Hd Hlo Hld.
    assert (Hsg : sg < length (segs s)) by (eapply lookup_lt_Some; eassumption).
    specialize (Hcnt sg). rewrite in_seq in Hcnt.
    assert (Hlv : liveb s sg = true).
    { apply liveb_live. exists G, o, d. auto. }
    rewrite Hlv in Hcnt. cbn in Hcnt. specialize (Hcnt ltac:(lia)).
    unfold counts_match in Hcnt. rewrite HG, Ho, Hd in Hcnt.
    rewrite forallb_forall in Hcnt.
    destruct (decide (n < length (nodes s))) as [Hn|Hn].
    + apply Nat.eqb_eq, Hcnt, in_seq. lia.
    + unfold occurrences, segments_of.
      rewrite (lookup_ge_None_2 (nodes s) n) by lia. cbn.
      rewrite !decide_False by lia. reflexivity.
Qed.

End Claims.

(** ** The statements on concrete diagrams *)

Lemma initialize_builds_demo_store : initialize empty_store = Ok tt demo_store.
Proof. vm_compute. reflexivity. Qed.

Lemma demo_store_consistent : consistent demo_store.
Proof. apply consistentb_sound. vm_compute. reflexivity. Qed.

(** Node A of the demo page moved to (50, 150), level with Node D: the
    Segment from A to D is anchored at (75, 172.5), is 251 wide and is not
    rotated. *)
Lemma calculateRotation_pure_geometry_witness :
  (segs demo_store !! 2 = Some demo_segAD
   /\ origin demo_segAD = Some 0 /\ destination demo_segAD = Some 3
   /\ nodes demo_store !! 0 = Some demo_nodeA
   /\ nodes demo_store !! 3 = Some demo_nodeD)
  /\ exists s2 G2,
       Segment_calculateRotation 2
         (move_node 0 {| pt_x := of_Z 50; pt_y := of_Z 150 |} demo_store) = Ok tt s2
       /\ segs s2 !! 2 = Some G2
       /\ translate (seg_particle G2) = {| pt_x := Num 75; pt_y := Num (345 # 2) |}
       /\ rotate G2 = Some "rotate(0.00deg)"
       /\ css_width (el (seg_particle G2)) = Some (Num 251).
Proof.
  split; [repeat split; reflexivity|].
  destruct (calculateRotation_pure_geometry demo_store 2 0 3 demo_segAD demo_nodeA
              demo_nodeD {| pt_x := of_Z 50; pt_y := of_Z 150 |}
              eq_refl eq_refl eq_refl eq_refl eq_refl)
    as (s2 & G2 & Hrun & _ & HG2 & Htr & _ & _ & _ & Hrot & _ & Hw).
  exists s2, G2. repeat split; assumption.
Defined.

(** The drag scenario: pointer-down on Node B at offset (5, 5), then a
    pointer move to page position (210, 80), puts B at (205, 75). *)
Lemma onDrag_moves_then_recomputes_witness :
  (nodes demo_after_down_on_B !! 1 = Some
     (node_with_clickCoords {| pt_x := Num 5; pt_y := Num 5 |}
        (node_map_el (el_set_dragging true) demo_nodeB))
   /\ forall sg, sg ∈ [0; 3] -> live demo_after_down_on_B sg)
  /\ exists s' N',
       Node_onDrag 1 (mouse_at 210 80 205 75) demo_after_down_on_B = Ok tt s'
       /\ nodes s' !! 1 = Some N'
       /\ translate (node_particle N') = {| pt_x := Num 205; pt_y := Num 75 |}
       /\ up_to_date s' 0 /\ up_to_date s' 3.
Proof.
  assert (Hlive : forall sg, sg ∈ [0; 3] -> live demo_after_down_on_B sg).
  { intros sg Hin. apply liveb_live.
    repeat (apply elem_of_cons in Hin as [->|Hin]; [reflexivity|]).
    inversion Hin. }
  split; [split; [reflexivity | exact Hlive]|].
  destruct (onDrag_moves_then_recomputes demo_after_down_on_B 1
              (node_with_clickCoords {| pt_x := Num 5; pt_y := Num 5 |}
                 (node_map_el (el_set_dragging true) demo_nodeB))
              {| pt_x := Num 5; pt_y := Num 5 |} (mouse_at 210 80 205 75)
              eq_refl eq_refl Hlive)
    as (s' & N' & Hrun & HN' & Htr & _ & _ & _ & Hup).
  exists s', N'. repeat split; try assumption; apply Hup.
  - left.
  - right. left.
Defined.

(** The Segment from A to D of the demo page: 255 - 25 - 24 = 206. *)
Lemma calculateWidth_floored_length_witness :
  (segs demo_store !! 2 = Some demo_segAD
   /\ distance demo_segAD = Some {| pt_x := Num 250; pt_y := Num (-50) |}
   /\ origin demo_segAD = Some 0
   /\ nodes demo_store !! 0 = Some demo_nodeA)
  /\ exists r, Segment_calculateWidth 2 demo_store = Ok r demo_store
               /\ (value r == 206)%Q.
Proof.
  split; [repeat split; reflexivity|].
  destruct (calculateWidth_floored_length demo_store 2 0 demo_segAD demo_nodeA
              {| pt_x := Num 250; pt_y := Num (-50) |}
              eq_refl eq_refl eq_refl eq_refl)
    as (r & Hrun & _ & Hraw & _).
  exists r. split; [exact Hrun|].
  apply Hraw. vm_compute. discriminate.
Defined.

(** C3: where the claim fails.  An origin Node built with a width of -200
    has a half-width of -100; with the destination at the same coordinates
    the displacement is zero and the code renders a width of
    0 - (-100) - 24 = 76, not 0. *)
Lemma coincident_nodes_render_positive_width :
  exists G O D,
    segs negative_width_store !! 0 = Some G
    /\ origin G = Some 0 /\ destination G = Some 1
    /\ nodes negative_width_store !! 0 = Some O
    /\ nodes negative_width_store !! 1 = Some D
    /\ translate (node_particle O) = translate (node_particle D)
    /\ pt_x (center (dimensions (node_particle O))) = Num (-100)
    /\ raw_width (canvas G) = 24%Z
    /\ Segment_calculateRotation 0 negative_width_store = Ok tt negative_width_store
    /\ Segment_calculateWidth 0 negative_width_store = Ok (Num 76) negative_width_store
    /\ css_width (el (seg_particle G)) = Some (Num 76).
Proof.
  eexists _, _, _.
  do 8 (split; [reflexivity|]).
  split; [vm_compute; reflexivity|].
  split; [vm_compute; reflexivity|].
  reflexivity.
Qed.

(** Removing Node A of the demo page, which lists three Segments. *)
Lemma Node_remove_cascades_witness :
  (consistent demo_store /\ 0 < length (nodes demo_store)
   /\ length (segments_of demo_store 0) < 4)
  /\ exists s',
       Node_remove 4 0 demo_store = Some (Ok tt s')
       /\ segments_of s' 0 = []
       /\ removed s' 0 /\ removed s' 1 /\ removed s' 2.
Proof.
  assert (H0 : 0 < length (nodes demo_store)) by (vm_compute; lia).
  assert (H4 : length (segments_of demo_store 0) < 4) by (vm_compute; lia).
  split; [split; [exact demo_store_consistent | split; assumption]|].
  destruct (Node_remove_cascades demo_store 0 4 demo_store_consistent H0 H4)
    as (s' & Hrun & Hempty & Hall).
  exists s'. repeat split; try assumption; apply Hall.
  - left.
  - right. left.
  - right. right. left.
Defined.

(** A first Segment between two fresh Nodes. *)
Lemma Segment_registers_once_each_witness :
  (0 <> 1 /\ 0 < length (nodes two_nodes_store) /\ 1 < length (nodes two_nodes_store)
   /\ segments_of two_nodes_store 0 = [] /\ segments_of two_nodes_store 1 = [])
  /\ exists s2,
       (sg <- Segment (segment_opts 0 1) ;; Segment_attach sg) two_nodes_store
         = Ok tt s2
       /\ segments_of s2 0 = [0] /\ segments_of s2 1 = [0].
Proof.
  assert (H0 : 0 < length (nodes two_nodes_store)) by (vm_compute; lia).
  assert (H1 : 1 < length (nodes two_nodes_store)) by (vm_compute; lia).
  split; [repeat split; assumption || reflexivity || discriminate|].
  destruct (Segment_registers_once_each two_nodes_store (segment_opts 0 1) 0 1
              ltac:(discriminate) H0 H1 eq_refl eq_refl eq_refl eq_refl)
    as (sg & s1 & s2 & Hnew & Ha1 & Hb1 & Hatt & Ha2 & Hb2 & _ & _).
  exists s2. rewrite (bind_Ok _ _ _ _ _ Hnew).
  assert (Hsg : sg = 0).
  { rewrite (Segment_run (segment_opts 0 1) two_nodes_store 0 1 eq_refl eq_refl H0 H1)
      in Hnew. inversion Hnew. reflexivity. }
  subst sg. repeat split; assumption.
Defined.

(** The Segment from A to D of the demo page, where D is up and to the
    right of A. *)
Lemma displacement_negated_equals_direct_witness :
  (segs demo_store !! 2 = Some demo_segAD
   /\ origin demo_segAD = Some 0 /\ destination demo_segAD = Some 3
   /\ nodes demo_store !! 0 = Some demo_nodeA
   /\ nodes demo_store !! 3 = Some demo_nodeD)
  /\ exists s' G',
       Segment_calculateRotation 2 demo_store = Ok tt s'
       /\ segs s' !! 2 = Some G'
       /\ distance G' = Some {| pt_x := Num 250; pt_y := Num (-50) |}
       /\ rotate G' = Some "rotate(-11.31deg)".
Proof.
  split; [repeat split; reflexivity|].
  destruct (displacement_negated_equals_direct demo_store 2 0 3 demo_segAD
              demo_nodeA demo_nodeD eq_refl eq_refl eq_refl eq_refl eq_refl)
    as (s' & G' & disp & Hrun & HG' & Hdist & _ & _ & _ & Hrot).
  exists s', G'. split; [exact Hrun|]. split; [exact HG'|].
  assert (Hdisp : disp = {| pt_x := Num 250; pt_y := Num (-50) |}).
  { rewrite (Segment_calculateRotation_run demo_store 2 0 3 demo_segAD demo_nodeA
               demo_nodeD eq_refl eq_refl eq_refl eq_refl eq_refl) in Hrun.
    inversion Hrun as [Hs']. rewrite <- Hs' in HG'. cbn in HG'.
    inversion HG' as [HGeq]. rewrite <- HGeq in Hdist. cbn in Hdist.
    inversion Hdist. reflexivity. }
  split; [rewrite Hdist, Hdisp; reflexivity|].
  apply Hrot. left. vm_compute. discriminate.
Defined.

(** Taking the Segment from C to A out of the list of Node A. *)
Lemma removeSegment_first_match_only_witness :
  nodes demo_store !! 0 = Some demo_nodeA
  /\ exists N',
       Node_removeSegment 0 1 demo_store
         = Ok tt (store_with_nodes (<[0 := N']> (nodes demo_store)) demo_store)
       /\ segments N' = [0; 2].
Proof.
  split; [reflexivity|].
  destruct (removeSegment_first_match_only demo_store 0 1 demo_nodeA eq_refl)
    as (N' & Hrun & _ & _ & Hsplit & _).
  exists N'. split; [exact Hrun|].
  apply (Hsplit [0] [2]); [reflexivity|].
  intros Hin. apply elem_of_cons in Hin as [Hin|Hin]; [discriminate | inversion Hin].
Defined.

(** The first Segment of the demo page, removed and then recomputed. *)
Lemma calculateRotation_after_remove_throws_witness :
  Segment_remove 0 demo_store = Ok tt demo_after_remove_AB
  /\ Segment_calculateRotation 0 demo_after_remove_AB = Throw demo_after_remove_AB.
Proof.
  assert (Hrm : Segment_remove 0 demo_store = Ok tt demo_after_remove_AB)
    by (vm_compute; reflexivity).
  split; [exact Hrm|].
  exact (calculateRotation_after_remove_throws demo_store demo_after_remove_AB 0 Hrm).
Defined.

(** A drag of Node B that ends before a drag of Node A starts. *)
Lemma drag_start_adds_drag_end_clears_witness :
  (well_bracketed false two_drags = true
   /\ targets_below (length (nodes demo_store)) two_drags
   /\ mousemove demo_store = [])
  /\ length (mousemove (run_events two_drags demo_store)) <= 1.
Proof.
  assert (Htg : targets_below (length (nodes demo_store)) two_drags).
  { unfold targets_below, two_drags. repeat constructor; vm_compute; lia. }
  split; [split; [reflexivity | split; [exact Htg | reflexivity]]|].
  exact (proj1 (drag_start_adds_drag_end_clears demo_store two_drags
                  eq_refl Htg eq_refl)).
Defined.

(** C6: where the claim fails.  For two Nodes at the same place the code
    stores the displacement (-0, -0) and renders a rotation of -180
    degrees; destination minus origin is (+0, +0), for which the rotation
    is 0 degrees. *)
Lemma negated_displacement_differs_from_direct :
  exists G O D,
    segs coincident_store !! 0 = Some G
    /\ origin G = Some 0 /\ destination G = Some 1
    /\ nodes coincident_store !! 0 = Some O
    /\ nodes coincident_store !! 1 = Some D
    /\ translate (node_particle O) = translate (node_particle D)
    /\ Segment_calculateRotation 0 coincident_store = Ok tt coincident_store
    /\ distance G = Some {| pt_x := NegZero; pt_y := NegZero |}
    /\ rotate G = Some "rotate(-180.00deg)"
    /\ css_transform (el (seg_particle G)) = Some "rotate(-180.00deg)"
    /\ displacement_direct (translate (node_particle O)) (translate (node_particle D))
       = {| pt_x := Num 0; pt_y := Num 0 |}
    /\ rotation_of (displacement_direct (translate (node_particle O))
                                        (translate (node_particle D)))
       = "rotate(0.00deg)".
Proof.
  eexists _, _, _.
  split; [reflexivity|]. split; [reflexivity|]. split; [reflexivity|].
  split; [reflexivity|]. split; [reflexivity|]. split; [reflexivity|].
  split; [vm_compute; reflexivity|].
  repeat split; reflexivity.
Qed.

(** C9: where the claim fails.  A pointer-down on Node A and then one on
    Node B, with no pointer-up between them, leave two handlers bound and
    both Nodes marked as dragging; the next pointer move moves both. *)
Lemma second_drag_start_keeps_first_handler :
  let s := run_events [MouseDown 0 (mouse_at 105 205 100 200);
                       MouseDown 1 (mouse_at 205 55 200 50)] demo_store in
  let s' := run_events [MouseMove (mouse_at 300 300 295 295)] s in
  mousemove s = [0; 1]
  /\ (dragging ∘ el ∘ node_particle) <$> nodes s !! 0 = Some true
  /\ (dragging ∘ el ∘ node_particle) <$> nodes s !! 1 = Some true
  /\ (translate ∘ node_particle) <$> nodes s !! 0
     = Some {| pt_x := Num 100; pt_y := Num 200 |}
  /\ (translate ∘ node_particle) <$> nodes s !! 1
     = Some {| pt_x := Num 200; pt_y := Num 50 |}
  /\ (translate ∘ node_particle) <$> nodes s' !! 0
     = Some {| pt_x := Num 295; pt_y := Num 295 |}
  /\ (translate ∘ node_particle) <$> nodes s' !! 1
     = Some {| pt_x := Num 295; pt_y := Num 295 |}.
Proof. vm_compute. repeat split; reflexivity. Qed.

(** C10: where the claim fails.  A Node whose list holds the same Segment
    twice, as origin and as destination: the list has two entries and the
    loop returns after one iteration, because the Segment's own
    deregistration takes the second entry out. *)
Lemma onRemove_one_iteration_for_two_entries :
  segments_of selfloop_store 0 = [0; 0]
  /\ consistent selfloop_store
  /\ exists s', Node_onRemove 3 0 selfloop_store = Some (Ok 1 s')
                /\ segments_of s' 0 = [].
Proof.
  split; [reflexivity|].
  split; [apply consistentb_sound; vm_compute; reflexivity|].
  eexists. split; vm_compute; reflexivity.
Qed.

(** ** Further properties of the methods *)

Section Further.
Context `{Host}.

Opaque add sub mul div pow2 ceil ceil_sqrt ltb of_Z atan2_fixed String.append.

Lemma recomputed_twice (O D : NodeObj) (G : SegmentObj) :
  recomputed O D (recomputed O D G) = recomputed O D G.
Proof.
  destruct G as [[t dm tr e] c o d di r]. destruct e. reflexivity.
Qed.

Transparent add sub mul div pow2 ceil ceil_sqrt ltb of_Z atan2_fixed String.append.

Lemma recomputed_fixed_parts (O D : NodeObj) (G : SegmentObj) :
  same_fixed_parts G (recomputed O D G).
Proof. repeat split. Qed.

(** X1. Recomputing the geometry of a Segment twice in a row, with no
    Node moved in between, leaves after the second call exactly the store
    the first call left. *)
Theorem calculateRotation_idempotent (s : Store) (sg : nat) :
  live s sg ->
  exists s1,
    Segment_calculateRotation sg s = Ok tt s1
    /\ Segment_calculateRotation sg s1 = Ok tt s1.
Proof.
  intros (G & o & d & HG & Ho & Hd & Hlo & Hld).
  destruct (lookup_lt_is_Some_2 _ _ Hlo) as [O HO].
  destruct (lookup_lt_is_Some_2 _ _ Hld) as [D HD].
  assert (Hlt : sg < length (segs s)) by (eapply lookup_lt_Some; eassumption).
  exists (store_with_segs (<[sg := recomputed O D G]> (segs s)) s).
  split; [eapply Segment_calculateRotation_run; eassumption|].
  rewrite (Segment_calculateRotation_run _ sg o d (recomputed O D G) O D);
    try assumption; try reflexivity.
  - cbn [segs store_with_segs]. rewrite list_insert_insert_eq, recomputed_twice.
    reflexivity.
  - cbn [segs store_with_segs]. apply list_lookup_insert_eq, Hlt.
Qed.

Opaque add sub mul div pow2 ceil ceil_sqrt ltb of_Z atan2_fixed String.append.

(** The three ways [calculateRotation] can end: a throw before anything
    is written, a throw after the anchor has been stored, or a return. *)
Lemma calculateRotation_cases (s : Store) (sg : nat) :
  Segment_calculateRotation sg s = Throw s
  \/ (exists G o O,
        segs s !! sg = Some G /\ origin G = Some o /\ nodes s !! o = Some O
        /\ (destination G = None
            \/ exists d, destination G = Some d /\ nodes s !! d = None)
        /\ Segment_calculateRotation sg s
           = Throw (store_with_segs (<[sg := anchored O G]> (segs s)) s))
  \/ (exists G o d O D,
        segs s !! sg = Some G /\ origin G = Some o /\ destination G = Some d
        /\ nodes s !! o = Some O /\ nodes s !! d = Some D
        /\ Segment_calculateRotation sg s
           = Ok tt (store_with_segs (<[sg := recomputed O D G]> (segs s)) s)).
Proof.
  destruct (segs s !! sg) as [G|] eqn:HG.
  2:{ left. unfold Segment_calculateRotation, bind, get_segment. rewrite HG.
      reflexivity. }
  assert (Hlt : sg < length (segs s)) by (eapply lookup_lt_Some; eassumption).
  destruct (origin G) as [o|] eqn:Ho.
  2:{ left. unfold Segment_calculateRotation, bind, get_segment. rewrite HG.
      cbn. rewrite Ho. reflexivity. }
  destruct (nodes s !! o) as [O|] eqn:HO.
  2:{ left. unfold Segment_calculateRotation, bind, get_segment, get_node.
      rewrite HG. cbn. rewrite Ho. cbn. rewrite HO. reflexivity. }
  destruct (destination G) as [d|] eqn:Hd.
  - destruct (nodes s !! d) as [D|] eqn:HD.
    + right. right. exists G, o, d, O, D. repeat split; try assumption.
      apply (Segment_calculateRotation_run s sg o d G O D); assumption.
    + right. left. exists G, o, O. repeat split; try assumption.
      { right. exists d. split; assumption. }
      unfold Segment_calculateRotation, bind, get_segment, get_node, put_segment,
        deref, ret, throw.
      symbolic. reflexivity.
  - right. left. exists G, o, O. repeat split; try assumption.
    { left. assumption. }
    unfold Segment_calculateRotation, bind, get_segment, get_node, put_segment,
      deref, ret, throw.
    symbolic. reflexivity.
Qed.

Transparent add sub mul div pow2 ceil ceil_sqrt ltb of_Z atan2_fixed String.append.

(** X2. Whether it returns or throws, [calculateRotation] leaves every
    Node, every other Segment and the [mousemove] handlers as they were,
    and keeps the Segment's own endpoints, arrowhead canvas, title and
    size. *)
Theorem calculateRotation_touches_own_geometry_only (s : Store) (sg : nat) :
  let s' := outcome_store (Segment_calculateRotation sg s) in
  nodes s' = nodes s
  /\ mousemove s' = mousemove s
  /\ length (segs s') = length (segs s)
  /\ (forall x, x <> sg -> segs s' !! x = segs s !! x)
  /\ (forall G, segs s !! sg = Some G ->
        exists G', segs s' !! sg = Some G' /\ same_fixed_parts G G').
Proof.
  destruct (calculateRotation_cases s sg)
    as [Hrun | [(G & o & O & HG & Ho & HO & _ & Hrun)
               | (G & o & d & O & D & HG & Ho & Hd & HO & HD & Hrun)]];
    rewrite Hrun; cbn [outcome_store nodes segs mousemove store_with_segs].
  - repeat split; try reflexivity. intros G HG. exists G. repeat split; assumption.
  - assert (Hlt : sg < length (segs s)) by (eapply lookup_lt_Some; eassumption).
    split; [reflexivity|]. split; [reflexivity|]. split; [apply length_insert|].
    split.
    + intros x Hne. apply list_lookup_insert_ne. congruence.
    + intros G0 HG0. rewrite HG in HG0. inversion HG0; subst G0.
      exists (anchored O G). split; [apply list_lookup_insert_eq, Hlt|].
      repeat split.
  - assert (Hlt : sg < length (segs s)) by (eapply lookup_lt_Some; eassumption).
    split; [reflexivity|]. split; [reflexivity|]. split; [apply length_insert|].
    split.
    + intros x Hne. apply list_lookup_insert_ne. congruence.
    + intros G0 HG0. rewrite HG in HG0. inversion HG0; subst G0.
      exists (recomputed O D G). split; [apply list_lookup_insert_eq, Hlt|].
      repeat split.
Qed.

(** X3. A second [remove] on a Segment throws and changes nothing. *)
Theorem Segment_remove_twice_throws (s s' : Store) (sg : nat) :
  Segment_remove sg s = Ok tt s' ->
  Segment_remove sg s' = Throw s'.
Proof.
  intros Hrun. apply Segment_remove_Ok_inv in Hrun
    as (G & o & d & HG & Ho & Hd & Hlo & Hld & ->).
  assert (HG' : segs (after_Segment_remove sg o d s) !! sg = Some (removed_segment G)).
  { rewrite segs_after_Segment_remove, decide_True by reflexivity.
    rewrite HG. reflexivity. }
  unfold Segment_remove, Particle_remove, Segment_onRemove.
  unfold bind at 1 2. rewrite (get_segment_Ok _ _ _ HG'). reflexivity.
Qed.

(** X4. Until the geometry has been computed once the cached displacement
    is undefined: on a Segment fresh from the constructor, not yet
    attached, [calculateWidth] throws and changes nothing. *)
Theorem calculateWidth_before_geometry_throws (opts : Opts) (s s1 : Store) (sg : nat) :
  Segment opts s = Ok sg s1 ->
  Segment_calculateWidth sg s1 = Throw s1.
Proof.
  intros Hnew. apply Segment_Ok_inv in Hnew as (o & d & _ & _ & _ & _ & -> & ->).
  set (s1 := alter_node _ d _).
  assert (HG : segs s1 !! length (segs s) = Some (Segment_init opts)).
  { unfold s1, alter_node. cbn. apply list_lookup_middle. reflexivity. }
  unfold Segment_calculateWidth.
  rewrite (bind_Ok _ _ _ _ _ (get_segment_Ok _ _ _ HG)). reflexivity.
Qed.

(** X5. A pointer move that reaches a Node on which no drag was ever
    started throws before anything is written; a Node fresh from the
    constructor is such a Node. *)
Theorem onDrag_without_drag_start_throws (s : Store) (n : nat) (N : NodeObj)
    (e : MouseEvent) :
  nodes s !! n = Some N -> clickCoords N = None ->
  Node_onDrag n e s = Throw s
  /\ forall opts s0, clickCoords (Node_init opts) = None
                     /\ exists n0 s1, Node opts s0 = Ok n0 s1
                                     /\ Node_onDrag n0 e s1 = Throw s1.
Proof.
  intros HN Hc. split.
  - unfold Node_onDrag. rewrite (bind_Ok _ _ _ _ _ (get_node_Ok n N s HN)), Hc.
    reflexivity.
  - intros opts s0. split; [reflexivity|].
    eexists _, _. split; [reflexivity|].
    unfold Node_onDrag. erewrite bind_Ok.
    2:{ apply get_node_Ok. cbn. apply list_lookup_middle. reflexivity. }
    reflexivity.
Qed.

Lemma segments_of_push (sg n m : nat) (s : Store) :
  n < length (nodes s) ->
  segments_of (alter_node (push_segment sg) n s) m
  = if decide (n = m) then segments_of s m ++ [sg] else segments_of s m.
Proof.
  intros Hn. rewrite segments_of_alter_node. unfold segments_of.
  destruct (decide (n = m)) as [<-|]; [|reflexivity].
  destruct (lookup_lt_is_Some_2 _ _ Hn) as [N ->]. reflexivity.
Qed.

Lemma not_live_beyond (s : Store) (sg : nat) :
  length (segs s) <= sg -> ~ live s sg.
Proof.
  intros Hge (G & o & d & HG & _). apply lookup_lt_Some in HG. lia.
Qed.

(** X6. A constructor call without an origin throws before any Node is
    touched.  A call with an origin but no destination throws after it has
    registered the new Segment with the origin: the origin's list has one
    more entry, naming a Segment without a destination, and the
    registration is no longer consistent. *)
Theorem Segment_without_destination_stays_registered (opts : Opts) (s : Store)
    (o : nat) :
  opt_origin opts = Some o -> o < length (nodes s) ->
  opt_destination opts = None ->
  (exists s',
     Segment opts s = Throw s'
     /\ segments_of s' o = segments_of s o ++ [length (segs s)]
     /\ (forall m, m <> o -> segments_of s' m = segments_of s m)
     /\ (exists G, segs s' !! length (segs s) = Some G
                   /\ origin G = Some o /\ destination G = None)
     /\ ~ consistent s')
  /\ (forall opts0 s0, opt_origin opts0 = None ->
        exists s', Segment opts0 s0 = Throw s' /\ nodes s' = nodes s0).
Proof.
  intros Ho Hlo Hd. split.
  - set (s0 := store_with_segs (segs s ++ [Segment_init opts]) s).
    exists (alter_node (push_segment (length (segs s))) o s0).
    assert (HG : segs (alter_node (push_segment (length (segs s))) o s0)
                   !! length (segs s) = Some (Segment_init opts)).
    { unfold alter_node, s0. cbn. apply list_lookup_middle. reflexivity. }
    split.
    { unfold Segment. fold s0. rewrite Ho. cbn [deref]. rewrite bind_ret.
      rewrite (bind_Ok _ _ _ _ _ (Node_addSegment_run s0 o (length (segs s)) Hlo)).
      rewrite Hd. reflexivity. }
    split.
    { rewrite segments_of_push by exact Hlo. rewrite decide_True by reflexivity.
      reflexivity. }
    split.
    { intros m Hne. rewrite segments_of_push by exact Hlo.
      rewrite decide_False by congruence. reflexivity. }
    split.
    { exists (Segment_init opts). split; [exact HG|]. split; assumption. }
    intros [Hlisted _].
    destruct (Hlisted o (length (segs s))) as (G & o' & d' & HG' & _ & Hd' & _).
    { rewrite segments_of_push by exact Hlo. rewrite decide_True by reflexivity.
      apply elem_of_app. right. left. }
    rewrite HG in HG'. inversion HG'; subst G. cbn in Hd'. congruence.
  - intros opts0 s0 Ho0. eexists. unfold Segment. rewrite Ho0.
    split; reflexivity.
Qed.

(** X7. A drag-start records where in the Node the pointer went down: the
    event's offset when it has one that is not zero, and otherwise the page
    position less the element's page offset.  It marks the element as
    dragging and leaves the Node's position and list alone. *)
Theorem onDragStart_records_click_offset (s : Store) (n : nat) (N : NodeObj)
    (e : MouseEvent) :
  nodes s !! n = Some N ->
  exists s' N' c,
    Node_onDragStart n e s = Ok tt s'
    /\ nodes s' !! n = Some N'
    /\ clickCoords N' = Some c
    /\ (forall v, offsetX e = Some v -> is_zero v = false -> pt_x c = v)
    /\ (forall v, offsetY e = Some v -> is_zero v = false -> pt_y c = v)
    /\ (offsetX e = None \/ (exists v, offsetX e = Some v /\ is_zero v = true) ->
        pt_x c = sub (pageX e) (el_offset_left e))
    /\ (offsetY e = None \/ (exists v, offsetY e = Some v /\ is_zero v = true) ->
        pt_y c = sub (pageY e) (el_offset_top e))
    /\ dragging (el (node_particle N')) = true
    /\ translate (node_particle N') = translate (node_particle N)
    /\ segments N' = segments N
    /\ segs s' = segs s.
Proof.
  intros HN.
  assert (Hn : n < length (nodes s)) by (eapply lookup_lt_Some; eassumption).
  set (c := {| pt_x := click_offset (offsetX e) (pageX e) (el_offset_left e);
               pt_y := click_offset (offsetY e) (pageY e) (el_offset_top e) |}).
  set (s1 := store_with_mousemove (mousemove s ++ [n]) s).
  exists (alter_node (node_with_clickCoords c)
            n (alter_node (node_map_el (el_set_dragging true)) n s1)),
         (node_with_clickCoords c (node_map_el (el_set_dragging true) N)), c.
  split.
  { unfold Node_onDragStart.
    rewrite (bind_Ok _ _ _ _ _ (get_node_Ok n N s HN)).
    rewrite (bind_Ok _ _ s s1 tt) by reflexivity.
    rewrite (bind_Ok _ _ _ _ _ (modify_el_node_run (el_set_dragging true) n s1 Hn)).
    apply (modify_node_run (node_with_clickCoords c) n
             (node_map_el (el_set_dragging true) N)).
    unfold alter_node. cbn. rewrite list_lookup_alter_eq, HN. reflexivity. }
  split.
  { unfold alter_node. cbn. rewrite !list_lookup_alter_eq, HN. reflexivity. }
  split; [reflexivity|].
  split.
  { intros v Hv Hz. cbn. unfold click_offset. rewrite Hv, Hz. reflexivity. }
  split.
  { intros v Hv Hz. cbn. unfold click_offset. rewrite Hv, Hz. reflexivity. }
  split.
  { intros [Hv|(v & Hv & Hz)]; cbn; unfold click_offset; rewrite Hv;
      [|rewrite Hz]; reflexivity. }
  split.
  { intros [Hv|(v & Hv & Hz)]; cbn; unfold click_offset; rewrite Hv;
      [|rewrite Hz]; reflexivity. }
  repeat split.
Qed.

(** X8. A drag-end clears the dragging mark of its Node and unbinds every
    handler, so that a pointer move after it changes nothing. *)
Theorem pointer_moves_after_drag_end_do_nothing (s : Store) (n : nat)
    (e : MouseEvent) :
  n < length (nodes s) ->
  exists s',
    Node_onDragEnd n e s = Ok tt s'
    /\ (dragging ∘ el ∘ node_particle) <$> nodes s' !! n = Some false
    /\ forall e', dispatch (MouseMove e') s' = Ok tt s'.
Proof.
  intros Hn. destruct (lookup_lt_is_Some_2 _ _ Hn) as [N HN].
  exists (store_with_mousemove []
            (alter_node (node_map_el (el_set_dragging false)) n s)).
  split.
  { unfold Node_onDragEnd.
    rewrite (bind_Ok _ _ _ _ _ (modify_el_node_run (el_set_dragging false) n s Hn)).
    reflexivity. }
  split.
  { cbn. rewrite list_lookup_alter_eq, HN. reflexivity. }
  intros e'. reflexivity.
Qed.

Lemma remove_first_snoc (sg : nat) (l : list nat) :
  remove_first sg (l ++ [sg])
  = if decide (sg ∈ l) then remove_first sg l ++ [sg] else l.
Proof.
  induction l as [|a l IH]; cbn [remove_first app].
  - rewrite Nat.eqb_refl. rewrite decide_False by (intros Hin; inversion Hin).
    reflexivity.
  - destruct (Nat.eqb_spec a sg) as [->|Hne].
    + rewrite decide_True by left. reflexivity.
    + rewrite IH. destruct (decide (sg ∈ l)) as [Hin|Hnin].
      * rewrite decide_True by (right; exact Hin). reflexivity.
      * rewrite decide_False; [reflexivity|].
        intros Hin. apply elem_of_cons in Hin as [Heq|Hin]; congruence.
Qed.

(** X9. Registering a Segment with a Node and deregistering it again gives
    back the store as it was when the Segment was not listed before; when
    it was, the entry that goes is the oldest one and the new entry stays
    last. *)
Theorem addSegment_then_removeSegment (s : Store) (n sg : nat) (N : NodeObj) :
  nodes s !! n = Some N ->
  exists s',
    (Node_addSegment n sg ;;; Node_removeSegment n sg) s = Ok tt s'
    /\ (sg ∉ segments N -> s' = s)
    /\ (sg ∈ segments N ->
        segments_of s' n = remove_first sg (segments N) ++ [sg]).
Proof.
  intros HN.
  assert (Hn : n < length (nodes s)) by (eapply lookup_lt_Some; eassumption).
  exists (alter_node (drop_segment sg) n (alter_node (push_segment sg) n s)).
  split.
  { rewrite (bind_Ok _ _ _ _ _ (Node_addSegment_run s n sg Hn)).
    apply Node_removeSegment_alter. unfold alter_node. cbn.
    rewrite length_alter. exact Hn. }
  assert (Hlist : segments_of (alter_node (drop_segment sg) n
                                 (alter_node (push_segment sg) n s)) n
                  = remove_first sg (segments N ++ [sg])).
  { rewrite segments_of_drop, decide_True by reflexivity.
    rewrite segments_of_push by exact Hn. rewrite decide_True by reflexivity.
    rewrite (segments_of_lookup s n N HN). reflexivity. }
  split.
  - intros Hnot. unfold alter_node. cbn. rewrite list_alter_alter_eq.
    destruct s as [ns sgs mm]. cbn in *. unfold store_with_nodes. cbn. f_equal.
    apply list_eq. intros m. destruct (decide (n = m)) as [<-|Hne].
    + rewrite list_lookup_alter_eq, HN. cbn. f_equal.
      destruct N as [p l c]. unfold drop_segment, push_segment, node_with_segments.
      cbn in *. rewrite remove_first_snoc, decide_False by exact Hnot. reflexivity.
    + apply list_lookup_alter_ne, Hne.
  - intros Hin. rewrite Hlist, remove_first_snoc, decide_True by exact Hin.
    reflexivity.
Qed.

(** *** The registration invariant through the constructors *)

Lemma listed_below_segs (s : Store) (n x : nat) :
  consistent s -> x ∈ segments_of s n -> x < length (segs s).
Proof.
  intros [Hlisted _] Hin. destruct (Hlisted n x Hin) as (G & _ & _ & HG & _).
  eapply lookup_lt_Some, HG.
Qed.

Lemma fresh_segment_not_listed (s : Store) (n : nat) :
  consistent s -> occurrences s n (length (segs s)) = 0.
Proof.
  intros Hcons. unfold occurrences.
  destruct (count_occ Nat.eq_dec (segments_of s n) (length (segs s))) eqn:E;
    [reflexivity|].
  assert (Hin : length (segs s) ∈ segments_of s n) by (apply elem_of_count; lia).
  apply (listed_below_segs s n _ Hcons) in Hin. lia.
Qed.

Lemma drop_push_fresh (sg : nat) (N : NodeObj) :
  sg ∉ segments N -> drop_segment sg (push_segment sg N) = N.
Proof.
  intros Hnot. destruct N as [p l c]. unfold drop_segment, push_segment,
    node_with_segments. cbn in *.
  rewrite remove_first_snoc, decide_False by exact Hnot. reflexivity.
Qed.

Lemma drop_drop_push_push_fresh (sg : nat) (N : NodeObj) :
  sg ∉ segments N ->
  drop_segment sg (drop_segment sg (push_segment sg (push_segment sg N))) = N.
Proof.
  intros Hnot. destruct N as [p l c]. unfold drop_segment, push_segment,
    node_with_segments. cbn in *.
  rewrite remove_first_snoc.
  rewrite decide_True by (apply elem_of_app; right; left).
  replace (remove_first sg (l ++ [sg])) with l
    by (rewrite remove_first_snoc, decide_False by exact Hnot; reflexivity).
  rewrite remove_first_snoc, decide_False by exact Hnot. reflexivity.
Qed.

Lemma lookup_alter_if {A} (f : A -> A) (i m : nat) (l : list A) :
  alter f i l !! m = (if decide (i = m) then f else id) <$> l !! m.
Proof.
  destruct (decide (i = m)) as [->|Hne].
  - apply list_lookup_alter_eq.
  - rewrite list_lookup_alter_ne by exact Hne. destruct (l !! m); reflexivity.
Qed.

(** X10. On a consistent store, building a Segment and removing it again
    gives back every Node exactly as it was, leaves the Segments that were
    there untouched, and leaves the new Segment with null endpoints. *)
Theorem Segment_then_remove_restores_nodes (opts : Opts) (s s1 : Store) (sg : nat) :
  consistent s ->
  Segment opts s = Ok sg s1 ->
  exists s2,
    Segment_remove sg s1 = Ok tt s2
    /\ nodes s2 = nodes s
    /\ removed s2 sg
    /\ forall x, x < length (segs s) -> segs s2 !! x = segs s !! x.
Proof.
  intros Hcons Hnew.
  apply Segment_Ok_inv in Hnew as (o & d & Ho & Hd & Hlo & Hld & -> & ->).
  set (sg := length (segs s)).
  set (s1 := alter_node (push_segment sg) d
               (alter_node (push_segment sg) o
                  (store_with_segs (segs s ++ [Segment_init opts]) s))).
  assert (HG : segs s1 !! sg = Some (Segment_init opts)).
  { unfold s1, alter_node. cbn. apply list_lookup_middle. reflexivity. }
  assert (Hln : length (nodes s1) = length (nodes s)).
  { unfold s1, alter_node. cbn. rewrite !length_alter. reflexivity. }
  exists (after_Segment_remove sg o d s1).
  split.
  { apply (Segment_remove_run s1 sg o d (Segment_init opts)); try assumption;
      rewrite Hln; assumption. }
  split.
  { unfold after_Segment_remove, alter_seg, s1, alter_node. cbn.
    apply list_eq. intros m. rewrite !lookup_alter_if.
    destruct (nodes s !! m) as [N|] eqn:HN;
      [|destruct (decide (d = m)), (decide (o = m)); reflexivity].
    assert (Hnot : sg ∉ segments N).
    { intros Hin. rewrite <- (segments_of_lookup s m N HN) in Hin.
      apply (listed_below_segs s m sg Hcons) in Hin. unfold sg in Hin. lia. }
    assert (Hplain : drop_segment sg N = N).
    { destruct N as [p l c]. unfold drop_segment, node_with_segments. cbn in *.
      rewrite remove_first_absent by exact Hnot. reflexivity. }
    destruct (decide (d = m)), (decide (o = m)); cbn; f_equal.
    - apply drop_drop_push_push_fresh, Hnot.
    - apply drop_push_fresh, Hnot.
    - apply drop_push_fresh, Hnot. }
  split; [exact (proj1 (removed_after_Segment_remove s1 sg o d (Segment_init opts) HG))|].
  intros x Hx. rewrite segs_after_Segment_remove.
  rewrite decide_False by (unfold sg; lia).
  unfold s1, alter_node. cbn. apply lookup_app_l, Hx.
Qed.

Lemma segments_of_new_node (opts : Opts) (s : Store) (m : nat) :
  segments_of (store_with_nodes (nodes s ++ [Node_init opts]) s) m = segments_of s m.
Proof.
  unfold segments_of. cbn.
  destruct (decide (m < length (nodes s))) as [Hlt|Hge].
  - rewrite lookup_app_l by exact Hlt. reflexivity.
  - rewrite (lookup_ge_None_2 (nodes s) m) by lia.
    destruct (decide (m = length (nodes s))) as [->|Hne].
    + rewrite list_lookup_middle by reflexivity. reflexivity.
    + rewrite lookup_ge_None_2; [reflexivity|]. rewrite length_app. cbn. lia.
Qed.

(** X11. The empty store is well formed, and the Node constructor, which
    never throws, keeps a well-formed store well formed and gives the new
    Node an empty list. *)
Theorem Node_keeps_well_formed (opts : Opts) (s : Store) :
  well_formed empty_store
  /\ (well_formed s ->
      exists n s',
        Node opts s = Ok n s'
        /\ n = length (nodes s)
        /\ segments_of s' n = []
        /\ well_formed s').
Proof.
  split.
  { split; [split|].
    - intros n sg Hin. unfold segments_of in Hin. cbn in Hin. inversion Hin.
    - intros sg G o d n HG. inversion HG.
    - intros sg G o HG. inversion HG. }
  intros [[Hlisted Hcount] Hdang].
  exists (length (nodes s)), (store_with_nodes (nodes s ++ [Node_init opts]) s).
  split; [reflexivity|]. split; [reflexivity|].
  split.
  { rewrite segments_of_new_node. unfold segments_of.
    rewrite lookup_ge_None_2 by lia. reflexivity. }
  assert (Hln : length (nodes (store_with_nodes (nodes s ++ [Node_init opts]) s))
                = S (length (nodes s))).
  { cbn. rewrite length_app. cbn. lia. }
  split; [split|].
  - intros n sg Hin. rewrite segments_of_new_node in Hin.
    destruct (Hlisted n sg Hin) as (G & o & d & HG & Ho & Hd & Hlo & Hld).
    exists G, o, d. rewrite Hln. repeat split; try assumption; lia.
  - intros sg G o d n HG Ho Hd _ _. cbn [segs store_with_nodes] in HG.
    unfold occurrences. rewrite segments_of_new_node.
    apply (Hcount sg G o d n HG Ho Hd).
    + apply (Hdang sg G o HG). left. exact Ho.
    + apply (Hdang sg G d HG). right. exact Hd.
  - intros sg G o HG Hod. rewrite Hln. cbn [segs store_with_nodes] in HG.
    specialize (Hdang sg G o HG Hod). lia.
Qed.

Lemma occurrences_push (sg n m x : nat) (s : Store) :
  n < length (nodes s) ->
  occurrences (alter_node (push_segment sg) n s) m x
  = occurrences s m x + (if decide (n = m /\ x = sg) then 1 else 0).
Proof.
  intros Hn. unfold occurrences. rewrite segments_of_push by exact Hn.
  destruct (decide (n = m)) as [<-|Hne].
  - rewrite count_occ_app. cbn [count_occ].
    destruct (Nat.eq_dec sg x); destruct (decide (n = n /\ x = sg)) as [[_ ?]|Hno];
      first [lia | congruence | (exfalso; apply Hno; auto)].
  - rewrite decide_False by tauto. lia.
Qed.

(** X12. When the Segment constructor returns on a well-formed store, the
    store it leaves is well formed, and the new Segment is listed once for
    each endpoint role: twice by a Node that is both its origin and its
    destination. *)
Theorem Segment_keeps_well_formed (opts : Opts) (s s1 : Store) (sg : nat) :
  well_formed s ->
  Segment opts s = Ok sg s1 ->
  well_formed s1
  /\ exists o d,
       opt_origin opts = Some o /\ opt_destination opts = Some d
       /\ forall n, occurrences s1 n sg
                    = (if decide (o = n) then 1 else 0)
                      + (if decide (d = n) then 1 else 0).
Proof.
  intros [Hcons Hdang] Hnew. pose proof Hcons as [Hlisted Hcount].
  apply Segment_Ok_inv in Hnew as (o & d & Ho & Hd & Hlo & Hld & -> & ->).
  set (sg := length (segs s)).
  set (s0 := store_with_segs (segs s ++ [Segment_init opts]) s).
  set (s1 := alter_node (push_segment sg) d (alter_node (push_segment sg) o s0)).
  assert (Hln : length (nodes s1) = length (nodes s)).
  { unfold s1, alter_node. cbn. rewrite !length_alter. reflexivity. }
  assert (Hocc : forall n x, occurrences s1 n x
            = occurrences s n x
              + (if decide (x = sg)
                 then (if decide (o = n) then 1 else 0)
                      + (if decide (d = n) then 1 else 0)
                 else 0)).
  { intros n x. unfold s1.
    rewrite occurrences_push
      by (unfold alter_node; cbn; rewrite length_alter; exact Hld).
    rewrite occurrences_push by exact Hlo.
    change (occurrences s0 n x) with (occurrences s n x).
    destruct (decide (x = sg)), (decide (o = n)), (decide (d = n));
      repeat (match goal with
              | |- context [decide (?a = ?b /\ ?c = ?e)] =>
                  destruct (decide (a = b /\ c = e)) as [[? ?]|?]
              end); try lia; tauto. }
  assert (Hold : forall x, x < sg -> segs s1 !! x = segs s !! x).
  { intros x Hx. unfold s1, alter_node. cbn. apply lookup_app_l, Hx. }
  assert (Hnew : segs s1 !! sg = Some (Segment_init opts)).
  { unfold s1, alter_node. cbn. apply list_lookup_middle. reflexivity. }
  assert (Hfresh : forall n, occurrences s n sg = 0).
  { intros n. apply fresh_segment_not_listed, Hcons. }
  split; [split; [split|]|].
  - intros n x Hin. apply elem_of_count in Hin.
    fold (occurrences s1 n x) in Hin. rewrite Hocc in Hin.
    destruct (decide (x = sg)) as [->|Hne].
    + exists (Segment_init opts), o, d. rewrite Hln. repeat split; assumption.
    + destruct (Hlisted n x) as (G & o' & d' & HG & Hrest).
      { apply elem_of_count. fold (occurrences s n x). lia. }
      exists G, o', d'. rewrite Hln, Hold; [split; assumption|].
      eapply lookup_lt_Some, HG.
  - intros x G o' d' n HG Ho' Hd' Hlo' Hld'. rewrite Hln in Hlo', Hld'.
    rewrite Hocc. destruct (decide (x = sg)) as [->|Hne].
    + rewrite Hnew in HG. inversion HG; subst G. cbn in Ho', Hd'.
      rewrite Ho in Ho'. rewrite Hd in Hd'. inversion Ho'. inversion Hd'. subst.
      rewrite Hfresh. reflexivity.
    + assert (Hx : x < sg).
      { apply lookup_lt_Some in HG. unfold s1, alter_node in HG. cbn in HG.
        rewrite length_app in HG. cbn in HG. unfold sg in *. lia. }
      rewrite Hold in HG by exact Hx.
      rewrite (Hcount x G o' d' n HG Ho' Hd' Hlo' Hld'). lia.
  - intros x G o' HG Hod. rewrite Hln.
    destruct (decide (x = sg)) as [->|Hne].
    + rewrite Hnew in HG. inversion HG; subst G. cbn in Hod.
      rewrite Ho, Hd in Hod. destruct Hod as [Heq|Heq]; inversion Heq; subst; assumption.
    + assert (Hx : x < sg).
      { apply lookup_lt_Some in HG. unfold s1, alter_node in HG. cbn in HG.
        rewrite length_app in HG. cbn in HG. unfold sg in *. lia. }
      rewrite Hold in HG by exact Hx. apply (Hdang x G o' HG Hod).
  - exists o, d. split; [exact Ho|]. split; [exact Hd|].
    intros n. rewrite Hocc, Hfresh, decide_True by reflexivity. reflexivity.
Qed.

(** X13. When [remove] returns on a Segment of a well-formed store, the
    store it leaves is well formed, no Node lists that Segment any more,
    every other Segment is listed as often as before, and every Node keeps
    everything but its list. *)
Theorem Segment_remove_keeps_well_formed (s s' : Store) (sg : nat) :
  well_formed s ->
  Segment_remove sg s = Ok tt s' ->
  well_formed s'
  /\ (forall n, occurrences s' n sg = 0)
  /\ (forall n x, x <> sg -> occurrences s' n x = occurrences s n x)
  /\ (forall n N, nodes s !! n = Some N ->
        exists N', nodes s' !! n = Some N'
                   /\ node_particle N' = node_particle N
                   /\ clickCoords N' = clickCoords N).
Proof.
  intros [Hcons Hdang] Hrun. pose proof Hcons as [Hlisted Hcount].
  apply Segment_remove_Ok_inv in Hrun as (G & o & d & HG & Ho & Hd & Hlo & Hld & ->).
  split; [split|].
  - apply (after_Segment_remove_consistent s sg o d G HG Ho Hd).
    + intros n x _ Hin. apply (Hlisted n x Hin).
    + intros x G' o' d' n _. apply Hcount.
    + intros n. rewrite (Hcount sg G o d n HG Ho Hd Hlo Hld). lia.
  - intros x G' o' HG' Hod. rewrite length_nodes_after_Segment_remove.
    rewrite segs_after_Segment_remove in HG'.
    destruct (decide (sg = x)) as [->|Hne].
    + rewrite HG in HG'. inversion HG'; subst G'. cbn in Hod.
      destruct Hod; discriminate.
    + apply (Hdang x G' o' HG' Hod).
  - split; [|split].
    + intros n. rewrite occurrences_after_Segment_remove, decide_True by reflexivity.
      rewrite (Hcount sg G o d n HG Ho Hd Hlo Hld). lia.
    + intros n x Hne. rewrite occurrences_after_Segment_remove.
      rewrite decide_False by exact Hne. reflexivity.
    + intros n N HN. unfold after_Segment_remove, alter_seg, alter_node. cbn.
      rewrite !lookup_alter_if, HN.
      destruct (decide (d = n)), (decide (o = n)); cbn; eexists;
        (split; [reflexivity|]); split; reflexivity.
Qed.

(** *** What pointer events never change *)

Lemma same_registration_refl (s : Store) : same_registration s s.
Proof. repeat split; reflexivity. Qed.

Lemma same_registration_trans (s1 s2 s3 : Store) :
  same_registration s1 s2 -> same_registration s2 s3 -> same_registration s1 s3.
Proof.
  intros (Hn1 & Hs1 & Hl1 & He1) (Hn2 & Hs2 & Hl2 & He2).
  split; [congruence|]. split; [congruence|]. split.
  - intros n. rewrite Hl2. apply Hl1.
  - intros sg. rewrite He2. apply He1.
Qed.

Lemma stable_bind {A B} (m : M A) (k : A -> M B) :
  stable m -> (forall a, stable (k a)) -> stable (bind m k).
Proof.
  intros Hm Hk s. unfold bind. specialize (Hm s).
  destruct (m s) as [a s1|s1]; cbn in *; [|exact Hm].
  eapply same_registration_trans; [exact Hm | apply Hk].
Qed.

Lemma stable_ret {A} (a : A) : stable (ret a).
Proof. intros s. apply same_registration_refl. Qed.

Lemma stable_deref {A} (v : option A) : stable (deref v).
Proof. intros s. destruct v; apply same_registration_refl. Qed.

Lemma stable_get_node (n : nat) : stable (get_node n).
Proof. intros s. unfold get_node. apply stable_deref. Qed.

Lemma stable_get_segment (sg : nat) : stable (get_segment sg).
Proof. intros s. unfold get_segment. apply stable_deref. Qed.

Lemma same_registration_insert_node (s : Store) (n : nat) (N N' : NodeObj) :
  nodes s !! n = Some N -> segments N' = segments N ->
  same_registration s (store_with_nodes (<[n := N']> (nodes s)) s).
Proof.
  intros HN Hseg.
  assert (Hn : n < length (nodes s)) by (eapply lookup_lt_Some; eassumption).
  split; [cbn; apply length_insert|]. split; [reflexivity|]. split.
  - intros m. unfold segments_of. cbn. destruct (decide (n = m)) as [<-|Hne].
    + rewrite list_lookup_insert_eq by exact Hn. rewrite HN. exact Hseg.
    + rewrite list_lookup_insert_ne by exact Hne. reflexivity.
  - intros sg. reflexivity.
Qed.

Lemma same_registration_insert_segment (s : Store) (sg : nat) (G G' : SegmentObj) :
  segs s !! sg = Some G ->
  origin G' = origin G -> destination G' = destination G ->
  same_registration s (store_with_segs (<[sg := G']> (segs s)) s).
Proof.
  intros HG Ho Hd.
  assert (Hlt : sg < length (segs s)) by (eapply lookup_lt_Some; eassumption).
  split; [reflexivity|]. split; [cbn; apply length_insert|]. split.
  - intros m. reflexivity.
  - intros x. unfold endpoints. cbn. destruct (decide (sg = x)) as [<-|Hne].
    + rewrite list_lookup_insert_eq by exact Hlt. rewrite HG. cbn.
      rewrite Ho, Hd. reflexivity.
    + rewrite list_lookup_insert_ne by exact Hne. reflexivity.
Qed.

Lemma stable_modify_node (f : NodeObj -> NodeObj) (n : nat) :
  (forall N, segments (f N) = segments N) ->
  stable (N <- get_node n ;; put_node n (f N)).
Proof.
  intros Hf s. unfold bind, get_node, put_node.
  destruct (nodes s !! n) as [N|] eqn:HN; cbn.
  - apply (same_registration_insert_node s n N (f N) HN (Hf N)).
  - apply same_registration_refl.
Qed.

Lemma stable_modify_segment (f : SegmentObj -> SegmentObj) (sg : nat) :
  (forall G, origin (f G) = origin G /\ destination (f G) = destination G) ->
  stable (G <- get_segment sg ;; put_segment sg (f G)).
Proof.
  intros Hf s. unfold bind, get_segment, put_segment.
  destruct (segs s !! sg) as [G|] eqn:HG; cbn.
  - apply (same_registration_insert_segment s sg G (f G) HG); apply Hf.
  - apply same_registration_refl.
Qed.

Lemma stable_put_particle (this : obj) (p : ParticleObj) : stable (put_particle this p).
Proof.
  destruct this as [n|sg]; unfold put_particle.
  - apply (stable_modify_node (node_with_particle p)). reflexivity.
  - apply (stable_modify_segment (seg_with_particle p)). intros G. split; reflexivity.
Qed.

Lemma stable_get_particle (this : obj) : stable (get_particle this).
Proof.
  destruct this; unfold get_particle;
    (apply stable_bind; [first [apply stable_get_node | apply stable_get_segment]
                        | intros ?; apply stable_ret]).
Qed.

Lemma stable_modify_el (this : obj) (f : Element -> Element) :
  stable (modify_el this f).
Proof.
  unfold modify_el. apply stable_bind; [apply stable_get_particle|].
  intros p. apply stable_put_particle.
Qed.

Lemma stable_setPosition (this : obj) : stable (Particle_setPosition this).
Proof.
  unfold Particle_setPosition. apply stable_bind; [apply stable_get_particle|].
  intros p. apply stable_modify_el.
Qed.

Lemma stable_calculateRotation (sg : nat) : stable (Segment_calculateRotation sg).
Proof.
  intros s.
  destruct (calculateRotation_cases s sg)
    as [Hrun | [(G & o & O & HG & Ho & HO & _ & Hrun)
               | (G & o & d & O & D & HG & Ho & Hd & HO & HD & Hrun)]];
    rewrite Hrun; cbn [outcome_store].
  - apply same_registration_refl.
  - apply (same_registration_insert_segment s sg G); [exact HG | reflexivity..].
  - apply (same_registration_insert_segment s sg G); [exact HG | reflexivity..].
Qed.

Lemma stable_for_each (l : list nat) (body : nat -> M unit) :
  (forall a, stable (body a)) -> stable (for_each l body).
Proof.
  intros Hbody. induction l as [|a l IH]; cbn [for_each].
  - apply stable_ret.
  - apply stable_bind; [apply Hbody | intros _; exact IH].
Qed.

Lemma stable_onDrag (n : nat) (e : MouseEvent) : stable (Node_onDrag n e).
Proof.
  unfold Node_onDrag.
  repeat first
    [ apply stable_get_node
    | apply stable_deref
    | apply stable_put_particle
    | apply stable_setPosition
    | apply stable_for_each; intros ?; apply stable_calculateRotation
    | apply stable_bind; [|intros ?] ].
Qed.

Lemma same_registration_mousemove (l : list nat) (s : Store) :
  same_registration s (store_with_mousemove l s).
Proof. repeat split; reflexivity. Qed.

Lemma stable_onDragStart (n : nat) (e : MouseEvent) : stable (Node_onDragStart n e).
Proof.
  unfold Node_onDragStart.
  apply stable_bind; [apply stable_get_node | intros _].
  apply stable_bind; [intros s; apply same_registration_mousemove | intros _].
  apply stable_bind; [apply stable_modify_el | intros _].
  apply (stable_modify_node (node_with_clickCoords _)). reflexivity.
Qed.

Lemma stable_onDragEnd (n : nat) (e : MouseEvent) : stable (Node_onDragEnd n e).
Proof.
  unfold Node_onDragEnd.
  apply stable_bind; [apply stable_modify_el | intros _].
  intros s. apply same_registration_mousemove.
Qed.

Lemma stable_dispatch (ev : Event) : stable (dispatch ev).
Proof.
  destruct ev as [n e|e|n e]; cbn [dispatch].
  - apply stable_onDragStart.
  - intros s. apply (stable_for_each (mousemove s)). intros n. apply stable_onDrag.
  - apply stable_onDragEnd.
Qed.

Lemma same_registration_live (s s' : Store) (sg : nat) :
  same_registration s s' -> live s sg -> live s' sg.
Proof.
  intros (Hn & _ & _ & He) (G & o & d & HG & Ho & Hd & Hlo & Hld).
  specialize (He sg). unfold endpoints in He. rewrite HG in He. cbn in He.
  destruct (segs s' !! sg) as [G'|] eqn:HG'; [|discriminate].
  cbn in He. inversion He as [[Ho' Hd']].
  exists G', o, d. rewrite Hn. repeat split; congruence.
Qed.

Lemma same_registration_consistent (s s' : Store) :
  same_registration s s' -> consistent s -> consistent s'.
Proof.
  intros Hsame [Hlisted Hcount]. pose proof Hsame as (Hn & Hs & Hl & He). split.
  - intros n sg Hin. rewrite Hl in Hin.
    apply (same_registration_live s s' sg Hsame), (Hlisted n sg Hin).
  - intros sg G' o d n HG' Ho Hd Hlo Hld. unfold occurrences. rewrite Hl.
    specialize (He sg). unfold endpoints in He. rewrite HG' in He. cbn in He.
    destruct (segs s !! sg) as [G|] eqn:HG; [|discriminate].
    cbn in He. inversion He as [[Ho' Hd']].
    rewrite Hn in Hlo, Hld.
    apply (Hcount sg G o d n HG); congruence.
Qed.

(** X14. No sequence of pointer events, whichever handlers throw on the
    way, adds or removes an object, changes a Node's list or changes a
    Segment's endpoints; a consistent diagram stays consistent under any
    dragging. *)
Theorem pointer_events_keep_registration (evs : list Event) (s : Store) :
  same_registration s (run_events evs s)
  /\ (consistent s -> consistent (run_events evs s)).
Proof.
  assert (Hsame : forall evs s, same_registration s (run_events evs s)).
  { clear evs s. induction evs as [|ev evs IH]; intros s; cbn [run_events].
    - apply same_registration_refl.
    - eapply same_registration_trans; [apply stable_dispatch | apply IH]. }
  split; [apply Hsame|].
  apply same_registration_consistent, Hsame.
Qed.

(** *** Attaching *)

(** X15. [attach] on a Segment with both endpoints returns, leaves the
    Nodes alone, draws the arrowhead once more without resizing its canvas,
    mounts the element, and leaves the Segment holding and showing the
    geometry of the formulas. *)
Theorem Segment_attach_mounts_with_geometry (s : Store) (sg : nat) (G : SegmentObj) :
  segs s !! sg = Some G -> live s sg ->
  exists s' G',
    Segment_attach sg s = Ok tt s'
    /\ nodes s' = nodes s
    /\ segs s' !! sg = Some G'
    /\ attached (el (seg_particle G')) = true
    /\ drawn (canvas G') = S (drawn (canvas G))
    /\ raw_width (canvas G') = raw_width (canvas G)
    /\ up_to_date s' sg.
Proof.
  intros HG (G0 & o & d & HG0 & Ho & Hd & Hlo & Hld).
  rewrite HG in HG0. inversion HG0; subst G0.
  destruct (lookup_lt_is_Some_2 _ _ Hlo) as [O HO].
  destruct (lookup_lt_is_Some_2 _ _ Hld) as [D HD].
  assert (Hlt : sg < length (segs s)) by (eapply lookup_lt_Some; eassumption).
  exists (store_with_segs (<[sg := attached_segment O D G]> (segs s)) s),
         (attached_segment O D G).
  split; [apply (Segment_attach_run s sg o d G O D); assumption|].
  split; [reflexivity|].
  split; [cbn; apply list_lookup_insert_eq, Hlt|].
  split; [reflexivity|]. split; [reflexivity|]. split; [reflexivity|].
  exists (attached_segment O D G), o, d, O, D. cbn [nodes segs store_with_segs].
  rewrite list_lookup_insert_eq by exact Hlt.
  repeat split; assumption.
Qed.

Opaque add sub mul div pow2 ceil ceil_sqrt ltb of_Z atan2_fixed String.append.

Lemma Node_attach_run (s : Store) (n : nat) (N : NodeObj) :
  nodes s !! n = Some N ->
  Node_attach n s = Ok tt (store_with_nodes (<[n := attached_node N]> (nodes s)) s).
Proof.
  intros HN.
  assert (Hn : n < length (nodes s)) by (eapply lookup_lt_Some; eassumption).
  unfold Node_attach, Particle_attach, Node_onAttach, Particle_setPosition,
    modify_el, get_particle, put_particle.
  unfold bind, get_node, put_node, deref, ret.
  symbolic. reflexivity.
Qed.

Transparent add sub mul div pow2 ceil ceil_sqrt ltb of_Z atan2_fixed String.append.

(** X16. [attach] on a Node returns, appends the title to the element,
    mounts it and places it at the Node's position, and leaves the list,
    the position and every Segment alone.  It is not idempotent: a second
    [attach] appends the title a second time. *)
Theorem Node_attach_appends_title_each_time (s : Store) (n : nat) (N : NodeObj) :
  nodes s !! n = Some N ->
  exists s1 s2 N1 N2,
    Node_attach n s = Ok tt s1
    /\ nodes s1 !! n = Some N1
    /\ children (el (node_particle N1))
       = children (el (node_particle N)) ++ [title_html (title (node_particle N))]
    /\ attached (el (node_particle N1)) = true
    /\ css_left (el (node_particle N1)) = Some (pt_x (translate (node_particle N)))
    /\ css_top (el (node_particle N1)) = Some (pt_y (translate (node_particle N)))
    /\ translate (node_particle N1) = translate (node_particle N)
    /\ segments N1 = segments N
    /\ segs s1 = segs s
    /\ Node_attach n s1 = Ok tt s2
    /\ nodes s2 !! n = Some N2
    /\ children (el (node_particle N2))
       = children (el (node_particle N))
         ++ [title_html (title (node_particle N));
             title_html (title (node_particle N))].
Proof.
  intros HN.
  assert (Hn : n < length (nodes s)) by (eapply lookup_lt_Some; eassumption).
  set (s1 := store_with_nodes (<[n := attached_node N]> (nodes s)) s).
  assert (HN1 : nodes s1 !! n = Some (attached_node N)).
  { unfold s1. cbn. apply list_lookup_insert_eq, Hn. }
  exists s1, (store_with_nodes (<[n := attached_node (attached_node N)]> (nodes s1)) s1),
         (attached_node N), (attached_node (attached_node N)).
  split; [apply Node_attach_run, HN|].
  split; [exact HN1|].
  do 7 (split; [reflexivity|]).
  split; [apply Node_attach_run, HN1|].
  split.
  { cbn. rewrite list_insert_insert_eq. apply list_lookup_insert_eq, Hn. }
  cbn. rewrite <- app_assoc. reflexivity.
Qed.

(** *** Removing a Node *)

Lemma removed_not_listed (s : Store) (x m : nat) :
  consistent s -> removed s x -> x ∉ segments_of s m.
Proof.
  intros [Hlisted _] (G & HG & Ho & _) Hin.
  destruct (Hlisted m x Hin) as (G' & o & d & HG' & Ho' & _).
  rewrite HG in HG'. inversion HG'; subst G'. congruence.
Qed.

Lemma onRemove_iteration_frame (s s2 : Store) (n sg : nat) (N : NodeObj)
    (rest : list nat) :
  nodes s !! n = Some N ->
  (put_node n (node_with_segments rest N) ;;; Segment_remove sg) s = Ok tt s2 ->
  (forall x, x <> sg -> segs s2 !! x = segs s !! x)
  /\ (forall m x, m <> n -> x <> sg -> occurrences s2 m x = occurrences s m x)
  /\ (forall x, x <> sg -> occurrences s2 n x = count_occ Nat.eq_dec rest x)
  /\ (forall m M, nodes s !! m = Some M ->
        exists M', nodes s2 !! m = Some M'
                   /\ node_particle M' = node_particle M
                   /\ clickCoords M' = clickCoords M).
Proof.
  intros HN Hrun.
  assert (Hn : n < length (nodes s)) by (eapply lookup_lt_Some; eassumption).
  set (s1 := store_with_nodes (<[n := node_with_segments rest N]> (nodes s)) s) in *.
  assert (Hrun1 : Segment_remove sg s1 = Ok tt s2) by exact Hrun.
  apply Segment_remove_Ok_inv in Hrun1 as (G & o & d & HG & Ho & Hd & Hlo & Hld & ->).
  assert (Hs1 : forall m, segments_of s1 m = if decide (n = m) then rest else segments_of s m).
  { intros m. unfold segments_of, s1. cbn. destruct (decide (n = m)) as [->|Hne].
    - rewrite list_lookup_insert_eq by exact Hn. reflexivity.
    - rewrite list_lookup_insert_ne by exact Hne. reflexivity. }
  split; [|split; [|split]].
  - intros x Hne. rewrite segs_after_Segment_remove, decide_False by congruence.
    reflexivity.
  - intros m x Hm Hx. rewrite occurrences_after_Segment_remove, decide_False by exact Hx.
    unfold occurrences. rewrite Hs1, decide_False by congruence. reflexivity.
  - intros x Hx. rewrite occurrences_after_Segment_remove, decide_False by exact Hx.
    unfold occurrences. rewrite Hs1, decide_True by reflexivity. reflexivity.
  - intros m M HM. unfold after_Segment_remove, alter_seg, alter_node. cbn.
    rewrite !lookup_alter_if. destruct (decide (n = m)) as [<-|Hne].
    + rewrite list_lookup_insert_eq by exact Hn. rewrite HN in HM. inversion HM; subst M.
      destruct (decide (d = n)), (decide (o = n)); cbn; eexists;
        (split; [reflexivity|]); split; reflexivity.
    + rewrite list_lookup_insert_ne by exact Hne. rewrite HM.
      destruct (decide (d = m)), (decide (o = m)); cbn; eexists;
        (split; [reflexivity|]); split; reflexivity.
Qed.

Lemma onRemove_loop_frame (n k : nat) :
  forall (s s' : Store) (i j : nat),
    length (segments_of s n) <= k ->
    consistent s -> n < length (nodes s) ->
    Node_onRemove_loop (S k) n i s = Some (Ok j s') ->
    (forall x, x ∉ segments_of s n -> segs s' !! x = segs s !! x)
    /\ (forall m x, m <> n -> x ∉ segments_of s n ->
          occurrences s' m x = occurrences s m x)
    /\ (forall m M, nodes s !! m = Some M ->
          exists M', nodes s' !! m = Some M'
                     /\ node_particle M' = node_particle M
                     /\ clickCoords M' = clickCoords M).
Proof.
  induction k as [|k IH]; intros s s' i j Hlen Hcons Hn Hloop;
    destruct (lookup_lt_is_Some_2 _ _ Hn) as [N HN];
    pose proof (segments_of_lookup s n N HN) as Hsn;
    destruct (segments N) as [|sg rest] eqn:Hseg;
    try (rewrite Hsn in Hlen; cbn in Hlen; lia);
    try (rewrite (onRemove_loop_done _ n i s N HN Hseg) in Hloop;
         inversion Hloop; subst; repeat split; eauto).
  destruct (onRemove_iteration s n sg N rest Hcons HN Hseg)
    as (s2 & Hrun & Hcons2 & Hlen2 & _ & _ & _ & Hshort & _).
  rewrite (onRemove_loop_step _ n i s N sg rest HN Hseg), Hrun in Hloop.
  destruct (onRemove_iteration_frame s s2 n sg N rest HN Hrun)
    as (Hsegs & Hocc & Hoccn & Hnodes).
  rewrite Hsn in Hlen. cbn in Hlen.
  destruct (IH s2 s' (S i) j) as (Hsegs' & Hocc' & Hnodes');
    [lia | exact Hcons2 | lia | exact Hloop |].
  assert (Hout : forall x, x ∉ segments_of s n -> x <> sg /\ x ∉ segments_of s2 n).
  { intros x Hx. rewrite Hsn in Hx. apply not_elem_of_cons in Hx as [Hne Hx].
    split; [exact Hne|]. intros Hin. apply elem_of_count in Hin.
    fold (occurrences s2 n x) in Hin. rewrite (Hoccn x Hne) in Hin.
    apply Hx, elem_of_count. exact Hin. }
  split; [|split].
  - intros x Hx. destruct (Hout x Hx) as [Hne Hx2].
    rewrite (Hsegs' x Hx2). apply Hsegs, Hne.
  - intros m x Hm Hx. destruct (Hout x Hx) as [Hne Hx2].
    rewrite (Hocc' m x Hm Hx2). apply Hocc; assumption.
  - intros m M HM. destruct (Hnodes m M HM) as (M2 & HM2 & Hp2 & Hc2).
    destruct (Hnodes' m M2 HM2) as (M' & HM' & Hp' & Hc').
    exists M'. split; [exact HM'|]. split; congruence.
Qed.

(** X17. On a consistent store, [remove] on a Node leaves the store
    consistent and the Node's element detached; no Node lists any of the
    removed Segments any more; Segments that the Node did not list are
    untouched and are listed by the other Nodes as often as before; and
    every Node keeps everything but its list and, for the removed Node, the
    mounting of its element. *)
Theorem Node_remove_keeps_consistency (s : Store) (n fuel : nat) :
  consistent s -> n < length (nodes s) ->
  length (segments_of s n) < fuel ->
  exists s',
    Node_remove fuel n s = Some (Ok tt s')
    /\ consistent s'
    /\ (attached ∘ el ∘ node_particle) <$> nodes s' !! n = Some false
    /\ (forall sg m, sg ∈ segments_of s n -> sg ∉ segments_of s' m)
    /\ (forall x, x ∉ segments_of s n -> segs s' !! x = segs s !! x)
    /\ (forall m x, m <> n -> x ∉ segments_of s n ->
          occurrences s' m x = occurrences s m x)
    /\ (forall m M, nodes s !! m = Some M ->
          exists M', nodes s' !! m = Some M'
                     /\ translate (node_particle M') = translate (node_particle M)
                     /\ dimensions (node_particle M') = dimensions (node_particle M)
                     /\ clickCoords M' = clickCoords M).
Proof.
  intros Hcons Hn Hfuel.
  destruct (onRemove_loop_consistent n (length (segments_of s n)) s 0)
    as (j & s1 & Hloop & Hcons1 & Hlen1 & Hempty & Hall & _ & _);
    [lia | exact Hcons | exact Hn |].
  destruct (onRemove_loop_frame n (length (segments_of s n)) s s1 0 j)
    as (Hsegs & Hocc & Hnodes);
    [lia | exact Hcons | exact Hn | apply Hloop; lia |].
  set (s' := alter_node (node_map_el (el_set_attached false)) n s1).
  assert (Hsame : same_registration s1 s').
  { assert (Hrun : modify_el (ONode n) (el_set_attached false) s1 = Ok tt s')
      by (apply modify_el_node_run; rewrite Hlen1; exact Hn).
    pose proof (stable_modify_el (ONode n) (el_set_attached false) s1) as Hst.
    rewrite Hrun in Hst. exact Hst. }
  exists s'. split.
  { unfold Node_remove, Node_onRemove. rewrite (Hloop fuel Hfuel).
    unfold Particle_remove. rewrite bind_ret.
    rewrite modify_el_node_run by (rewrite Hlen1; exact Hn). reflexivity. }
  split; [apply (same_registration_consistent s1 s' Hsame Hcons1)|].
  split.
  { destruct (lookup_lt_is_Some_2 (nodes s1) n) as [N1 HN1]; [rewrite Hlen1; exact Hn|].
    unfold s', alter_node. cbn. rewrite list_lookup_alter_eq, HN1. reflexivity. }
  split.
  { intros sg m Hin. unfold s'. rewrite segments_of_node_map_el.
    apply (removed_not_listed s1 sg m Hcons1), Hall, Hin. }
  split; [intros x Hx; apply Hsegs, Hx|].
  split.
  { intros m x Hm Hx. unfold occurrences, s'. rewrite segments_of_node_map_el.
    apply Hocc; assumption. }
  intros m M HM. destruct (Hnodes m M HM) as (M1 & HM1 & Hp1 & Hc1).
  unfold s', alter_node. cbn. rewrite lookup_alter_if, HM1.
  destruct (decide (n = m)); cbn; eexists; (split; [reflexivity|]);
    cbn; rewrite ?Hp1; repeat split; assumption.
Qed.

(** *** A Segment left behind by a constructor call that threw *)

Lemma same_node_parts_refl (s : Store) : same_node_parts s s.
Proof. split; [reflexivity|]. intros m M HM. exists M. auto. Qed.

Lemma same_node_parts_trans (s1 s2 s3 : Store) :
  same_node_parts s1 s2 -> same_node_parts s2 s3 -> same_node_parts s1 s3.
Proof.
  intros [Hl1 H1] [Hl2 H2]. split; [congruence|].
  intros m M HM. destruct (H1 m M HM) as (M1 & HM1 & Hp1 & Hc1).
  destruct (H2 m M1 HM1) as (M2 & HM2 & Hp2 & Hc2).
  exists M2. split; [exact HM2|]. split; congruence.
Qed.

Lemma keeps_node_parts_bind {A B} (m : M A) (k : A -> M B) :
  keeps_node_parts m -> (forall a, keeps_node_parts (k a)) ->
  keeps_node_parts (bind m k).
Proof.
  intros Hm Hk s. unfold bind. specialize (Hm s).
  destruct (m s) as [a s1|s1]; cbn in Hm; [|exact Hm].
  eapply same_node_parts_trans; [exact Hm | apply Hk].
Qed.

Lemma keeps_node_parts_ret {A} (a : A) : keeps_node_parts (ret a).
Proof. intros s. apply same_node_parts_refl. Qed.

Lemma keeps_node_parts_deref {A} (v : option A) : keeps_node_parts (deref v).
Proof. intros s. destruct v; apply same_node_parts_refl. Qed.

Lemma keeps_node_parts_get_node (n : nat) : keeps_node_parts (get_node n).
Proof. intros s. unfold get_node. apply keeps_node_parts_deref. Qed.

Lemma keeps_node_parts_get_segment (sg : nat) : keeps_node_parts (get_segment sg).
Proof. intros s. unfold get_segment. apply keeps_node_parts_deref. Qed.

Lemma keeps_node_parts_put_segment (sg : nat) (G : SegmentObj) :
  keeps_node_parts (put_segment sg G).
Proof. intros s. split; [reflexivity|]. intros m M HM. exists M. auto. Qed.

Lemma same_node_parts_new_list (s : Store) (n : nat) (N : NodeObj) (l : list nat) :
  nodes s !! n = Some N ->
  same_node_parts s (store_with_nodes (<[n := node_with_segments l N]> (nodes s)) s).
Proof.
  intros HN. assert (Hn : n < length (nodes s)) by (eapply lookup_lt_Some; eassumption).
  split; [cbn; apply length_insert|].
  intros m M HM. cbn. destruct (decide (n = m)) as [<-|Hne].
  - rewrite list_lookup_insert_eq by exact Hn. rewrite HN in HM.
    injection HM as <-. eexists. split; [reflexivity|]. split; reflexivity.
  - rewrite list_lookup_insert_ne by exact Hne. exists M. auto.
Qed.

Lemma keeps_node_parts_removeSegment (n sg : nat) :
  keeps_node_parts (Node_removeSegment n sg).
Proof.
  intros s. unfold Node_removeSegment, bind, get_node, deref.
  destruct (nodes s !! n) as [N|] eqn:HN; cbn.
  - apply same_node_parts_new_list, HN.
  - apply same_node_parts_refl.
Qed.

Lemma keeps_node_parts_modify_el_segment (sg : nat) (f : Element -> Element) :
  keeps_node_parts (modify_el (OSegment sg) f).
Proof.
  unfold modify_el, get_particle, put_particle.
  repeat first
    [ apply keeps_node_parts_get_segment
    | apply keeps_node_parts_put_segment
    | apply keeps_node_parts_ret
    | apply keeps_node_parts_bind; [|intros ?] ].
Qed.

Lemma keeps_node_parts_Segment_remove (sg : nat) :
  keeps_node_parts (Segment_remove sg).
Proof.
  unfold Segment_remove, Particle_remove, Segment_onRemove.
  repeat first
    [ apply keeps_node_parts_get_segment
    | apply keeps_node_parts_put_segment
    | apply keeps_node_parts_deref
    | apply keeps_node_parts_removeSegment
    | apply keeps_node_parts_modify_el_segment
    | apply keeps_node_parts_bind; [|intros ?] ].
Qed.

(** A Segment without a destination: [remove] throws. *)
Lemma Segment_remove_no_destination (s : Store) (sg : nat) (G : SegmentObj) :
  segs s !! sg = Some G -> destination G = None ->
  exists s', Segment_remove sg s = Throw s'.
Proof.
  intros HG Hd. destruct (Segment_remove sg s) as [u s'|s'] eqn:Hrun.
  - apply Segment_remove_Ok_inv in Hrun as (G' & o & d & HG' & _ & Hd' & _).
    congruence.
  - exists s'. reflexivity.
Qed.

(** A Segment without a destination: recomputing its geometry throws. *)
Lemma for_each_half_built (h : nat) (l : list nat) :
  forall s : Store,
    h ∈ l ->
    (exists G, segs s !! h = Some G /\ destination G = None) ->
    exists s', for_each l Segment_calculateRotation s = Throw s'
               /\ nodes s' = nodes s
               /\ exists G, segs s' !! h = Some G /\ destination G = None.
Proof.
  induction l as [|a l IH]; intros s Hin (G & HG & Hd); [inversion Hin|].
  cbn [for_each].
  destruct (calculateRotation_cases s a)
    as [Hthrow|[(Ga & o & O & HGa & Ho & HO & _ & Hthrow)
               |(Ga & o & d & O & D & HGa & Ho & Hda & HO & HD & Hrun)]].
  - exists s. rewrite (bind_Throw _ _ _ _ Hthrow). eauto.
  - eexists. rewrite (bind_Throw _ _ _ _ Hthrow). split; [reflexivity|].
    split; [reflexivity|]. cbn.
    destruct (decide (a = h)) as [->|Hne].
    + rewrite list_lookup_insert_eq by (eapply lookup_lt_Some; eassumption).
      eexists. split; [reflexivity|]. rewrite HG in HGa. injection HGa as <-.
      exact Hd.
    + rewrite list_lookup_insert_ne by exact Hne. eauto.
  - assert (Hne : a <> h) by (intros ->; congruence).
    rewrite (bind_Ok _ _ _ _ _ Hrun).
    apply elem_of_cons in Hin as [Heq|Hin]; [congruence|].
    destruct (IH (store_with_segs (<[a := recomputed O D Ga]> (segs s)) s) Hin)
      as (s' & Hthrow & Hnodes & Hh).
    { exists G. cbn. rewrite list_lookup_insert_ne by exact Hne. auto. }
    exists s'. split; [exact Hthrow|]. split; [rewrite Hnodes; reflexivity | exact Hh].
Qed.

Lemma onRemove_loop_half_built (n h k : nat) :
  forall (s : Store) (i : nat),
    length (segments_of s n) <= k ->
    h ∈ segments_of s n ->
    (exists G, segs s !! h = Some G /\ destination G = None) ->
    exists s',
      (forall fuel, k < fuel -> Node_onRemove_loop fuel n i s = Some (Throw s'))
      /\ same_node_parts s s'.
Proof.
  induction k as [|k IH]; intros s i Hlen Hin (G & HG & Hd).
  { destruct (segments_of s n); [inversion Hin | cbn in Hlen; lia]. }
  destruct (nodes s !! n) as [N|] eqn:HN;
    [|unfold segments_of in Hin; rewrite HN in Hin; inversion Hin].
  pose proof (segments_of_lookup s n N HN) as Hsn.
  destruct (segments N) as [|sg rest] eqn:Hseg;
    [rewrite Hsn in Hin; inversion Hin|].
  rewrite Hsn in Hlen, Hin. cbn in Hlen.
  assert (Hn : n < length (nodes s)) by (eapply lookup_lt_Some; eassumption).
  set (s1 := store_with_nodes (<[n := node_with_segments rest N]> (nodes s)) s).
  assert (Hs1 : segments_of s1 n = rest).
  { unfold segments_of, s1. cbn.
    rewrite list_lookup_insert_eq by exact Hn. reflexivity. }
  assert (Hp1 : same_node_parts s s1) by (apply same_node_parts_new_list, HN).
  pose proof (keeps_node_parts_Segment_remove sg s1) as Hp2.
  assert (Hstep : forall fuel,
            Node_onRemove_loop (S fuel) n i s
            = match Segment_remove sg s1 with
              | Throw s2 => Some (Throw s2)
              | Ok _ s2 => Node_onRemove_loop fuel n (S i) s2
              end).
  { intros fuel. rewrite (onRemove_loop_step fuel n i s N sg rest HN Hseg).
    reflexivity. }
  destruct (Segment_remove sg s1) as [u s2|s2] eqn:Hrm; cbn in Hp2.
  - assert (Hne : h <> sg).
    { intros ->. destruct (Segment_remove_no_destination s1 sg G HG Hd) as [s' Hs'].
      congruence. }
    destruct u.
    destruct (onRemove_iteration_frame s s2 n sg N rest HN Hrm)
      as (Hsegs & _ & Hocc & _).
    pose proof (shrinking_Segment_remove sg s1) as [_ Hshr].
    specialize (Hshr n). rewrite Hs1, Hrm in Hshr. cbn in Hshr.
    destruct (IH s2 (S i)) as (s' & Hloop & Hp3).
    + lia.
    + apply elem_of_count. fold (occurrences s2 n h). rewrite (Hocc h Hne).
      apply elem_of_count. apply elem_of_cons in Hin as [Heq|Hin]; [congruence|].
      exact Hin.
    + exists G. rewrite (Hsegs h Hne). auto.
    + exists s'. split.
      * intros [|fuel] Hf; [lia|]. rewrite Hstep. apply Hloop. lia.
      * eapply same_node_parts_trans; [exact Hp1|].
        eapply same_node_parts_trans; [exact Hp2 | exact Hp3].
  - exists s2. split.
    + intros [|fuel] Hf; [lia|]. rewrite Hstep. reflexivity.
    + eapply same_node_parts_trans; [exact Hp1 | exact Hp2].
Qed.

(** X18. A Segment that a thrown constructor call left in a Node's list
    blocks the Node.  Every pointer move of a drag of that Node throws
    after the Node's position has been written and before its element is
    moved, and leaves the Segment in the list, so that the next move throws
    as well.  [remove] on the Node throws: no Node loses anything but list
    entries, and the Node's element stays mounted. *)
Theorem half_built_Segment_blocks_drag_and_remove (s : Store) (n : nat)
    (N : NodeObj) :
  half_listed s n -> nodes s !! n = Some N ->
  (forall c e, clickCoords N = Some c ->
     exists s' N',
       Node_onDrag n e s = Throw s'
       /\ nodes s' !! n = Some N'
       /\ translate (node_particle N')
          = {| pt_x := sub (pageX e) (pt_x c); pt_y := sub (pageY e) (pt_y c) |}
       /\ el (node_particle N') = el (node_particle N)
       /\ clickCoords N' = Some c
       /\ half_listed s' n)
  /\ exists s' N',
       (forall fuel, length (segments_of s n) < fuel ->
          Node_remove fuel n s = Some (Throw s'))
       /\ nodes s' !! n = Some N'
       /\ node_particle N' = node_particle N.
Proof.
  intros (h & G & Hin & HG & Hd) HN.
  assert (Hlt : n < length (nodes s)) by (eapply lookup_lt_Some; eassumption).
  split.
  - intros c e Hc.
    set (P := {| pt_x := sub (pageX e) (pt_x c); pt_y := sub (pageY e) (pt_y c) |}).
    set (N2 := node_with_particle (with_translate P (node_particle N)) N).
    set (s1 := store_with_nodes (<[n := N2]> (nodes s)) s).
    assert (HN2 : nodes s1 !! n = Some N2).
    { subst s1. cbn. apply list_lookup_insert_eq, Hlt. }
    rewrite (segments_of_lookup s n N HN) in Hin.
    destruct (for_each_half_built h (segments N) s1 Hin)
      as (s2 & Hrun & Hn2 & G2 & HG2 & Hd2); [exists G; auto|].
    exists s2, N2. split.
    { unfold Node_onDrag.
      rewrite (bind_Ok _ _ _ _ _ (get_node_Ok n N s HN)), Hc.
      cbn [deref]. rewrite bind_ret.
      rewrite (bind_Ok _ _ _ _ _ (put_particle_node_run n N _ s HN)).
      erewrite bind_Ok by (apply get_node_Ok; cbn; apply list_lookup_insert_eq, Hlt).
      cbn [clickCoords node_with_particle]. rewrite Hc.
      cbn [deref]. rewrite bind_ret.
      erewrite bind_Ok
        by (eapply put_particle_node_run; cbn; apply list_lookup_insert_eq, Hlt).
      cbn [nodes store_with_nodes]. rewrite list_insert_insert_eq.
      erewrite bind_Ok by (apply get_node_Ok; cbn; apply list_lookup_insert_eq, Hlt).
      cbn [segments node_with_particle].
      change (store_with_nodes _ (store_with_nodes _ (store_with_nodes _ s))) with s1.
      apply bind_Throw, Hrun. }
    split; [rewrite Hn2; exact HN2|].
    split; [reflexivity|]. split; [reflexivity|]. split; [exact Hc|].
    exists h, G2. split; [|auto].
    unfold segments_of. rewrite Hn2, HN2. exact Hin.
  - destruct (onRemove_loop_half_built n h (length (segments_of s n)) s 0)
      as (s' & Hloop & Hlen & Hparts); [lia | exact Hin | exists G; auto |].
    destruct (Hparts n N HN) as (N' & HN' & Hp & _).
    exists s', N'. split; [|auto].
    intros fuel Hf. unfold Node_remove, Node_onRemove.
    rewrite (Hloop fuel Hf). reflexivity.
Qed.

(** *** How often the loop of [onRemove] runs *)

Lemma distinct_after_iteration (sg : nat) (rest l2 : list nat) :
  sg ∉ l2 ->
  (forall x, x ∈ l2 -> x ∈ rest) ->
  (forall x, x <> sg -> x ∈ rest -> x ∈ l2) ->
  length (remove_dups (sg :: rest)) = S (length (remove_dups l2)).
Proof.
  intros Hnot Hsub Hkeep.
  change (S (length (remove_dups l2))) with (length (sg :: remove_dups l2)).
  apply Permutation_length, NoDup_Permutation.
  - apply NoDup_remove_dups.
  - apply NoDup_cons. split; [|apply NoDup_remove_dups].
    rewrite elem_of_remove_dups. exact Hnot.
  - intros x. rewrite elem_of_remove_dups, !elem_of_cons, elem_of_remove_dups.
    split.
    + intros [->|Hin]; [left; reflexivity|].
      destruct (decide (x = sg)) as [->|Hne]; [left; reflexivity|].
      right. apply Hkeep; assumption.
    + intros [->|Hin]; [left; reflexivity|]. right. apply Hsub, Hin.
Qed.

(** On a consistent store the loop returns after one iteration for each
    distinct Segment of the list. *)
Lemma onRemove_loop_distinct (n k : nat) :
  forall (s : Store) (i : nat),
    length (segments_of s n) <= k ->
    consistent s -> n < length (nodes s) ->
    exists s',
      forall fuel, k < fuel ->
        Node_onRemove_loop fuel n i s
        = Some (Ok (i + length (remove_dups (segments_of s n))) s').
Proof.
  induction k as [|k IH]; intros s i Hlen Hcons Hn;
    destruct (lookup_lt_is_Some_2 _ _ Hn) as [N HN];
    pose proof (segments_of_lookup s n N HN) as Hsn;
    destruct (segments N) as [|sg rest] eqn:Hseg;
    try (rewrite Hsn in Hlen; cbn in Hlen; lia);
    try (exists s; intros [|fuel] Hf; [lia|];
         rewrite (onRemove_loop_done fuel n i s N HN Hseg), Hsn; cbn;
         rewrite Nat.add_0_r; reflexivity).
  destruct (onRemove_iteration s n sg N rest Hcons HN Hseg)
    as (s2 & Hrun & Hcons2 & Hlen2 & Hrm & _ & Hkeep & Hshort & _).
  destruct (onRemove_iteration_frame s s2 n sg N rest HN Hrun)
    as (_ & _ & Hoccn & _).
  rewrite Hsn in Hlen. cbn in Hlen.
  destruct (IH s2 (S i)) as (s' & Hloop); [lia | exact Hcons2 | lia |].
  exists s'. intros [|fuel] Hf; [lia|].
  rewrite (onRemove_loop_step fuel n i s N sg rest HN Hseg), Hrun.
  rewrite (Hloop fuel) by lia. rewrite Hsn.
  rewrite (distinct_after_iteration sg rest (segments_of s2 n)).
  - do 2 f_equal. lia.
  - apply (removed_not_listed s2 sg n Hcons2 Hrm).
  - intros x Hin. destruct (decide (x = sg)) as [->|Hne].
    + exfalso. apply (removed_not_listed s2 sg n Hcons2 Hrm), Hin.
    + apply elem_of_count. apply elem_of_count in Hin.
      fold (occurrences s2 n x) in Hin. rewrite (Hoccn x Hne) in Hin. exact Hin.
  - exact Hkeep.
Qed.

Lemma remove_dups_NoDup (l : list nat) : NoDup l -> remove_dups l = l.
Proof.
  induction l as [|a l IH]; intros Hnd; [reflexivity|].
  apply NoDup_cons in Hnd as [Hnot Hnd]. cbn.
  destruct (decide_rel elem_of a l) as [Hin|_]; [contradiction|].
  rewrite IH by exact Hnd. reflexivity.
Qed.

Lemma length_remove_dups (l : list nat) : length (remove_dups l) <= length l.
Proof.
  induction l as [|a l IH]; cbn; [lia|].
  destruct (decide_rel elem_of a l); cbn; lia.
Qed.

Lemma remove_dups_same_length (l : list nat) :
  length (remove_dups l) = length l -> NoDup l.
Proof.
  induction l as [|a l IH]; cbn; intros Hlen; [apply NoDup_nil_2|].
  pose proof (length_remove_dups l).
  destruct (decide_rel elem_of a l) as [Hin|Hnot]; cbn in Hlen; [lia|].
  apply NoDup_cons. split; [exact Hnot | apply IH; lia].
Qed.

(** C10, as the code has it.  The loop of [onRemove] always ends: for
    every store and Node there is one outcome that every run with more fuel
    than the list is long produces, a return or a throw, and a return comes
    after at most one iteration for each of the [k] entries of the list.
    On a consistent store the loop returns, after exactly one iteration for
    each distinct Segment of the list: [k] iterations when no Segment is
    listed twice, and fewer than [k] when one is. *)
Theorem onRemove_terminates_within_length (s : Store) (n : nat) :
  exists r,
    (forall fuel, length (segments_of s n) < fuel -> Node_onRemove fuel n s = Some r)
    /\ (forall j s', r = Ok j s' -> j <= length (segments_of s n))
    /\ (consistent s -> n < length (nodes s) ->
        (exists s', r = Ok (length (remove_dups (segments_of s n))) s')
        /\ length (remove_dups (segments_of s n)) <= length (segments_of s n)
        /\ (NoDup (segments_of s n) ->
            length (remove_dups (segments_of s n)) = length (segments_of s n))
        /\ (~ NoDup (segments_of s n) ->
            length (remove_dups (segments_of s n)) < length (segments_of s n))).
Proof.
  destruct (onRemove_loop_terminates n (length (segments_of s n)) s 0)
    as (r & Hr & Hj); [lia|].
  exists r. split; [exact Hr|]. split; [exact Hj|].
  intros Hcons Hn.
  destruct (onRemove_loop_distinct n (length (segments_of s n)) s 0)
    as (s1 & Hloop); [lia | exact Hcons | exact Hn |].
  split; [|split; [|split]].
  - exists s1.
    specialize (Hr (S (length (segments_of s n))) (Nat.lt_succ_diag_r _)).
    specialize (Hloop (S (length (segments_of s n))) (Nat.lt_succ_diag_r _)).
    unfold Node_onRemove in Hr. rewrite Hloop in Hr. inversion Hr. reflexivity.
  - apply length_remove_dups.
  - intros Hnd. rewrite remove_dups_NoDup by exact Hnd. reflexivity.
  - intros Hdup.
    destruct (decide (length (remove_dups (segments_of s n))
                      = length (segments_of s n))) as [Heq|Hne].
    + exfalso. apply Hdup, remove_dups_same_length, Heq.
    + pose proof (length_remove_dups (segments_of s n)). lia.
Qed.

End Further.

(** ** The further properties on concrete diagrams *)

(** Node A of the demo page lists three Segments, each once: the loop of
    [onRemove] returns after three iterations. *)
Lemma onRemove_terminates_within_length_witness :
  (consistent demo_store /\ 0 < length (nodes demo_store))
  /\ exists s', Node_onRemove 4 0 demo_store = Some (Ok 3 s').
Proof.
  assert (Hn : 0 < length (nodes demo_store)) by (vm_compute; lia).
  split; [split; [exact demo_store_consistent | exact Hn]|].
  destruct (onRemove_terminates_within_length demo_store 0) as (r & Hr & _ & Hex).
  destruct (Hex demo_store_consistent Hn) as ((s' & Heq) & _).
  exists s'. rewrite (Hr 4) by (vm_compute; lia). rewrite Heq. reflexivity.
Defined.

Lemma demo_store_no_dangling : no_dangling demo_store.
Proof.
  intros sg G o HG Ho.
  do 6 (destruct sg as [|sg];
        [cbn in HG; injection HG as <-; cbn in Ho;
         destruct Ho as [Ho|Ho]; injection Ho as <-; cbn; lia|]).
  discriminate HG.
Qed.

Lemma two_nodes_store_well_formed : well_formed two_nodes_store.
Proof.
  split; [apply consistentb_sound; vm_compute; reflexivity|].
  intros sg G o HG. destruct sg; discriminate HG.
Qed.

(** The first Segment of the demo page, recomputed twice. *)
Lemma calculateRotation_idempotent_witness :
  live demo_store 0
  /\ exists s1, Segment_calculateRotation 0 demo_store = Ok tt s1
                /\ Segment_calculateRotation 0 s1 = Ok tt s1.
Proof.
  assert (Hlive : live demo_store 0) by (apply liveb_live; reflexivity).
  split; [exact Hlive | exact (calculateRotation_idempotent demo_store 0 Hlive)].
Defined.

(** The first Segment of the demo page, removed twice. *)
Lemma Segment_remove_twice_throws_witness :
  Segment_remove 0 demo_store = Ok tt demo_after_remove_AB
  /\ Segment_remove 0 demo_after_remove_AB = Throw demo_after_remove_AB.
Proof.
  assert (Hrun : Segment_remove 0 demo_store = Ok tt demo_after_remove_AB)
    by (vm_compute; reflexivity).
  split; [exact Hrun | exact (Segment_remove_twice_throws _ _ _ Hrun)].
Defined.

(** A Segment built between two Nodes and asked for its width before it is
    attached. *)
Lemma calculateWidth_before_geometry_throws_witness :
  exists s1,
    Segment (segment_opts 0 1) two_nodes_store = Ok 0 s1
    /\ Segment_calculateWidth 0 s1 = Throw s1.
Proof.
  eexists. 
  assert (Hrun : Segment (segment_opts 0 1) two_nodes_store
                 = Ok 0 (outcome_store (Segment (segment_opts 0 1) two_nodes_store)))
    by (vm_compute; reflexivity).
  split; [exact Hrun | exact (calculateWidth_before_geometry_throws _ _ _ _ Hrun)].
Defined.

(** A pointer move delivered to Node A of the demo page, which was never
    pressed. *)
Lemma onDrag_without_drag_start_throws_witness :
  (nodes demo_store !! 0 = Some demo_nodeA /\ clickCoords demo_nodeA = None)
  /\ Node_onDrag 0 (mouse_at 210 80 205 75) demo_store = Throw demo_store.
Proof.
  split; [split; reflexivity|].
  exact (proj1 (onDrag_without_drag_start_throws demo_store 0 demo_nodeA
                  (mouse_at 210 80 205 75) eq_refl eq_refl)).
Defined.

(** A Segment built with Node A as its origin and no destination. *)
Lemma Segment_without_destination_stays_registered_witness :
  0 < length (nodes two_nodes_store)
  /\ exists s',
       Segment {| opt_w := None; opt_h := Some (of_Z 5); opt_x := None;
                  opt_y := None; opt_title := None;
                  opt_origin := Some 0; opt_destination := None |}
               two_nodes_store = Throw s'
       /\ segments_of s' 0 = [0]
       /\ ~ consistent s'.
Proof.
  assert (Hn : 0 < length (nodes two_nodes_store)) by (vm_compute; lia).
  split; [exact Hn|].
  destruct (proj1 (Segment_without_destination_stays_registered
                     {| opt_w := None; opt_h := Some (of_Z 5); opt_x := None;
                        opt_y := None; opt_title := None;
                        opt_origin := Some 0; opt_destination := None |}
                     two_nodes_store 0 eq_refl Hn eq_refl))
    as (s' & Hrun & Hlist & _ & _ & Hbad).
  exists s'. split; [exact Hrun|]. split; [exact Hlist | exact Hbad].
Defined.

(** A pointer-down on Node B of the demo page, five pixels into its box. *)
Lemma onDragStart_records_click_offset_witness :
  nodes demo_store !! 1 = Some demo_nodeB
  /\ exists s' N' c,
       Node_onDragStart 1 (mouse_at 205 55 200 50) demo_store = Ok tt s'
       /\ nodes s' !! 1 = Some N'
       /\ clickCoords N' = Some c
       /\ pt_x c = Num 5 /\ pt_y c = Num 5
       /\ dragging (el (node_particle N')) = true.
Proof.
  split; [reflexivity|].
  destruct (onDragStart_records_click_offset demo_store 1 demo_nodeB
              (mouse_at 205 55 200 50) eq_refl)
    as (s' & N' & c & Hrun & HN' & Hc & Hx & Hy & _ & _ & Hdrag & _).
  exists s', N', c.
  split; [exact Hrun|]. split; [exact HN'|]. split; [exact Hc|].
  split; [exact (Hx (Num 5) eq_refl eq_refl)|].
  split; [exact (Hy (Num 5) eq_refl eq_refl) | exact Hdrag].
Defined.

(** The pointer released over Node B of the demo page, then moved. *)
Lemma pointer_moves_after_drag_end_do_nothing_witness :
  1 < length (nodes demo_after_down_on_B)
  /\ exists s',
       Node_onDragEnd 1 (mouse_at 210 80 205 75) demo_after_down_on_B = Ok tt s'
       /\ dispatch (MouseMove (mouse_at 300 300 205 75)) s' = Ok tt s'.
Proof.
  assert (Hn : 1 < length (nodes demo_after_down_on_B)) by (vm_compute; lia).
  split; [exact Hn|].
  destruct (pointer_moves_after_drag_end_do_nothing demo_after_down_on_B 1
              (mouse_at 210 80 205 75) Hn) as (s' & Hrun & _ & Hmove).
  exists s'. split; [exact Hrun | apply Hmove].
Defined.

(** A Segment that Node A of the demo page does not list, registered and
    deregistered. *)
Lemma addSegment_then_removeSegment_witness :
  nodes demo_store !! 0 = Some demo_nodeA
  /\ (Node_addSegment 0 5 ;;; Node_removeSegment 0 5) demo_store = Ok tt demo_store.
Proof.
  split; [reflexivity|].
  destruct (addSegment_then_removeSegment demo_store 0 5 demo_nodeA eq_refl)
    as (s' & Hrun & Hnot & _).
  rewrite Hrun. f_equal. apply Hnot.
  intros Hin. cbn in Hin.
  repeat (apply elem_of_cons in Hin as [Hin|Hin]; [discriminate Hin|]).
  inversion Hin.
Defined.

(** A Segment built between two Nodes and removed again. *)
Lemma Segment_then_remove_restores_nodes_witness :
  consistent two_nodes_store
  /\ exists s1 s2,
       Segment (segment_opts 0 1) two_nodes_store = Ok 0 s1
       /\ Segment_remove 0 s1 = Ok tt s2
       /\ nodes s2 = nodes two_nodes_store
       /\ removed s2 0.
Proof.
  assert (Hrun : Segment (segment_opts 0 1) two_nodes_store
                 = Ok 0 (outcome_store (Segment (segment_opts 0 1) two_nodes_store)))
    by (vm_compute; reflexivity).
  split; [exact (proj1 two_nodes_store_well_formed)|].
  destruct (Segment_then_remove_restores_nodes _ _ _ _
              (proj1 two_nodes_store_well_formed) Hrun)
    as (s2 & Hrm & Hnodes & Hgone & _).
  eexists _, s2. split; [exact Hrun|]. split; [exact Hrm|].
  split; [exact Hnodes | exact Hgone].
Defined.

(** A Segment built between two Nodes. *)
Lemma Segment_keeps_well_formed_witness :
  well_formed two_nodes_store
  /\ exists s1,
       Segment (segment_opts 0 1) two_nodes_store = Ok 0 s1
       /\ well_formed s1
       /\ occurrences s1 0 0 = 1 /\ occurrences s1 1 0 = 1.
Proof.
  assert (Hrun : Segment (segment_opts 0 1) two_nodes_store
                 = Ok 0 (outcome_store (Segment (segment_opts 0 1) two_nodes_store)))
    by (vm_compute; reflexivity).
  split; [exact two_nodes_store_well_formed|].
  destruct (Segment_keeps_well_formed _ _ _ _ two_nodes_store_well_formed Hrun)
    as (Hwf & o & d & Ho & Hd & Hocc).
  eexists. split; [exact Hrun|]. split; [exact Hwf|].
  injection Ho as <-. injection Hd as <-.
  split; [exact (Hocc 0) | exact (Hocc 1)].
Defined.

(** The first Segment of the demo page removed. *)
Lemma Segment_remove_keeps_well_formed_witness :
  (well_formed demo_store
   /\ Segment_remove 0 demo_store = Ok tt demo_after_remove_AB)
  /\ well_formed demo_after_remove_AB
  /\ occurrences demo_after_remove_AB 0 0 = 0
  /\ occurrences demo_after_remove_AB 1 0 = 0.
Proof.
  assert (Hwf : well_formed demo_store)
    by (split; [exact demo_store_consistent | exact demo_store_no_dangling]).
  assert (Hrun : Segment_remove 0 demo_store = Ok tt demo_after_remove_AB)
    by (vm_compute; reflexivity).
  split; [split; [exact Hwf | exact Hrun]|].
  destruct (Segment_remove_keeps_well_formed _ _ _ Hwf Hrun)
    as (Hwf' & Hgone & _).
  split; [exact Hwf'|]. split; apply Hgone.
Defined.

(** The first Segment of the demo page attached a second time. *)
Lemma Segment_attach_mounts_with_geometry_witness :
  (segs demo_store !! 0 = Some demo_segAB /\ live demo_store 0)
  /\ exists s' G',
       Segment_attach 0 demo_store = Ok tt s'
       /\ segs s' !! 0 = Some G'
       /\ drawn (canvas G') = 2
       /\ up_to_date s' 0.
Proof.
  assert (Hlive : live demo_store 0) by (apply liveb_live; reflexivity).
  split; [split; [reflexivity | exact Hlive]|].
  destruct (Segment_attach_mounts_with_geometry demo_store 0 demo_segAB
              eq_refl Hlive)
    as (s' & G' & Hrun & _ & HG' & _ & Hdrawn & _ & Hup).
  exists s', G'. split; [exact Hrun|]. split; [exact HG'|].
  split; [exact Hdrawn | exact Hup].
Defined.

(** Node A of the demo page attached a second and a third time. *)
Lemma Node_attach_appends_title_each_time_witness :
  nodes demo_store !! 0 = Some demo_nodeA
  /\ exists s1 s2 N2,
       Node_attach 0 demo_store = Ok tt s1
       /\ Node_attach 0 s1 = Ok tt s2
       /\ nodes s2 !! 0 = Some N2
       /\ children (el (node_particle N2))
          = [H4 "Node A"; H4 "Node A"; H4 "Node A"].
Proof.
  split; [reflexivity|].
  destruct (Node_attach_appends_title_each_time demo_store 0 demo_nodeA eq_refl)
    as (s1 & s2 & N1 & N2 & Hrun1 & _ & _ & _ & _ & _ & _ & _ & _ & Hrun2 & HN2 & Hch).
  exists s1, s2, N2. split; [exact Hrun1|]. split; [exact Hrun2|].
  split; [exact HN2 | exact Hch].
Defined.

(** Node D of the demo page removed: it lists four Segments. *)
Lemma Node_remove_keeps_consistency_witness :
  (consistent demo_store /\ 3 < length (nodes demo_store)
   /\ length (segments_of demo_store 3) < 5)
  /\ exists s',
       Node_remove 5 3 demo_store = Some (Ok tt s')
       /\ consistent s'
       /\ segments_of s' 3 = []
       /\ segments_of s' 0 = [0; 1].
Proof.
  assert (Hn : 3 < length (nodes demo_store)) by (vm_compute; lia).
  assert (Hf : length (segments_of demo_store 3) < 5) by (vm_compute; lia).
  split; [split; [exact demo_store_consistent | split; assumption]|].
  destruct (Node_remove_keeps_consistency demo_store 3 5 demo_store_consistent Hn Hf)
    as (s' & Hrun & Hcons & _).
  exists s'. split; [exact Hrun|]. split; [exact Hcons|].
  assert (Hs : Some (Ok tt s')
               = Some (Ok tt (outcome_store
                    (default (Throw demo_store) (Node_remove 5 3 demo_store)))))
    by (rewrite <- Hrun; vm_compute; reflexivity).
  injection Hs as ->. split; vm_compute; reflexivity.
Defined.

(** Node A after a constructor call that named it as origin and gave no
    destination: a pointer move of a drag throws, and so does [remove]. *)
Lemma half_built_Segment_blocks_drag_and_remove_witness :
  half_listed half_built_store 0
  /\ exists N s',
       nodes half_built_store !! 0 = Some N
       /\ Node_remove 2 0 half_built_store = Some (Throw s').
Proof.
  assert (Hhalf : half_listed half_built_store 0).
  { eexists 0, _. split; [cbn; left|]. split; reflexivity. }
  split; [exact Hhalf|].
  destruct (proj2 (half_built_Segment_blocks_drag_and_remove half_built_store 0 _
                     Hhalf eq_refl)) as (s' & N' & Hrun & _).
  eexists _, s'. split; [reflexivity|]. apply Hrun. vm_compute. lia.
Defined.
